(** * comparar_json: a shallow embedding of the JSON comparison engine

    The development follows [src/comparar_json.py]: the canonicalizer
    ([ordenar_lista], [ordenar_dicionario]), the kind inspection
    ([obter_tipo]), the scalar normalisation ([normalizar_valor]) and the
    recursive differ ([comparar_valores], [comparar_json]).

    Python values are modelled as the tagged union that [json.load] produces.
    Exceptions are modelled with an error monad.  The few CPython builtins
    whose text is not part of the repository and that a comparison can reach
    ([float.__repr__], [str.__repr__], the JSON string encoder and the
    iteration order of a [set]) are the fields of the class [Runtime].

    The command-line part ([salvar_diferencas_csv], [main]) passes along a
    record of what has been printed and written; the answers of the file
    system and of the keyboard are the fields of the class [Sistema]. *)

From Stdlib Require Import ZArith List String Ascii Bool Lia.
From Stdlib Require Import Permutation Sorted DecimalString.
From Stdlib Require Import Floats.SpecFloat.
Import ListNotations.

Set Warnings "-register-all".


Local Open Scope string_scope.
Local Open Scope list_scope.
Local Open Scope Z_scope.

(** String concatenation, as [+] on [str] and as an f-string builds it. *)
Infix "+++" := String.append (at level 60, right associativity).

(** ** Exceptions and the error monad *)

(** The Python exceptions that the code can meet.  [OutOfFuel] is not one of
    them: it marks the depth bound of the unrolled recursion of
    [comparar_valores], which never returns it. *)
Inductive exn : Type :=
| AttributeError
| KeyError
| OverflowError
| TypeError
| OutOfFuel.

Inductive result (A : Type) : Type :=
| Ok (a : A)
| Err (e : exn).

Arguments Ok {A} a.
Arguments Err {A} e.

Definition bind {A B : Type} (r : result A) (k : A -> result B) : result B :=
  match r with
  | Ok a => k a
  | Err e => Err e
  end.

Notation "x <- c ;; k" := (bind c (fun x => k))
  (at level 61, c at next level, right associativity).

(** [for x in l: acc.extend(f x)] where [f] may raise. *)
Fixpoint concat_mapM {A B : Type} (f : A -> result (list B)) (l : list A)
  : result (list B) :=
  match l with
  | [] => Ok []
  | x :: l' =>
      r <- f x ;;
      rs <- concat_mapM f l' ;;
      Ok (r ++ rs)
  end.

(** Two outcomes that hold the same records, in whatever order, or that
    are both an exception. *)
Definition mesmos_registros {B : Type} (r r' : result (list B)) : Prop :=
  match r, r' with
  | Ok rs, Ok rs' => Permutation rs rs'
  | Err _, Err _ => True
  | _, _ => False
  end.

(** ** Python values produced by [json.load] *)

(** A Python [float] is an IEEE-754 binary64 value, kept in the canonical
    form that [valid_binary 53 1024] describes. *)
Definition float := spec_float.

Inductive json : Type :=
| JNull
| JBool (b : bool)
| JInt (z : Z)
| JFloat (f : float)
| JStr (s : string)
| JList (itens : list json)
| JDict (campos : list (string * json)).

(** A [dict] keeps its keys in insertion order and its keys are unique; a
    [str] is kept as the bytes of its UTF-8 encoding, whose lexicographic
    order is the order of the code points that Python compares. *)

(** [d.keys()] *)
Definition chaves (d : list (string * json)) : list string := map fst d.

(** [d[k]], which raises [KeyError] for a key that [d] lacks. *)
Fixpoint dict_get (d : list (string * json)) (k : string) : result json :=
  match d with
  | [] => Err KeyError
  | (k', v) :: d' => if String.eqb k k' then Ok v else dict_get d' k
  end.

(** How deep the lists and objects of a value nest. *)
Fixpoint altura (v : json) : nat :=
  match v with
  | JList l => S (fold_right (fun x n => Nat.max (altura x) n) O l)
  | JDict d => S (fold_right (fun kv n => Nat.max (altura (snd kv)) n) O d)
  | _ => O
  end.

(** Induction over [json] that reaches the elements of lists and objects. *)
Section JsonInd.
Variable P : json -> Prop.
Hypothesis HNull : P JNull.
Hypothesis HBool : forall b, P (JBool b).
Hypothesis HInt : forall z, P (JInt z).
Hypothesis HFloat : forall f, P (JFloat f).
Hypothesis HStr : forall s, P (JStr s).
Hypothesis HList : forall l, Forall P l -> P (JList l).
Hypothesis HDict : forall d, Forall (fun kv => P (snd kv)) d -> P (JDict d).

Fixpoint json_ind' (v : json) : P v :=
  match v with
  | JNull => HNull
  | JBool b => HBool b
  | JInt z => HInt z
  | JFloat f => HFloat f
  | JStr s => HStr s
  | JList l =>
      HList l ((fix go (l : list json) : Forall P l :=
                  match l with
                  | [] => Forall_nil _
                  | x :: l' => Forall_cons x (json_ind' x) (go l')
                  end) l)
  | JDict d =>
      HDict d ((fix go (d : list (string * json))
                  : Forall (fun kv => P (snd kv)) d :=
                  match d with
                  | [] => Forall_nil _
                  | kv :: d' => Forall_cons kv (json_ind' (snd kv)) (go d')
                  end) d)
  end.
End JsonInd.

(** ** Builtins of the Python runtime *)

(** [str(int)]: the decimal numeral.  CPython from 3.11 on raises
    [ValueError] for an integer of more than 4300 digits; see
    [inteiro_com_texto]. *)
Definition str_int (z : Z) : string := NilZero.string_of_int (Z.to_int z).

Fixpoint join (sep : string) (l : list string) : string :=
  match l with
  | [] => ""
  | [x] => x
  | x :: l' => x +++ sep +++ join sep l'
  end.

(** [k in ks] *)
Definition pertence (k : string) (ks : list string) : bool :=
  existsb (String.eqb k) ks.

Class Runtime : Type := {
  (** [float.__repr__]: the shortest decimal text that reads back as the
      same float. *)
  repr_float : float -> string;
  (** [str.__repr__]: the quoted, escaped form of a string. *)
  repr_str : string -> string;
  (** The string encoder of [json.dumps] (quoted, escaped, ASCII only). *)
  dumps_str : string -> string;
  (** The order in which [for chave in a - b] and [for chave in a & b]
      visit their keys, for the sets made of the distinct keys [a] and [b]:
      some arrangement of the keys of the result, fixed by the hashes of
      the strings and by how the sets were built. *)
  set_diferenca : list string -> list string -> list string;
  set_diferenca_perm : forall a b,
    Permutation (set_diferenca a b) (filter (fun k => negb (pertence k b)) a);
  set_intersecao : list string -> list string -> list string;
  set_intersecao_perm : forall a b,
    Permutation (set_intersecao a b) (filter (fun k => pertence k b) a)
}.

(** *** A concrete runtime

    The closed examples below run on this instance.  [repr_float_py] is the
    shortest-round-trip text of a binary64 value, [repr_str_py] and
    [dumps_str_py] are the escapes CPython applies, with every non-ASCII
    character taken as printable, and the keys of a set difference or
    intersection are visited in the order of the left object, one of the
    orders a hash seed can produce. *)

Definition hex_digit (n : Z) : string :=
  String (ascii_of_nat (Z.to_nat (if n <? 10 then 48 + n else 87 + n))) EmptyString.

(** The [width] low hexadecimal digits of [n], most significant first. *)
Fixpoint hex (width : nat) (n : Z) : string :=
  match width with
  | O => ""
  | S w => hex w (n / 16) +++ hex_digit (n mod 16)
  end.

Fixpoint contem (c : ascii) (s : string) : bool :=
  match s with
  | EmptyString => false
  | String c' s' => Ascii.eqb c c' || contem c s'
  end.

Definition apostrofo : ascii := ascii_of_nat 39.
Definition aspa_dupla : ascii := ascii_of_nat 34.
Definition barra : ascii := ascii_of_nat 92.

Fixpoint repr_str_corpo (q : ascii) (s : string) : string :=
  match s with
  | EmptyString => ""
  | String c s' =>
      let n := Z.of_nat (nat_of_ascii c) in
      (if Ascii.eqb c q || Ascii.eqb c barra then String barra (String c EmptyString)
       else if n =? 9 then String barra "t"
       else if n =? 10 then String barra "n"
       else if n =? 13 then String barra "r"
       else if (n <? 32) || (n =? 127) then String barra ("x" +++ hex 2 n)
       else String c EmptyString)
      +++ repr_str_corpo q s'
  end.

Definition repr_str_py (s : string) : string :=
  let q := if contem apostrofo s && negb (contem aspa_dupla s)
           then aspa_dupla else apostrofo in
  String q (repr_str_corpo q s) +++ String q EmptyString.

(** The code unit escapes of the JSON encoder for one code point. *)
Definition escape_u (cp : Z) : string :=
  if cp <? 65536 then String barra ("u" +++ hex 4 cp)
  else
    let n := cp - 65536 in
    String barra ("u" +++ hex 4 (55296 + n / 1024))
      +++ String barra ("u" +++ hex 4 (56320 + n mod 1024)).

Definition byte_de (c : ascii) : Z := Z.of_nat (nat_of_ascii c).

Definition continua (c : ascii) : bool :=
  (128 <=? byte_de c) && (byte_de c <? 192).

(** The text is read one UTF-8 sequence at a time; [fuel] bounds its length. *)
Fixpoint dumps_str_corpo (fuel : nat) (s : string) : string :=
  match fuel with
  | O => ""
  | S fuel' =>
      match s with
      | EmptyString => ""
      | String c s1 =>
          let n := byte_de c in
          if n <? 128 then
            (if Ascii.eqb c aspa_dupla || Ascii.eqb c barra
             then String barra (String c EmptyString)
             else if n =? 8 then String barra "b"
             else if n =? 9 then String barra "t"
             else if n =? 10 then String barra "n"
             else if n =? 12 then String barra "f"
             else if n =? 13 then String barra "r"
             else if (n <? 32) || (n =? 127) then escape_u n
             else String c EmptyString)
            +++ dumps_str_corpo fuel' s1
          else
            match s1 with
            | String c2 s2 =>
                if (192 <=? n) && (n <? 224) && continua c2 then
                  escape_u ((n - 192) * 64 + (byte_de c2 - 128))
                    +++ dumps_str_corpo fuel' s2
                else
                  match s2 with
                  | String c3 s3 =>
                      if (224 <=? n) && (n <? 240) && continua c2 && continua c3 then
                        escape_u ((n - 224) * 4096 + (byte_de c2 - 128) * 64
                                  + (byte_de c3 - 128))
                          +++ dumps_str_corpo fuel' s3
                      else
                        match s3 with
                        | String c4 s4 =>
                            if (240 <=? n) && continua c2 && continua c3 && continua c4 then
                              escape_u ((n - 240) * 262144 + (byte_de c2 - 128) * 4096
                                        + (byte_de c3 - 128) * 64 + (byte_de c4 - 128))
                                +++ dumps_str_corpo fuel' s4
                            else escape_u n +++ dumps_str_corpo fuel' s1
                        | EmptyString => escape_u n +++ dumps_str_corpo fuel' s1
                        end
                  | EmptyString => escape_u n +++ dumps_str_corpo fuel' s1
                  end
            | EmptyString => escape_u n
            end
      end
  end.

Definition dumps_str_py (s : string) : string :=
  String aspa_dupla (dumps_str_corpo (String.length s) s)
    +++ String aspa_dupla EmptyString.

(** [d * 10^k] against the fraction [num / den]. *)
Definition compara_decimal (d k num den : Z) : comparison :=
  if 0 <=? k then d * 10 ^ k * den ?= num else d * den ?= num * 10 ^ (- k).

(** The least [t] from [t0] on with [num / den < 10^(t+1)]. *)
Fixpoint expoente_decimal (fuel : nat) (t num den : Z) : Z :=
  match fuel with
  | O => t
  | S fuel' =>
      match compara_decimal 1 (t + 1) num den with
      | Gt => t
      | _ => expoente_decimal fuel' (t + 1) num den
      end
  end.

Fixpoint tira_zeros (fuel : nat) (d k : Z) : Z * Z :=
  match fuel with
  | O => (d, k)
  | S fuel' => if d mod 10 =? 0 then tira_zeros fuel' (d / 10) (k + 1) else (d, k)
  end.

(** The digits [d] and exponent [k] of the shortest decimal [d * 10^k] that
    rounds to the positive float [m * 2^e], the nearest one among the
    shortest. *)
Definition digitos_curtos (m : positive) (e : Z) : Z * Z :=
  let sh := Z.max 0 (- e) in
  let den := 4 * 2 ^ sh in
  let x := 4 * Z.pos m * 2 ^ (e + sh) in
  let acima := 2 * 2 ^ (e + sh) in
  let abaixo := if (Z.pos m =? 2 ^ 52) && (-1074 <? e)
                then 2 ^ (e + sh) else acima in
  let par := Z.even (Z.pos m) in
  let dentro d k :=
    match compara_decimal d k (x - abaixo) den, compara_decimal d k (x + acima) den with
    | Gt, Lt => true
    | Eq, Lt | Gt, Eq => par
    | _, _ => false
    end in
  let t := expoente_decimal 700 (-330) x den in
  let tenta n :=
    let k := t + 1 - n in
    let d0 := if 0 <=? k then x / (den * 10 ^ k) else (x * 10 ^ (- k)) / den in
    let d1 := d0 + 1 in
    match dentro d0 k, dentro d1 k with
    | true, false => Some (d0, k)
    | false, true => Some (d1, k)
    | true, true =>
        match compara_decimal (d0 + d1) k (2 * x) den with
        | Gt => Some (d0, k)
        | Lt => Some (d1, k)
        | Eq => Some (if Z.even d0 then d0 else d1, k)
        end
    | false, false => None
    end in
  let fix busca (fuel : nat) (n : Z) : Z * Z :=
    match fuel with
    | O => (Z.pos m, e)
    | S fuel' =>
        match tenta n with
        | Some dk => dk
        | None => busca fuel' (n + 1)
        end
    end in
  let '(d, k) := busca 17%nat 1 in
  tira_zeros 20 d k.

Fixpoint zeros (n : nat) : string :=
  match n with
  | O => ""
  | S n' => String "0" (zeros n')
  end.

Definition repr_float_py (f : float) : string :=
  match f with
  | S754_nan => "nan"
  | S754_infinity s => if s then "-inf" else "inf"
  | S754_zero s => if s then "-0.0" else "0.0"
  | S754_finite s m e =>
      let '(d, k) := digitos_curtos m e in
      let ds := str_int d in
      let nd := Z.of_nat (String.length ds) in
      let decpt := k + nd in
      (if s then "-" else "") +++
      (if (decpt <=? -4) || (16 <? decpt) then
         let ex := decpt - 1 in
         String.substring 0 1 ds
           +++ (if 1 <? nd then "." +++ String.substring 1 (String.length ds - 1) ds else "")
           +++ "e" +++ (if ex <? 0 then "-" else "+")
           +++ (if Z.abs ex <? 10 then "0" else "") +++ str_int (Z.abs ex)
       else if decpt <=? 0 then
         "0." +++ zeros (Z.to_nat (- decpt)) +++ ds
       else if nd <=? decpt then
         ds +++ zeros (Z.to_nat (decpt - nd)) +++ ".0"
       else
         String.substring 0 (Z.to_nat decpt) ds +++ "."
           +++ String.substring (Z.to_nat decpt) (Z.to_nat (nd - decpt)) ds)
  end.

Definition cpython : Runtime := {|
  repr_float := repr_float_py;
  repr_str := repr_str_py;
  dumps_str := dumps_str_py;
  set_diferenca := fun a b => filter (fun k => negb (pertence k b)) a;
  set_diferenca_perm := fun a b => Permutation_refl _;
  set_intersecao := fun a b => filter (fun k => pertence k b) a;
  set_intersecao_perm := fun a b => Permutation_refl _
|}.

(** The same runtime under another hash seed: the keys of a set are
    visited in the opposite order. *)
Definition cpython_outra_semente : Runtime := {|
  repr_float := repr_float_py;
  repr_str := repr_str_py;
  dumps_str := dumps_str_py;
  set_diferenca := fun a b => rev (filter (fun k => negb (pertence k b)) a);
  set_diferenca_perm := fun a b => Permutation_sym (Permutation_rev _);
  set_intersecao := fun a b => rev (filter (fun k => pertence k b) a);
  set_intersecao_perm := fun a b => Permutation_sym (Permutation_rev _)
|}.

(** ** Ordering of sort keys *)

(** The numeric tower that Python orders together: [bool] is a subclass of
    [int], and [int] and [float] are compared exactly. *)
Inductive numero : Type :=
| NInt (z : Z)
| NFloat (f : float).

(** Exact comparison of an integer with a float; [None] with a NaN. *)
Definition Z_SF_compare (z : Z) (f : float) : option comparison :=
  match f with
  | S754_nan => None
  | S754_infinity s => Some (if s then Gt else Lt)
  | S754_zero _ => Some (z ?= 0)
  | S754_finite s m e =>
      let v := if s then Z.neg m else Z.pos m in
      Some (if 0 <=? e then z ?= v * 2 ^ e else z * 2 ^ (- e) ?= v)
  end.

Definition num_compare (x y : numero) : option comparison :=
  match x, y with
  | NInt a, NInt b => Some (a ?= b)
  | NFloat f, NFloat g => SFcompare f g
  | NInt a, NFloat g => Z_SF_compare a g
  | NFloat f, NInt b => option_map CompOpp (Z_SF_compare b f)
  end.

(** [x < y] on numbers: false whenever a NaN takes part. *)
Definition num_ltb (x y : numero) : bool :=
  match num_compare x y with
  | Some Lt => true
  | _ => false
  end.

(** What the [key=] function of [sorted] hands to the comparison: the value
    itself for a scalar, a JSON text for a list or an object. *)
Inductive chave_ord : Type :=
| KNone
| KNum (n : numero)
| KStr (s : string).

(** [a < b] on keys; Python raises [TypeError] across kinds and on [None]. *)
Definition chave_lt (a b : chave_ord) : result bool :=
  match a, b with
  | KNum x, KNum y => Ok (num_ltb x y)
  | KStr s, KStr t => Ok (String.ltb s t)
  | _, _ => Err TypeError
  end.

(** ** [sorted]

    CPython's sort is stable and compares keys with [<] only.  It raises
    as soon as a comparison does, and every list of two or more keys that
    are not all numbers or all strings makes it compare two keys of
    different kinds, whatever the order of its comparisons.  On keys without
    a NaN, [<] is a strict weak order and every stable sort returns the same
    list.  So the sort is modelled by a stable insertion sort in the error
    monad, which agrees with CPython on all keys that hold no NaN. *)

Section Sorting.
Context {A : Type}.

(** Stable insertion sort with a comparison that cannot fail. *)
Section Pure.
Variable ltb : A -> A -> bool.

Fixpoint insert (x : A) (l : list A) : list A :=
  match l with
  | [] => [x]
  | y :: l' => if ltb y x then y :: insert x l' else x :: y :: l'
  end.

Fixpoint isort (l : list A) : list A :=
  match l with
  | [] => []
  | x :: l' => insert x (isort l')
  end.
End Pure.

(** The same sort with a comparison that may raise: the first comparison
    that raises aborts the sort. *)
Section Fallible.
Variable lt : A -> A -> result bool.

Fixpoint insertM (x : A) (l : list A) : result (list A) :=
  match l with
  | [] => Ok [x]
  | y :: l' =>
      b <- lt y x ;;
      if b then (r <- insertM x l' ;; Ok (y :: r)) else Ok (x :: y :: l')
  end.

Fixpoint sortedM (l : list A) : result (list A) :=
  match l with
  | [] => Ok []
  | x :: l' => s <- sortedM l' ;; insertM x s
  end.

(** The comparison seen as a boolean, once it is known not to raise. *)
Definition lt_true (a b : A) : bool :=
  match lt a b with
  | Ok true => true
  | _ => false
  end.

(** Adjacent elements are in order, and the comparison that says so
    returns normally. *)
Definition em_ordem (x y : A) : Prop := lt y x = Ok false.
End Fallible.

(** Vocabulary for a comparison [ltb] read as a strict order: [a] is not
    above [b]; neither is below the other; how many elements are below [b]. *)
Section Order.
Variable ltb : A -> A -> bool.

Definition nao_acima (a b : A) : Prop := ltb b a = false.

Definition equivalentes (a b : A) : Prop := ltb a b = false /\ ltb b a = false.

Definition menores (b : A) (l : list A) : nat :=
  List.length (filter (fun y => ltb y b) l).
End Order.
End Sorting.

(** [sorted(d.keys())] followed by rebuilding the object in that order; the
    keys of an object are distinct, so this is the entries sorted by key. *)
Definition ordenar_chaves {V : Type} (d : list (string * V)) : list (string * V) :=
  isort (fun a b => String.ltb (fst a) (fst b)) d.

Section WithRuntime.
Context {RT : Runtime}.

(** *** Text forms *)

(** [repr(v)], which [str] of a list or an object applies to its parts. *)
Fixpoint py_repr (v : json) : string :=
  match v with
  | JNull => "None"
  | JBool b => if b then "True" else "False"
  | JInt z => str_int z
  | JFloat f => repr_float f
  | JStr s => repr_str s
  | JList l => "[" +++ join ", " (map py_repr l) +++ "]"
  | JDict d =>
      "{" +++ join ", " (map (fun kv => repr_str (fst kv) +++ ": " +++ py_repr (snd kv)) d)
          +++ "}"
  end.

(** [str(v)]: a string is shown as it is, anything else by its [repr]. *)
Definition py_str (v : json) : string :=
  match v with
  | JStr s => s
  | _ => py_repr v
  end.

(** [json.dumps(v, sort_keys=True)] with the default separators. *)
Fixpoint json_dumps (v : json) : string :=
  match v with
  | JNull => "null"
  | JBool b => if b then "true" else "false"
  | JInt z => str_int z
  | JFloat f =>
      match f with
      | S754_nan => "NaN"
      | S754_infinity s => if s then "-Infinity" else "Infinity"
      | _ => repr_float f
      end
  | JStr s => dumps_str s
  | JList l => "[" +++ join ", " (map json_dumps l) +++ "]"
  | JDict d =>
      "{" +++ join ", " (map snd (ordenar_chaves
            (map (fun kv => (fst kv, dumps_str (fst kv) +++ ": " +++ json_dumps (snd kv))) d)))
          +++ "}"
  end.

(** *** Canonicalizer *)

(** [lambda x: json.dumps(x, sort_keys=True) if isinstance(x, (dict, list)) else x] *)
Definition chave_de_ordem (x : json) : chave_ord :=
  match x with
  | JDict _ | JList _ => KStr (json_dumps x)
  | JNull => KNone
  | JBool b => KNum (NInt (if b then 1 else 0))
  | JInt z => KNum (NInt z)
  | JFloat f => KNum (NFloat f)
  | JStr s => KStr s
  end.

(** [sorted(resultado, key=...)]: the keys are computed once, then the
    list is sorted on them. *)
Definition sorted (resultado : list json) : result (list json) :=
  r <- sortedM (fun a b => chave_lt (fst a) (fst b))
               (map (fun x => (chave_de_ordem x, x)) resultado) ;;
  Ok (map snd r).

(** The [try ... except TypeError] around [sorted]. *)
Definition tenta_ordenar (resultado : list json) : list json :=
  match sorted resultado with
  | Ok l => l
  | Err _ => resultado
  end.

(** [ordenar_lista] and [ordenar_dicionario] call each other; in both the
    entries of an object are first rewritten and then put in key order,
    which for distinct keys is the same as visiting the sorted keys. *)
Fixpoint ordenar_lista (lista : json) : json :=
  match lista with
  | JList itens =>
      let resultado :=
        map (fun item =>
               match item with
               | JDict campos =>
                   JDict (ordenar_chaves
                     (map (fun kv =>
                             (fst kv,
                              match snd kv with
                              | JList _ => ordenar_lista (snd kv)
                              | JDict _ => ordenar_dic (snd kv)
                              | valor => valor
                              end)) campos))
               | JList _ => ordenar_lista item
               | _ => item
               end) itens in
      JList (tenta_ordenar resultado)
  | _ => lista
  end
with ordenar_dic (dic : json) : json :=
  match dic with
  | JDict campos =>
      JDict (ordenar_chaves
        (map (fun kv =>
                (fst kv,
                 match snd kv with
                 | JList _ => ordenar_lista (snd kv)
                 | JDict _ => ordenar_dic (snd kv)
                 | valor => valor
                 end)) campos))
  | _ => dic
  end.

(** [ordenar_dicionario(dic)] starts with [dic.keys()], which only an
    object has. *)
Definition ordenar_dicionario (dic : json) : result json :=
  match dic with
  | JDict _ => Ok (ordenar_dic dic)
  | _ => Err AttributeError
  end.

(** The three-way test that both functions apply to a nested value. *)
Definition ordenar (v : json) : json :=
  match v with
  | JList _ => ordenar_lista v
  | JDict _ => ordenar_dic v
  | _ => v
  end.

Definition ordenar_campo (kv : string * json) : string * json :=
  (fst kv, ordenar (snd kv)).

(** *** Differ *)

(** One difference: the seven string fields of the dictionaries that
    [comparar_valores] appends. *)
Record diferenca : Type := {
  caminho : string;
  tipo_diferenca : string;
  valor_json1 : string;
  tipo_json1 : string;
  valor_json2 : string;
  tipo_json2 : string;
  detalhes : string
}.

Definition obter_tipo (valor : json) : string :=
  match valor with
  | JNull => "None"
  | JInt _ => "int"
  | JFloat _ => "float"
  | JStr _ => "str"
  | JBool _ => "bool"
  | JList _ => "list"
  | JDict _ => "dict"
  end.

(** [float(z)]: the nearest binary64 value, ties to even; CPython raises
    [OverflowError] when that value is not finite. *)
Definition float_of_int (z : Z) : result float :=
  match binary_normalize 53 1024 z 0 false with
  | S754_infinity _ => Err OverflowError
  | f => Ok f
  end.

(** [bool] is an instance of [int], so it is converted as well. *)
Definition normalizar_valor (valor : json) : result json :=
  match valor with
  | JBool b => f <- float_of_int (if b then 1 else 0) ;; Ok (JFloat f)
  | JInt z => f <- float_of_int z ;; Ok (JFloat f)
  | JFloat f => Ok (JFloat f)
  | _ => Ok valor
  end.

Definition numero_de (v : json) : option numero :=
  match v with
  | JBool b => Some (NInt (if b then 1 else 0))
  | JInt z => Some (NInt z)
  | JFloat f => Some (NFloat f)
  | _ => None
  end.

(** [a == b] on Python values. *)
Fixpoint py_eqb (a b : json) : bool :=
  match numero_de a, numero_de b with
  | Some x, Some y =>
      match num_compare x y with Some Eq => true | _ => false end
  | _, _ =>
      match a, b with
      | JNull, JNull => true
      | JStr s, JStr t => String.eqb s t
      | JList l1, JList l2 =>
          (fix iguais (l1 l2 : list json) : bool :=
             match l1, l2 with
             | [], [] => true
             | x :: l1', y :: l2' => py_eqb x y && iguais l1' l2'
             | _, _ => false
             end) l1 l2
      | JDict d1, JDict d2 =>
          Nat.eqb (List.length d1) (List.length d2) &&
          forallb (fun kv =>
                     match dict_get d2 (fst kv) with
                     | Ok y => py_eqb (snd kv) y
                     | Err _ => false
                     end) d1
      | _, _ => false
      end
  end.

Definition itens_de (v : json) : list json :=
  match v with
  | JList l => l
  | _ => []
  end.

Definition campos_de (v : json) : list (string * json) :=
  match v with
  | JDict d => d
  | _ => []
  end.

Definition str_len (n : nat) : string := str_int (Z.of_nat n).

(** [f"{caminho}.{chave}" if caminho else chave] *)
Definition caminho_campo (caminho chave : string) : string :=
  match caminho with
  | EmptyString => chave
  | _ => caminho +++ "." +++ chave
  end.

(** [f"{caminho}[{i}]"] *)
Definition caminho_item (caminho : string) (i : nat) : string :=
  caminho +++ "[" +++ str_len i +++ "]".

(** The body of [comparar_valores], with its recursive calls made through
    [rec]. *)
Definition comparar_corpo
    (rec : json -> json -> string -> result (list diferenca))
    (valor1 valor2 : json) (caminho : string) : result (list diferenca) :=
  let tipo1 := obter_tipo valor1 in
  let tipo2 := obter_tipo valor2 in
  if negb (String.eqb tipo1 tipo2) then
    Ok [ {| caminho := caminho;
            tipo_diferenca := "TIPO_DIFERENTE";
            valor_json1 := py_str valor1;
            tipo_json1 := tipo1;
            valor_json2 := match valor2 with
                           | JNull => "CAMPO_NAO_EXISTE"
                           | _ => py_str valor2
                           end;
            tipo_json2 := tipo2;
            detalhes := "Tipos diferentes: " +++ tipo1 +++ " vs " +++ tipo2 |} ]
  else
    match valor1 with
    | JList _ =>
        let lista1_ordenada := itens_de (ordenar_lista valor1) in
        let lista2_ordenada := itens_de (ordenar_lista valor2) in
        let len1 := List.length lista1_ordenada in
        let len2 := List.length lista2_ordenada in
        let quantidade :=
          if negb (Nat.eqb len1 len2) then
            [ {| caminho := caminho;
                 tipo_diferenca := "QUANTIDADE_ITENS_DIFERENTE";
                 valor_json1 := "Lista com " +++ str_len len1 +++ " itens";
                 tipo_json1 := "list";
                 valor_json2 := "Lista com " +++ str_len len2 +++ " itens";
                 tipo_json2 := "list";
                 detalhes := "Quantidade diferente: " +++ str_len len1
                               +++ " vs " +++ str_len len2 |} ]
          else [] in
        let max_len := Nat.max len1 len2 in
        itens <- concat_mapM (fun i =>
          let novo_caminho := caminho_item caminho i in
          if Nat.ltb i len1 && Nat.ltb i len2 then
            rec (nth i lista1_ordenada JNull) (nth i lista2_ordenada JNull) novo_caminho
          else if Nat.ltb i len1 then
            Ok [ {| caminho := novo_caminho;
                    tipo_diferenca := "ITEM_AUSENTE_JSON2";
                    valor_json1 := py_str (nth i lista1_ordenada JNull);
                    tipo_json1 := obter_tipo (nth i lista1_ordenada JNull);
                    valor_json2 := "ITEM_NAO_EXISTE";
                    tipo_json2 := "N/A";
                    detalhes := "Item existe no JSON1 mas não no JSON2" |} ]
          else
            Ok [ {| caminho := novo_caminho;
                    tipo_diferenca := "ITEM_AUSENTE_JSON1";
                    valor_json1 := "ITEM_NAO_EXISTE";
                    tipo_json1 := "N/A";
                    valor_json2 := py_str (nth i lista2_ordenada JNull);
                    tipo_json2 := obter_tipo (nth i lista2_ordenada JNull);
                    detalhes := "Item existe no JSON2 mas não no JSON1" |} ])
          (seq 0 max_len) ;;
        Ok (quantidade ++ itens)
    | JDict campos1 =>
        let campos2 := campos_de valor2 in
        let chaves1 := chaves campos1 in
        let chaves2 := chaves campos2 in
        let chaves_apenas_json1 := set_diferenca chaves1 chaves2 in
        ausentes <- concat_mapM (fun chave =>
          let novo_caminho := caminho_campo caminho chave in
          v1 <- dict_get campos1 chave ;;
          Ok [ {| caminho := novo_caminho;
                  tipo_diferenca := "CAMPO_AUSENTE_JSON2";
                  valor_json1 := py_str v1;
                  tipo_json1 := obter_tipo v1;
                  valor_json2 := "CAMPO_NAO_EXISTE";
                  tipo_json2 := "N/A";
                  detalhes := "Campo existe no JSON1 mas não no JSON2" |} ])
          chaves_apenas_json1 ;;
        let chaves_comuns := set_intersecao chaves1 chaves2 in
        comuns <- concat_mapM (fun chave =>
          let novo_caminho := caminho_campo caminho chave in
          v1 <- dict_get campos1 chave ;;
          v2 <- dict_get campos2 chave ;;
          rec v1 v2 novo_caminho)
          chaves_comuns ;;
        Ok (ausentes ++ comuns)
    | _ =>
        valor1_norm <- normalizar_valor valor1 ;;
        valor2_norm <- normalizar_valor valor2 ;;
        if negb (py_eqb valor1_norm valor2_norm) then
          Ok [ {| caminho := caminho;
                  tipo_diferenca := "VALOR_DIFERENTE";
                  valor_json1 := py_str valor1;
                  tipo_json1 := tipo1;
                  valor_json2 := py_str valor2;
                  tipo_json2 := tipo2;
                  detalhes := "Valores diferentes: " +++ py_str valor1
                                +++ " vs " +++ py_str valor2 |} ]
        else Ok []
    end.

(** The recursion of [comparar_valores] goes through the elements of the
    re-sorted lists, so it is unrolled over a depth bound. *)
Fixpoint comparar_valores_rec (n : nat)
  : json -> json -> string -> result (list diferenca) :=
  match n with
  | O => fun _ _ _ => Err OutOfFuel
  | S n' => comparar_corpo (comparar_valores_rec n')
  end.

(** A call nests at most as deep as its first argument does. *)
Definition comparar_valores (valor1 valor2 : json) (caminho : string)
  : result (list diferenca) :=
  comparar_valores_rec (S (altura valor1)) valor1 valor2 caminho.

Definition comparar_json (json1 json2 : json) : result (list diferenca) :=
  json1_ordenado <- ordenar_dicionario json1 ;;
  json2_ordenado <- ordenar_dicionario json2 ;;
  comparar_valores json1_ordenado json2_ordenado "".

End WithRuntime.

Arguments comparar_valores : simpl never.

(** ** Conditions on values *)

(** Every scalar inside [v] passes the test [P]. *)
Fixpoint folhas (P : json -> bool) (v : json) : bool :=
  match v with
  | JList l => forallb (folhas P) l
  | JDict d => forallb (fun kv => folhas P (snd kv)) d
  | _ => P v
  end.

(** An integer that [float] converts (roughly, below 1.8e308 in magnitude). *)
Definition cabe_em_float (v : json) : bool :=
  match v with
  | JInt z => match float_of_int z with Ok _ => true | Err _ => false end
  | _ => true
  end.

(** JSON has no NaN; only the literal [NaN], which [json.load] accepts
    beyond the standard, reads as one. *)
Definition nao_nan (v : json) : bool :=
  match v with
  | JFloat S754_nan => false
  | _ => true
  end.

Definition limpo (v : json) : bool := cabe_em_float v && nao_nan v.

Definition escalar (v : json) : bool :=
  match v with
  | JList _ | JDict _ => false
  | _ => true
  end.

(** A scalar of kind [t] that can be compared without raising. *)
Definition escalar_de_tipo (t : string) (x : json) : Prop :=
  escalar x = true /\ limpo x = true /\ obter_tipo x = t.

(** An element of such a list together with its sort key, as [sorted]
    holds it while sorting. *)
Definition decorado {RT : Runtime} (t : string) (kx : chave_ord * json) : Prop :=
  fst kx = chave_de_ordem (snd kx) /\ escalar_de_tipo t (snd kx).

(** The comparison that [sorted] applies to two decorated elements. *)
Definition lt_decorado (a b : chave_ord * json) : result bool :=
  chave_lt (fst a) (fst b).

(** A record of any kind but the one for a field missing on the left. *)
Definition nao_ausente_json1 (r : diferenca) : Prop :=
  tipo_diferenca r <> "CAMPO_AUSENTE_JSON1".

(** The float [3.0], in the canonical form of binary64. *)
Definition tres : float := S754_finite false 6755399441055744 (-51).

(** ** What one call appends by itself

    The six dictionaries that the body of [comparar_valores] builds, apart
    from what its recursive calls return: where each is placed and which of
    its fields are fixed texts. *)
Inductive emitido_em (p : string) (r : diferenca) : Prop :=
| em_tipo :
    caminho r = p -> tipo_diferenca r = "TIPO_DIFERENTE" ->
    tipo_json1 r <> tipo_json2 r -> emitido_em p r
| em_valor :
    caminho r = p -> tipo_diferenca r = "VALOR_DIFERENTE" ->
    tipo_json1 r = tipo_json2 r -> emitido_em p r
| em_quantidade :
    caminho r = p -> tipo_diferenca r = "QUANTIDADE_ITENS_DIFERENTE" ->
    tipo_json1 r = "list" -> tipo_json2 r = "list" -> emitido_em p r
| em_item2 (i : nat) :
    caminho r = caminho_item p i -> tipo_diferenca r = "ITEM_AUSENTE_JSON2" ->
    valor_json2 r = "ITEM_NAO_EXISTE" -> tipo_json2 r = "N/A" -> emitido_em p r
| em_item1 (i : nat) :
    caminho r = caminho_item p i -> tipo_diferenca r = "ITEM_AUSENTE_JSON1" ->
    valor_json1 r = "ITEM_NAO_EXISTE" -> tipo_json1 r = "N/A" -> emitido_em p r
| em_campo2 (k : string) :
    caminho r = caminho_campo p k -> tipo_diferenca r = "CAMPO_AUSENTE_JSON2" ->
    valor_json2 r = "CAMPO_NAO_EXISTE" -> tipo_json2 r = "N/A" -> emitido_em p r.

(** The values of [tipo_diferenca] that the code writes. *)
Definition tipos_de_diferenca : list string :=
  [ "TIPO_DIFERENTE"; "VALOR_DIFERENTE"; "QUANTIDADE_ITENS_DIFERENTE";
    "ITEM_AUSENTE_JSON2"; "ITEM_AUSENTE_JSON1"; "CAMPO_AUSENTE_JSON2" ].

(** A dictionary of [comparar_valores] is well shaped: its kind is one of
    the six, and the fields that go with the kind hold the fixed texts. *)
Definition bem_formada (r : diferenca) : Prop :=
  In (tipo_diferenca r) tipos_de_diferenca /\
  (tipo_diferenca r = "TIPO_DIFERENTE" -> tipo_json1 r <> tipo_json2 r) /\
  (tipo_diferenca r = "VALOR_DIFERENTE" -> tipo_json1 r = tipo_json2 r) /\
  (tipo_diferenca r = "QUANTIDADE_ITENS_DIFERENTE" ->
     tipo_json1 r = "list" /\ tipo_json2 r = "list") /\
  (tipo_diferenca r = "ITEM_AUSENTE_JSON2" ->
     valor_json2 r = "ITEM_NAO_EXISTE" /\ tipo_json2 r = "N/A") /\
  (tipo_diferenca r = "ITEM_AUSENTE_JSON1" ->
     valor_json1 r = "ITEM_NAO_EXISTE" /\ tipo_json1 r = "N/A") /\
  (tipo_diferenca r = "CAMPO_AUSENTE_JSON2" ->
     valor_json2 r = "CAMPO_NAO_EXISTE" /\ tipo_json2 r = "N/A").

(** ** Objects inside a value *)

(** The entries of every object inside [v], at any depth, satisfy [Q]. *)
Fixpoint todo_objeto (Q : list (string * json) -> Prop) (v : json) : Prop :=
  match v with
  | JList l => fold_right (fun x P => todo_objeto Q x /\ P) True l
  | JDict d =>
      Q d /\ fold_right (fun kv P => todo_objeto Q (snd kv) /\ P) True d
  | _ => True
  end.

(** What every Python [dict] satisfies: no key twice. *)
Definition chaves_distintas (v : json) : Prop :=
  todo_objeto (fun d => NoDup (chaves d)) v.

(** The keys stand in strictly ascending order. *)
Definition chaves_crescentes (d : list (string * json)) : Prop :=
  StronglySorted (fun a b => String.ltb a b = true) (chaves d).

(** ** The number a float stands for

    Every finite binary64 value is a whole multiple of [2^-1074]:
    [valor_escalado f] is that multiple. *)
Definition valor_escalado (f : float) : option Z :=
  match f with
  | S754_zero _ => Some 0
  | S754_finite s m e =>
      Some ((if s then Z.neg m else Z.pos m) * 2 ^ (e + 1074))
  | _ => None
  end.

(** ** Lists that [sorted] accepts

    The keys that [sorted] compares are numbers (for [int], [float] and
    [bool] items) or strings (for [str] items and for the JSON text of a
    list or an object); [None] is its own key.  A list of two or more items
    is sorted when its keys are all numbers or all strings. *)
Definition chave_numero {RT : Runtime} (x : json) : bool :=
  match chave_de_ordem x with
  | KNum _ => true
  | _ => false
  end.

Definition chave_texto {RT : Runtime} (x : json) : bool :=
  match chave_de_ordem x with
  | KStr _ => true
  | _ => false
  end.

Definition ordenavel {RT : Runtime} (l : list json) : bool :=
  (List.length l <=? 1)%nat || forallb chave_numero l || forallb chave_texto l.

(** Two neighbours of a sorted list: the second is not below the first. *)
Definition chaves_em_ordem {RT : Runtime} (x y : json) : Prop :=
  chave_lt (chave_de_ordem y) (chave_de_ordem x) = Ok false.

(** ** What the differ takes for equal

    [coberto v1 v2]: the two values are of one kind; scalars are equal,
    numbers after their conversion to [float]; lists have one length and
    agree place by place once each is sorted; and every key of a left
    object is a key of the right object, with values that agree in the same
    way.  The right object may have further keys. *)
Inductive coberto {RT : Runtime} : json -> json -> Prop :=
| cob_null : coberto JNull JNull
| cob_bool (b : bool) : coberto (JBool b) (JBool b)
| cob_str (s : string) : coberto (JStr s) (JStr s)
| cob_int (a b : Z) (f g : float) :
    float_of_int a = Ok f -> float_of_int b = Ok g ->
    SFcompare f g = Some Eq -> coberto (JInt a) (JInt b)
| cob_float (f g : float) :
    SFcompare f g = Some Eq -> coberto (JFloat f) (JFloat g)
| cob_list (l1 l2 : list json) :
    Forall2 coberto (itens_de (ordenar_lista (JList l1)))
                    (itens_de (ordenar_lista (JList l2))) ->
    coberto (JList l1) (JList l2)
| cob_dict (d1 d2 : list (string * json)) :
    (forall k, In k (chaves d1) ->
       exists v1 v2,
         dict_get d1 k = Ok v1 /\ dict_get d2 k = Ok v2 /\ coberto v1 v2) ->
    coberto (JDict d1) (JDict d2).

(** ** Rearrangements

    The values that differ from a value in the order of its parts only:
    the keys of its objects, at any depth, and the items of its arrays of
    scalars that [sorted] puts in one order whatever order they came in. *)

(** A float in the canonical form of binary64, which every float that
    [json.load] reads is in. *)
Definition float_valido (v : json) : bool :=
  match v with
  | JFloat f => valid_binary 53 1024 f
  | _ => true
  end.

(** A number: an [int], a [float] or a [bool]. *)
Definition e_numero (v : json) : bool :=
  match numero_de v with
  | Some _ => true
  | None => false
  end.

(** No two items of different kinds are equal, as [1] and [1.0] are, or
    [True] and [1]. *)
Definition sem_empate_entre_tipos (l : list json) : Prop :=
  forall x y, In x l -> In y l -> py_eqb x y = true ->
              obter_tipo x = obter_tipo y.

(** Scalars, with neither a NaN nor an integer that [float] rejects, that
    are all of one kind, or all numbers with no two of different kinds
    equal. *)
Definition rearranjavel (l : list json) : Prop :=
  Forall (fun x => escalar x = true /\ limpo x = true) l /\
  ((exists t, Forall (fun x => obter_tipo x = t) l) \/
   (Forall (fun x => e_numero x = true /\ float_valido x = true) l /\
    sem_empate_entre_tipos l)).

Inductive permutado : json -> json -> Prop :=
| pm_igual (v : json) : permutado v v
| pm_lista (l l' : list json) :
    rearranjavel l -> Permutation l l' -> permutado (JList l) (JList l')
| pm_objeto (d d' d'' : list (string * json)) :
    NoDup (chaves d) -> Permutation d d' ->
    Forall2 (fun kv kv' => fst kv = fst kv' /\ permutado (snd kv) (snd kv'))
            d' d'' ->
    permutado (JDict d) (JDict d'').

(** The place of a number among the numbers, by which an [int] and a
    [float] are compared: whether it is minus infinity, finite or plus
    infinity, and for a finite number the multiple of [2^-1074] that it
    is. *)
Definition lugar (x : numero) : Z * Z :=
  match x with
  | NInt z => (0, z * 2 ^ 1074)
  | NFloat (S754_finite s m e) =>
      (0, (if s then Z.neg m else Z.pos m) * 2 ^ (e + 1074))
  | NFloat (S754_infinity s) => (if s then -1 else 1, 0)
  | NFloat _ => (0, 0)
  end.

Definition compara_lugar (a b : Z * Z) : comparison :=
  match fst a ?= fst b with
  | Eq => snd a ?= snd b
  | c => c
  end.

(** A number that is not a NaN, in canonical form if it is a float. *)
Definition numero_bom (x : numero) : bool :=
  match x with
  | NInt _ => true
  | NFloat S754_nan => false
  | NFloat f => valid_binary 53 1024 f
  end.

(** ** Integers that can be written

    CPython from 3.11 on refuses to turn an integer of more than 4300
    digits into text: [str], [repr] and [json.dumps] raise [ValueError] on
    it, and [json.load] refuses to read one.  The text functions above are
    total, so what is said of the exceptions of the code is said of values
    whose integers are within that limit. *)
Definition inteiro_com_texto (v : json) : bool :=
  match v with
  | JInt z => Z.abs z <? 10 ^ 4300
  | _ => true
  end.

(** ** Values that differ in order only

    [reordenado v v']: [v'] is [v] with the keys of its objects, at any
    depth, in another order, and with its lists of integers and its lists
    of strings rearranged; the other lists keep their items in place. *)
Inductive reordenado : json -> json -> Prop :=
| ro_escalar (v : json) : escalar v = true -> reordenado v v
| ro_inteiros (zs zs' : list Z) :
    Permutation zs zs' ->
    reordenado (JList (map JInt zs)) (JList (map JInt zs'))
| ro_textos (ss ss' : list string) :
    Permutation ss ss' ->
    reordenado (JList (map JStr ss)) (JList (map JStr ss'))
| ro_lista (l l' : list json) :
    Forall2 reordenado l l' -> reordenado (JList l) (JList l')
| ro_objeto (d d' d'' : list (string * json)) :
    NoDup (chaves d) -> Permutation d d' ->
    Forall2 (fun kv kv' => fst kv = fst kv' /\ reordenado (snd kv) (snd kv'))
            d' d'' ->
    reordenado (JDict d) (JDict d'').

(** ** Two runs of the interpreter

    Two runtimes that write floats and strings alike; they may still visit
    the keys of a set in different orders, as two runs with different hash
    seeds do. *)
Definition mesmos_textos (R1 R2 : Runtime) : Prop :=
  (forall f, @repr_float R1 f = @repr_float R2 f) /\
  (forall s, @repr_str R1 s = @repr_str R2 s) /\
  (forall s, @dumps_str R1 s = @dumps_str R2 s).

(** ** The command-line program

    [salvar_diferencas_csv] and [main] act on the console and on files.
    What they print and write is kept in a record that the functions pass
    along; what the operating system answers is a parameter. *)

(** *** The CSV writer

    [csv.DictWriter(csvfile, fieldnames=campos)] writes with the default
    dialect: the fields of a line are joined by commas and the line is ended
    by CR LF; a field is put between double quotes when it holds a comma, a
    double quote, a CR or an LF, and a double quote inside it is doubled; a
    line made of one empty field is written as two double quotes.  The file
    is opened with [newline=''], so the line ends are written as they are,
    and a [str] is already the bytes of its UTF-8 encoding. *)
Definition virgula : ascii := ascii_of_nat 44.
Definition retorno : ascii := ascii_of_nat 13.
Definition avanco : ascii := ascii_of_nat 10.

Definition especial (c : ascii) : bool :=
  Ascii.eqb c virgula || Ascii.eqb c aspa_dupla ||
  Ascii.eqb c retorno || Ascii.eqb c avanco.

Fixpoint precisa_aspas (s : string) : bool :=
  match s with
  | EmptyString => false
  | String c s' => especial c || precisa_aspas s'
  end.

Fixpoint dobra_aspas (s : string) : string :=
  match s with
  | EmptyString => EmptyString
  | String c s' =>
      if Ascii.eqb c aspa_dupla
      then String aspa_dupla (String aspa_dupla (dobra_aspas s'))
      else String c (dobra_aspas s')
  end.

Definition csv_campo (s : string) : string :=
  if precisa_aspas s
  then String aspa_dupla (dobra_aspas s +++ String aspa_dupla EmptyString)
  else s.

Definition fim_de_linha : string := String retorno (String avanco EmptyString).

Definition csv_linha (linha : list string) : string :=
  match linha with
  | [EmptyString] =>
      String aspa_dupla (String aspa_dupla EmptyString) +++ fim_de_linha
  | _ => join "," (map csv_campo linha) +++ fim_de_linha
  end.

Fixpoint junta (textos : list string) : string :=
  match textos with
  | [] => EmptyString
  | t :: textos' => t +++ junta textos'
  end.

(** The [fieldnames] of the writer, and the values of a record in that
    order, as [DictWriter] hands them to the writer. *)
Definition campos : list string :=
  ["caminho"; "tipo_diferenca"; "valor_json1"; "tipo_json1";
   "valor_json2"; "tipo_json2"; "detalhes"].

Definition valores (r : diferenca) : list string :=
  [caminho r; tipo_diferenca r; valor_json1 r; tipo_json1 r;
   valor_json2 r; tipo_json2 r; detalhes r].

(** [writeheader()] followed by [writerows(diferencas)]. *)
Definition texto_csv (diferencas : list diferenca) : string :=
  csv_linha campos +++ junta (map (fun r => csv_linha (valores r)) diferencas).

(** *** Reading a CSV text back

    A strict reader of the same dialect, by which the properties say that a
    written text can be told apart into its lines and fields: it goes
    through the text once, and [None] is a text that is not well formed. *)
Inductive estado_csv : Type :=
| InicioDeLinha
| InicioDeCampo
| EmCampo
| EntreAspas
| AspaEntreAspas
| DepoisDoRetorno.

Fixpoint csv_ler_de (s : string) (e : estado_csv) (campo : string)
    (linha : list string) (linhas : list (list string))
  : option (list (list string)) :=
  match s with
  | EmptyString =>
      match e with
      | InicioDeLinha => Some linhas
      | _ => None
      end
  | String c s' =>
      match e with
      | InicioDeLinha | InicioDeCampo | EmCampo =>
          if Ascii.eqb c virgula then
            csv_ler_de s' InicioDeCampo EmptyString (linha ++ [campo]) linhas
          else if Ascii.eqb c retorno then
            match e with
            | InicioDeLinha => csv_ler_de s' DepoisDoRetorno EmptyString [] (linhas ++ [[]])
            | _ => csv_ler_de s' DepoisDoRetorno EmptyString []
                     (linhas ++ [linha ++ [campo]])
            end
          else if Ascii.eqb c avanco then None
          else if Ascii.eqb c aspa_dupla then
            match e with
            | EmCampo => None
            | _ => csv_ler_de s' EntreAspas EmptyString linha linhas
            end
          else csv_ler_de s' EmCampo (campo +++ String c EmptyString) linha linhas
      | EntreAspas =>
          if Ascii.eqb c aspa_dupla
          then csv_ler_de s' AspaEntreAspas campo linha linhas
          else csv_ler_de s' EntreAspas (campo +++ String c EmptyString) linha linhas
      | AspaEntreAspas =>
          if Ascii.eqb c aspa_dupla then
            csv_ler_de s' EntreAspas (campo +++ String c EmptyString) linha linhas
          else if Ascii.eqb c virgula then
            csv_ler_de s' InicioDeCampo EmptyString (linha ++ [campo]) linhas
          else if Ascii.eqb c retorno then
            csv_ler_de s' DepoisDoRetorno EmptyString []
              (linhas ++ [linha ++ [campo]])
          else None
      | DepoisDoRetorno =>
          if Ascii.eqb c avanco
          then csv_ler_de s' InicioDeLinha EmptyString [] linhas
          else None
      end
  end.

Definition csv_ler (s : string) : option (list (list string)) :=
  csv_ler_de s InicioDeLinha EmptyString [] [].

(** *** Console, files and the operating system *)

(** What a run has printed and written so far: the texts given to [print]
    and the files written, each with its name and text, oldest first. *)
Record mundo : Type := {
  impressos : list string;
  arquivos : list (string * string)
}.

Definition mundo_inicial : mundo := {| impressos := []; arquivos := [] |}.

(** [print(texto)], which is taken to return: the console accepts every
    text. *)
Definition print (texto : string) (w : mundo) : mundo :=
  {| impressos := impressos w ++ [texto]; arquivos := arquivos w |}.

Definition escreve (nome texto : string) (w : mundo) : mundo :=
  {| impressos := impressos w; arquivos := arquivos w ++ [(nome, texto)] |}.

(** The exceptions of a run, as the handlers of [main] tell them apart,
    each with its text [str(e)]: [FileNotFoundError], [json.JSONDecodeError]
    and any other [Exception]. *)
Inductive excecao : Type :=
| FileNotFoundError (texto : string)
| JSONDecodeError (texto : string)
| OutraExcecao (texto : string).

(** A call returns, or raises; either way with what it printed and wrote. *)
Inductive efeito : Type :=
| Retorna (w : mundo)
| Levanta (e : excecao) (w : mundo).

Definition mundo_de (r : efeito) : mundo :=
  match r with
  | Retorna w => w
  | Levanta _ w => w
  end.

(** The answers of the operating system and of the interpreter. *)
Class Sistema : Type := {
  (** [with open(nome, 'r', encoding='utf-8') as f: json.load(f)]: the
      value read, or the exception that [open] or [json.load] raises. *)
  carregar : string -> excecao + json;
  (** [open(nome, 'w', newline='', encoding='utf-8')]: the exception it
      raises, if any; a file that was opened is written to its end. *)
  abrir_para_escrita : string -> option excecao;
  (** [input(pergunta).strip()]: the answer, or the exception that [input]
      raises. *)
  input_strip : string -> excecao + string;
  (** [str(e)] for the exception that [comparar_json(json1, json2)]
      raised. *)
  texto_da_excecao : exn -> json -> json -> string
}.

(** A system for the closed examples: two files that hold objects, any
    other file missing, an output that can be opened, and nobody at the
    keyboard. *)
Definition sistema_de_exemplo : Sistema := {|
  carregar := fun nome =>
    if String.eqb nome "a.json" then
      inr (JDict [("id", JInt 7); ("tags", JList [JStr "x"; JStr "y"])])
    else if String.eqb nome "b.json" then
      inr (JDict [("tags", JList [JStr "y"; JStr "x"]); ("id", JInt 7);
                  ("novo", JBool true)])
    else
      inl (FileNotFoundError
             ("[Errno 2] No such file or directory: '" +++ nome +++ "'"));
  abrir_para_escrita := fun _ => None;
  input_strip := fun _ => inl (OutraExcecao "EOF when reading a line");
  texto_da_excecao := fun _ _ _ => "erro"
|}.

(** [s.endswith(sufixo)] *)
Fixpoint termina_com (s sufixo : string) : bool :=
  String.eqb s sufixo ||
  match s with
  | EmptyString => false
  | String _ s' => termina_com s' sufixo
  end.

(** The dictionary of counts of [main]: [d.get(k, padrao)] and [d[k] = v],
    which keeps a key where it first came in. *)
Fixpoint contagem_get (d : list (string * Z)) (k : string) (padrao : Z) : Z :=
  match d with
  | [] => padrao
  | (k', v) :: d' => if String.eqb k k' then v else contagem_get d' k padrao
  end.

Fixpoint contagem_set (d : list (string * Z)) (k : string) (v : Z)
  : list (string * Z) :=
  match d with
  | [] => [(k, v)]
  | (k', v') :: d' =>
      if String.eqb k k' then (k', v) :: d' else (k', v') :: contagem_set d' k v
  end.

(** The loop that fills [tipos_diferenca]. *)
Definition resumo (diferencas : list diferenca) : list (string * Z) :=
  fold_left (fun tipos_diferenca diff =>
               let tipo := tipo_diferenca diff in
               contagem_set tipos_diferenca tipo
                 (contagem_get tipos_diferenca tipo 0 + 1))
            diferencas [].

Definition linha_identicos : string :=
  String avanco "✓ Nenhuma diferença encontrada! Os JSONs são idênticos.".

Definition linha_resumo : string :=
  String avanco "=== RESUMO DAS DIFERENÇAS ===".

Section Program.
Context {RT : Runtime} {SO : Sistema}.

Definition salvar_diferencas_csv (diferencas : list diferenca)
    (arquivo_saida : string) (w : mundo) : efeito :=
  match diferencas with
  | [] => Retorna (print "Nenhuma diferença encontrada!" w)
  | _ :: _ =>
      match abrir_para_escrita arquivo_saida with
      | Some e => Levanta e w
      | None =>
          let w := escreve arquivo_saida (texto_csv diferencas) w in
          let w := print ("Diferenças salvas em: " +++ arquivo_saida) w in
          Retorna (print ("Total de diferenças encontradas: "
                          +++ str_len (List.length diferencas)) w)
      end
  end.

(** The names that [main] works with: taken from [sys.argv] when it holds
    the two inputs, asked for otherwise; then the output name with its
    extension. *)
Definition escolher_arquivos (argv : list string)
  : excecao + (string * string * string) :=
  match argv with
  | _ :: arquivo_json1 :: arquivo_json2 :: resto =>
      inr (arquivo_json1, arquivo_json2,
           match resto with
           | arquivo_saida :: _ => arquivo_saida
           | [] => "diferencas.csv"
           end)
  | _ =>
      match input_strip "Digite o caminho do primeiro arquivo JSON: " with
      | inl e => inl e
      | inr arquivo_json1 =>
          match input_strip "Digite o caminho do segundo arquivo JSON: " with
          | inl e => inl e
          | inr arquivo_json2 =>
              match input_strip
                "Digite o nome do arquivo CSV de saída (padrão: diferencas.csv): "
              with
              | inl e => inl e
              | inr arquivo_saida =>
                  inr (arquivo_json1, arquivo_json2,
                       match arquivo_saida with
                       | EmptyString => "diferencas.csv"
                       | _ => arquivo_saida
                       end)
              end
          end
      end
  end.

Definition com_extensao (arquivo_saida : string) : string :=
  if negb (termina_com arquivo_saida ".csv")
  then arquivo_saida +++ ".csv"
  else arquivo_saida.

(** The three [except] clauses. *)
Definition trata (e : excecao) (w : mundo) : mundo :=
  match e with
  | FileNotFoundError texto =>
      print ("Erro: Arquivo não encontrado - " +++ texto) w
  | JSONDecodeError texto => print ("Erro ao decodificar JSON: " +++ texto) w
  | OutraExcecao texto => print ("Erro inesperado: " +++ texto) w
  end.

Definition exibe_resumo (diferencas : list diferenca) (w : mundo) : mundo :=
  match diferencas with
  | _ :: _ =>
      fold_left (fun w tq =>
                   print (fst tq +++ ": " +++ str_int (snd tq)) w)
                (resumo diferencas) (print linha_resumo w)
  | [] => print linha_identicos w
  end.

Definition main (argv : list string) (w : mundo) : efeito :=
  match escolher_arquivos argv with
  | inl e => Levanta e w
  | inr (arquivo_json1, arquivo_json2, arquivo_saida) =>
      let arquivo_saida := com_extensao arquivo_saida in
      let w := print ("Carregando " +++ arquivo_json1 +++ "...") w in
      match carregar arquivo_json1 with
      | inl e => Retorna (trata e w)
      | inr json1 =>
          let w := print ("Carregando " +++ arquivo_json2 +++ "...") w in
          match carregar arquivo_json2 with
          | inl e => Retorna (trata e w)
          | inr json2 =>
              let w := print "Comparando JSONs..." w in
              match comparar_json json1 json2 with
              | Err e =>
                  Retorna (trata (OutraExcecao (texto_da_excecao e json1 json2)) w)
              | Ok diferencas =>
                  match salvar_diferencas_csv diferencas arquivo_saida w with
                  | Levanta e w => Retorna (trata e w)
                  | Retorna w => Retorna (exibe_resumo diferencas w)
                  end
              end
          end
      end
  end.

End Program.

(** * Properties *)

(** ** The error monad *)

Lemma bind_Ok_inv {A B : Type} (r : result A) (k : A -> result B) (b : B) :
  bind r k = Ok b -> exists a, r = Ok a /\ k a = Ok b.
Proof.
  destruct r as [a | e]; simpl; intros H; [eauto | discriminate].
Qed.

Ltac inv_bind H :=
  let a := fresh "a" in
  let Ha := fresh "Ha" in
  apply bind_Ok_inv in H; destruct H as (a & Ha & H).

Lemma concat_mapM_ext {A B : Type} (f g : A -> result (list B)) (l : list A) :
  (forall x, In x l -> f x = g x) -> concat_mapM f l = concat_mapM g l.
Proof.
  induction l as [| x l IH]; simpl; intros H; [reflexivity |].
  rewrite (H x) by auto. rewrite IH by auto. reflexivity.
Qed.

Lemma concat_mapM_nil {A B : Type} (f : A -> result (list B)) (l : list A) :
  (forall x, In x l -> f x = Ok []) -> concat_mapM f l = Ok [].
Proof.
  induction l as [| x l IH]; simpl; intros H; [reflexivity |].
  rewrite (H x) by auto. simpl. rewrite IH by auto. reflexivity.
Qed.

Lemma concat_mapM_total {A B : Type} (f : A -> result (list B)) (l : list A) :
  (forall x, In x l -> exists r, f x = Ok r) -> exists rs, concat_mapM f l = Ok rs.
Proof.
  induction l as [| x l IH]; simpl; intros H; [eauto |].
  destruct (H x) as [r Hr]; [auto |]. rewrite Hr. simpl.
  destruct IH as [rs Hrs]; [auto |]. rewrite Hrs. simpl. eauto.
Qed.

Lemma concat_mapM_Forall {A B : Type} (P : B -> Prop)
    (f : A -> result (list B)) (l : list A) (rs : list B) :
  (forall x r, In x l -> f x = Ok r -> Forall P r) ->
  concat_mapM f l = Ok rs -> Forall P rs.
Proof.
  revert rs. induction l as [| x l IH]; simpl; intros rs H E.
  - injection E as <-. constructor.
  - inv_bind E. inv_bind E. injection E as <-.
    apply Forall_app. split; [eapply H; eauto | apply IH; auto].
    intros y r Hy. apply H. auto.
Qed.

(** ** Insertion sort *)

Section SortingFacts.
Context {A : Type}.

Lemma insert_perm (ltb : A -> A -> bool) (x : A) (l : list A) :
  Permutation (insert ltb x l) (x :: l).
Proof.
  induction l as [| y l IH]; simpl; [reflexivity |].
  destruct (ltb y x); [| reflexivity].
  rewrite IH. apply perm_swap.
Qed.

Lemma isort_perm (ltb : A -> A -> bool) (l : list A) :
  Permutation (isort ltb l) l.
Proof.
  induction l as [| x l IH]; simpl; [reflexivity |].
  rewrite insert_perm. auto.
Qed.

Section FallibleFacts.
Variable lt : A -> A -> result bool.

Lemma insertM_insert (x : A) (l r : list A) :
  insertM lt x l = Ok r -> r = insert (lt_true lt) x l.
Proof.
  revert r. induction l as [| y l IH]; simpl; intros r H.
  - congruence.
  - unfold lt_true at 1. destruct (lt y x) as [[|] | e]; simpl in H.
    + inv_bind H. injection H as <-. f_equal. auto.
    + congruence.
    + discriminate.
Qed.

Lemma sortedM_isort (l s : list A) :
  sortedM lt l = Ok s -> s = isort (lt_true lt) l.
Proof.
  revert s. induction l as [| x l IH]; simpl; intros s H.
  - congruence.
  - inv_bind H. apply insertM_insert in H. rewrite <- (IH a) by assumption.
    assumption.
Qed.

Lemma sortedM_perm (l s : list A) :
  sortedM lt l = Ok s -> Permutation s l.
Proof.
  intros H. apply sortedM_isort in H. subst s. apply isort_perm.
Qed.

Hypothesis lt_asym : forall a b, lt a b = Ok true -> lt b a = Ok false.

Lemma insertM_HdRel (z x : A) (l r : list A) :
  HdRel (em_ordem lt) z l -> em_ordem lt z x -> insertM lt x l = Ok r ->
  HdRel (em_ordem lt) z r.
Proof.
  destruct l as [| y l]; simpl; intros Hz Hx H.
  - injection H as <-. constructor. assumption.
  - destruct (lt y x) as [[|] | e]; simpl in H.
    + inv_bind H. injection H as <-. constructor.
      inversion Hz; assumption.
    + injection H as <-. constructor. assumption.
    + discriminate.
Qed.

Lemma insertM_ordenada (x : A) (l r : list A) :
  Sorted (em_ordem lt) l -> insertM lt x l = Ok r -> Sorted (em_ordem lt) r.
Proof.
  revert r. induction l as [| y l IH]; simpl; intros r Hs H.
  - injection H as <-. repeat constructor.
  - destruct (lt y x) as [[|] | e] eqn:E; simpl in H.
    + inv_bind H. injection H as <-.
      inversion Hs as [| ? ? Hs' Hhd]; subst.
      constructor; [eapply IH; eauto |].
      eapply insertM_HdRel; eauto. apply lt_asym. assumption.
    + injection H as <-. constructor; [assumption |].
      constructor. exact E.
    + discriminate.
Qed.

Lemma sortedM_ordenada (l s : list A) :
  sortedM lt l = Ok s -> Sorted (em_ordem lt) s.
Proof.
  revert s. induction l as [| x l IH]; simpl; intros s H.
  - injection H as <-. constructor.
  - inv_bind H. eapply insertM_ordenada; [| exact H]. auto.
Qed.

(** Sorting a list that is already in order leaves it as it is. *)
Lemma sortedM_fixo (s : list A) :
  Sorted (em_ordem lt) s -> sortedM lt s = Ok s.
Proof.
  induction 1 as [| x s Hs IH Hhd]; simpl; [reflexivity |].
  rewrite IH. simpl. destruct Hhd as [| y s' Hxy]; simpl; [reflexivity |].
  unfold em_ordem in Hxy. rewrite Hxy. reflexivity.
Qed.

Lemma sortedM_idem (l s : list A) :
  sortedM lt l = Ok s -> sortedM lt s = Ok s.
Proof.
  intros H. apply sortedM_fixo. eapply sortedM_ordenada; eauto.
Qed.
End FallibleFacts.

(** The sort raises nothing but what its comparison raises. *)
Lemma sortedM_Err (lt : A -> A -> result bool) (e0 : exn) (l : list A) (e : exn) :
  (forall a b e', lt a b = Err e' -> e' = e0) ->
  sortedM lt l = Err e -> e = e0.
Proof.
  intros Hlt.
  assert (Hins : forall x s, insertM lt x s = Err e -> e = e0).
  { intros x s. induction s as [| y s IH]; simpl; [discriminate |].
    destruct (lt y x) as [[|] | e'] eqn:E; simpl.
    - destruct (insertM lt x s); simpl; [discriminate |].
      intros H. injection H as ->. auto.
    - discriminate.
    - intros H. injection H as <-. eapply Hlt; eauto. }
  induction l as [| x l IH]; simpl; [discriminate |].
  destruct (sortedM lt l) as [s | e'] eqn:E; simpl.
  - apply Hins.
  - intros H. injection H as ->. auto.
Qed.

(** A comparison that never raises makes the fallible sort the pure one. *)
Lemma sortedM_total (ltb : A -> A -> bool) (l : list A) :
  sortedM (fun a b => Ok (ltb a b)) l = Ok (isort ltb l).
Proof.
  assert (Hins : forall x s,
    insertM (fun a b => Ok (ltb a b)) x s = Ok (insert ltb x s)).
  { intros x s. induction s as [| y s IH]; simpl; [reflexivity |].
    destruct (ltb y x); [rewrite IH |]; reflexivity. }
  induction l as [| x l IH]; simpl; [reflexivity |].
  rewrite IH. simpl. apply Hins.
Qed.

Lemma isort_idem (ltb : A -> A -> bool) (l : list A) :
  (forall a b, ltb a b = true -> ltb b a = false) ->
  isort ltb (isort ltb l) = isort ltb l.
Proof.
  intros Hasym.
  assert (H : sortedM (fun a b => Ok (ltb a b)) (isort ltb l) = Ok (isort ltb l)).
  { eapply sortedM_idem; [| apply sortedM_total].
    intros a b E. injection E as E. rewrite (Hasym _ _ E). reflexivity. }
  rewrite sortedM_total in H. congruence.
Qed.
End SortingFacts.

(** ** The order of the sort keys *)

Lemma SFcompare_antisym (f g : float) :
  SFcompare g f = option_map CompOpp (SFcompare f g).
Proof.
  destruct f as [s1 | s1 | | s1 m1 e1], g as [s2 | s2 | | s2 m2 e2];
    simpl; try reflexivity;
    try (destruct s1; reflexivity); try (destruct s2; reflexivity);
    try (destruct s1, s2; reflexivity).
  assert (Hm : Pos.compare_cont Eq m2 m1 = CompOpp (Pos.compare_cont Eq m1 m2))
    by (rewrite Pos.compare_cont_antisym; reflexivity).
  rewrite (Z.compare_antisym e1 e2), Hm.
  destruct s1, s2; simpl; try reflexivity;
    destruct (e1 ?= e2); simpl; try reflexivity;
    destruct (Pos.compare_cont Eq m1 m2); reflexivity.
Qed.

Lemma num_compare_antisym (x y : numero) :
  num_compare y x = option_map CompOpp (num_compare x y).
Proof.
  destruct x as [a | f], y as [b | g]; simpl.
  - rewrite (Z.compare_antisym a b). reflexivity.
  - reflexivity.
  - destruct (Z_SF_compare b f) as [[| |] |]; reflexivity.
  - apply SFcompare_antisym.
Qed.

Lemma num_ltb_asym (x y : numero) : num_ltb x y = true -> num_ltb y x = false.
Proof.
  unfold num_ltb. rewrite (num_compare_antisym x y).
  destruct (num_compare x y) as [[| |] |]; simpl; congruence.
Qed.

Lemma string_ltb_asym (s t : string) :
  String.ltb s t = true -> String.ltb t s = false.
Proof.
  unfold String.ltb. rewrite (String.compare_antisym t s).
  destruct (String.compare s t); simpl; congruence.
Qed.

Lemma chave_lt_asym (a b : chave_ord) :
  chave_lt a b = Ok true -> chave_lt b a = Ok false.
Proof.
  destruct a as [| x | s], b as [| y | t]; simpl; try discriminate.
  - intros H. injection H as H. rewrite (num_ltb_asym _ _ H). reflexivity.
  - intros H. injection H as H. rewrite (string_ltb_asym _ _ H). reflexivity.
Qed.

Lemma ordenar_chaves_perm {V : Type} (d : list (string * V)) :
  Permutation (ordenar_chaves d) d.
Proof. apply isort_perm. Qed.

Lemma ordenar_chaves_idem {V : Type} (d : list (string * V)) :
  ordenar_chaves (ordenar_chaves d) = ordenar_chaves d.
Proof.
  apply isort_idem. intros a b. apply string_ltb_asym.
Qed.

(** ** The canonicalizer *)

Section CanonFacts.
Context {RT : Runtime}.

Lemma ordenar_lista_eq (l : list json) :
  ordenar_lista (JList l) = JList (tenta_ordenar (map ordenar l)).
Proof.
  simpl. do 2 f_equal. apply map_ext. intros [| | | | | |]; reflexivity.
Qed.

Lemma ordenar_dic_eq (d : list (string * json)) :
  ordenar_dic (JDict d) = JDict (ordenar_chaves (map ordenar_campo d)).
Proof.
  simpl. do 2 f_equal. apply map_ext.
  intros [k [| | | | | |]]; reflexivity.
Qed.

Lemma sorted_perm (l s : list json) : sorted l = Ok s -> Permutation s l.
Proof.
  unfold sorted. intros H. inv_bind H. injection H as <-.
  apply sortedM_perm in Ha.
  rewrite Ha, map_map. simpl. rewrite map_id. reflexivity.
Qed.

(** [TypeError] is all that [sorted] can raise, so the [except] clause of
    [ordenar_lista] catches every exception of its [try]. *)
Lemma sorted_so_TypeError (l : list json) (e : exn) :
  sorted l = Err e -> e = TypeError.
Proof.
  unfold sorted.
  destruct (sortedM _ _) as [r | e'] eqn:E; simpl; [discriminate |].
  intros H. injection H as <-.
  apply (sortedM_Err _ TypeError _ _) in E; [exact E |].
  intros [[| x | s] a] [[| y | t] b] e''; simpl; congruence.
Qed.

Lemma tenta_ordenar_perm (l : list json) : Permutation (tenta_ordenar l) l.
Proof.
  unfold tenta_ordenar. destruct (sorted l) eqn:E; [| reflexivity].
  apply sorted_perm. assumption.
Qed.

Lemma sorted_idem (l s : list json) : sorted l = Ok s -> sorted s = Ok s.
Proof.
  unfold sorted. intros H. inv_bind H. injection H as <-.
  assert (Hdec : map (fun x => (chave_de_ordem x, x)) (map snd a) = a).
  { apply sortedM_perm in Ha.
    assert (Hall : Forall (fun p => fst p = chave_de_ordem (snd p)) a).
    { eapply Permutation_Forall; [symmetry; exact Ha |].
      apply Forall_forall. intros p Hp. apply in_map_iff in Hp.
      destruct Hp as (x & <- & _). reflexivity. }
    clear Ha. induction Hall as [| [k x] a Hk _ IH]; simpl; [reflexivity |].
    simpl in Hk. subst k. f_equal. assumption. }
  rewrite Hdec.
  rewrite (sortedM_idem _ (fun a b => chave_lt_asym (fst a) (fst b)) _ _ Ha).
  reflexivity.
Qed.

Lemma tenta_ordenar_idem (l : list json) :
  tenta_ordenar (tenta_ordenar l) = tenta_ordenar l.
Proof.
  unfold tenta_ordenar. destruct (sorted l) as [s | e] eqn:E.
  - rewrite (sorted_idem _ _ E). reflexivity.
  - rewrite E. reflexivity.
Qed.

Lemma ordenar_idem (v : json) : ordenar (ordenar v) = ordenar v.
Proof.
  induction v as [| b | z | f | s | l IH | d IH] using json_ind';
    try reflexivity.
  - change (ordenar (JList l)) with (ordenar_lista (JList l)).
    rewrite ordenar_lista_eq.
    change (ordenar (JList ?x)) with (ordenar_lista (JList x)).
    rewrite ordenar_lista_eq. f_equal.
    assert (Hfix : map ordenar (tenta_ordenar (map ordenar l))
                   = tenta_ordenar (map ordenar l)).
    { rewrite <- (map_id (tenta_ordenar (map ordenar l))) at 2.
      apply map_ext_in. intros x Hx.
      apply (Permutation_in _ (tenta_ordenar_perm _)) in Hx.
      apply in_map_iff in Hx. destruct Hx as (y & <- & Hy).
      rewrite Forall_forall in IH. auto. }
    rewrite Hfix. apply tenta_ordenar_idem.
  - change (ordenar (JDict d)) with (ordenar_dic (JDict d)).
    rewrite ordenar_dic_eq.
    change (ordenar (JDict ?x)) with (ordenar_dic (JDict x)).
    rewrite ordenar_dic_eq. f_equal.
    assert (Hfix : map ordenar_campo (ordenar_chaves (map ordenar_campo d))
                   = ordenar_chaves (map ordenar_campo d)).
    { rewrite <- (map_id (ordenar_chaves (map ordenar_campo d))) at 2.
      apply map_ext_in. intros kv Hkv.
      apply (Permutation_in _ (ordenar_chaves_perm _)) in Hkv.
      apply in_map_iff in Hkv. destruct Hkv as ([k y] & <- & Hy).
      rewrite Forall_forall in IH. unfold ordenar_campo. simpl.
      f_equal. apply (IH _ Hy). }
    rewrite Hfix. apply ordenar_chaves_idem.
Qed.

End CanonFacts.

Arguments ordenar_lista : simpl never.
Arguments ordenar_dic : simpl never.

(** ** Nesting depth and the unrolling of [comparar_valores] *)

Section DifferUnfold.
Context {RT : Runtime}.

Lemma altura_item (x : json) (l : list json) :
  In x l -> (altura x < altura (JList l))%nat.
Proof.
  simpl. induction l as [| y l IH]; simpl; intros H; [contradiction |].
  destruct H as [-> | H]; [lia | specialize (IH H); lia].
Qed.

Lemma altura_campo (kv : string * json) (d : list (string * json)) :
  In kv d -> (altura (snd kv) < altura (JDict d))%nat.
Proof.
  simpl. induction d as [| y d IH]; simpl; intros H; [contradiction |].
  destruct H as [-> | H]; [lia | specialize (IH H); lia].
Qed.

Lemma altura_lista_le (l : list json) (n : nat) :
  (forall x, In x l -> (altura x <= n)%nat) -> (altura (JList l) <= S n)%nat.
Proof.
  simpl. induction l as [| y l IH]; simpl; intros H; [lia |].
  assert (altura y <= n)%nat by auto.
  assert (fold_right (fun x m => Nat.max (altura x) m) O l <= n)%nat.
  { apply le_S_n. apply IH. auto. }
  lia.
Qed.

Lemma altura_dict_le (d : list (string * json)) (n : nat) :
  (forall kv, In kv d -> (altura (snd kv) <= n)%nat) ->
  (altura (JDict d) <= S n)%nat.
Proof.
  simpl. induction d as [| y d IH]; simpl; intros H; [lia |].
  assert (altura (snd y) <= n)%nat by auto.
  assert (fold_right (fun kv m => Nat.max (altura (snd kv)) m) O d <= n)%nat.
  { apply le_S_n. apply IH. auto. }
  lia.
Qed.

(** Canonicalisation reorders, so it does not deepen a value. *)
Lemma altura_ordenar (v : json) : (altura (ordenar v) <= altura v)%nat.
Proof.
  induction v as [| b | z | f | s | l IH | d IH] using json_ind';
    try (simpl; lia).
  - change (ordenar (JList l)) with (ordenar_lista (JList l)).
    rewrite ordenar_lista_eq.
    destruct l as [| x0 l0] eqn:El; [simpl; lia |]. rewrite <- El in *.
    assert (Hpos : (1 <= altura (JList l))%nat) by (simpl; lia).
    replace (altura (JList l)) with (S (altura (JList l) - 1)) by lia.
    apply altura_lista_le. intros x Hx.
    apply (Permutation_in _ (tenta_ordenar_perm _)) in Hx.
    apply in_map_iff in Hx. destruct Hx as (y & <- & Hy).
    rewrite Forall_forall in IH. specialize (IH y Hy).
    pose proof (altura_item y l Hy). lia.
  - change (ordenar (JDict d)) with (ordenar_dic (JDict d)).
    rewrite ordenar_dic_eq.
    destruct d as [| x0 d0] eqn:Ed; [simpl; lia |]. rewrite <- Ed in *.
    assert (Hpos : (1 <= altura (JDict d))%nat) by (simpl; lia).
    replace (altura (JDict d)) with (S (altura (JDict d) - 1)) by lia.
    apply altura_dict_le. intros kv Hkv.
    apply (Permutation_in _ (ordenar_chaves_perm _)) in Hkv.
    apply in_map_iff in Hkv. destruct Hkv as (y & <- & Hy).
    rewrite Forall_forall in IH. specialize (IH y Hy).
    pose proof (altura_campo y d Hy).
    change (snd (ordenar_campo y)) with (ordenar (snd y)). lia.
Qed.

Lemma In_ordenar_lista (x : json) (l : list json) :
  In x (itens_de (ordenar_lista (JList l))) ->
  exists y, In y l /\ x = ordenar y.
Proof.
  rewrite ordenar_lista_eq. simpl. intros Hx.
  apply (Permutation_in _ (tenta_ordenar_perm _)) in Hx.
  apply in_map_iff in Hx. destruct Hx as (y & <- & Hy). eauto.
Qed.

Lemma altura_item_ordenado (x : json) (l : list json) :
  In x (itens_de (ordenar_lista (JList l))) ->
  (altura x < altura (JList l))%nat.
Proof.
  intros Hx. apply In_ordenar_lista in Hx. destruct Hx as (y & Hy & ->).
  pose proof (altura_ordenar y). pose proof (altura_item y l Hy). lia.
Qed.

Lemma dict_get_In (d : list (string * json)) (k : string) (v : json) :
  dict_get d k = Ok v -> In (k, v) d.
Proof.
  induction d as [| [k' v'] d IH]; simpl; [discriminate |].
  destruct (String.eqb k k') eqn:E.
  - apply String.eqb_eq in E. subst k'. intros H. injection H as <-. auto.
  - auto.
Qed.

Lemma comparar_corpo_ext
    (rec rec' : json -> json -> string -> result (list diferenca))
    (v1 v2 : json) (p : string) :
  (forall a b q, (altura a < altura v1)%nat -> rec a b q = rec' a b q) ->
  comparar_corpo rec v1 v2 p = comparar_corpo rec' v1 v2 p.
Proof.
  intros H. unfold comparar_corpo.
  destruct (negb (obter_tipo v1 =? obter_tipo v2)%string); [reflexivity |].
  destruct v1 as [| b | z | f | s | l | d]; try reflexivity.
  - erewrite concat_mapM_ext; [reflexivity |].
    intros i _. cbv beta zeta.
    destruct (Nat.ltb i _) eqn:E1; [| reflexivity].
    destruct (Nat.ltb i (List.length (itens_de (ordenar_lista v2)))); simpl;
      [| reflexivity].
    apply H. apply altura_item_ordenado. apply nth_In.
    apply Nat.ltb_lt. exact E1.
  - f_equal.
    assert (E : forall ks,
      concat_mapM (fun chave =>
        v1 <- dict_get d chave ;;
        v0 <- dict_get (campos_de v2) chave ;;
        rec v1 v0 (caminho_campo p chave)) ks
      = concat_mapM (fun chave =>
        v1 <- dict_get d chave ;;
        v0 <- dict_get (campos_de v2) chave ;;
        rec' v1 v0 (caminho_campo p chave)) ks).
    { intros ks. apply concat_mapM_ext. intros k _.
      destruct (dict_get d k) as [a |] eqn:Ea; simpl; [| reflexivity].
      destruct (dict_get (campos_de v2) k) as [b |]; simpl; [| reflexivity].
      apply H. apply (altura_campo (k, a)). apply dict_get_In. exact Ea. }
    cbv zeta. rewrite E. reflexivity.
Qed.

Lemma comparar_valores_rec_fuel (n m : nat) (v1 v2 : json) (p : string) :
  (altura v1 < n)%nat -> (altura v1 < m)%nat ->
  comparar_valores_rec n v1 v2 p = comparar_valores_rec m v1 v2 p.
Proof.
  revert m v1 v2 p. induction n as [| n IH]; intros m v1 v2 p Hn Hm; [lia |].
  destruct m as [| m]; [lia |]. simpl.
  apply comparar_corpo_ext. intros a b q Ha. apply IH; lia.
Qed.

(** The equation that the Python function satisfies by definition. *)
Lemma comparar_valores_eq (v1 v2 : json) (p : string) :
  comparar_valores v1 v2 p = comparar_corpo comparar_valores v1 v2 p.
Proof.
  unfold comparar_valores at 1. simpl.
  apply comparar_corpo_ext. intros a b q Ha.
  unfold comparar_valores. apply comparar_valores_rec_fuel; lia.
Qed.

End DifferUnfold.

(** ** Sets of keys *)

Section SetFacts.
Context {RT : Runtime}.

Lemma set_diferenca_In (k : string) (a b : list string) :
  In k (set_diferenca a b) <-> In k a /\ pertence k b = false.
Proof.
  rewrite <- negb_true_iff, <- (filter_In (fun k => negb (pertence k b))).
  split; apply Permutation_in; [| symmetry]; apply set_diferenca_perm.
Qed.

Lemma set_intersecao_In (k : string) (a b : list string) :
  In k (set_intersecao a b) <-> In k a /\ pertence k b = true.
Proof.
  rewrite <- (filter_In (fun k => pertence k b)).
  split; apply Permutation_in; [| symmetry]; apply set_intersecao_perm.
Qed.

Lemma set_diferenca_nil (a b : list string) :
  filter (fun k => negb (pertence k b)) a = [] -> set_diferenca a b = [].
Proof.
  intros E. apply Permutation_nil. symmetry.
  rewrite <- E. apply set_diferenca_perm.
Qed.

Lemma set_diferenca_um (a b : list string) (k : string) :
  filter (fun k => negb (pertence k b)) a = [k] -> set_diferenca a b = [k].
Proof.
  intros E. apply Permutation_length_1_inv. symmetry.
  rewrite <- E. apply set_diferenca_perm.
Qed.

Lemma set_intersecao_nil (a b : list string) :
  filter (fun k => pertence k b) a = [] -> set_intersecao a b = [].
Proof.
  intros E. apply Permutation_nil. symmetry.
  rewrite <- E. apply set_intersecao_perm.
Qed.

Lemma set_intersecao_um (a b : list string) (k : string) :
  filter (fun k => pertence k b) a = [k] -> set_intersecao a b = [k].
Proof.
  intros E. apply Permutation_length_1_inv. symmetry.
  rewrite <- E. apply set_intersecao_perm.
Qed.

Lemma pertence_In (k : string) (ks : list string) :
  pertence k ks = true <-> In k ks.
Proof.
  unfold pertence. rewrite existsb_exists. split.
  - intros (x & Hx & E). apply String.eqb_eq in E. subst. assumption.
  - intros H. exists k. split; [assumption | apply String.eqb_refl].
Qed.

Lemma dict_get_chaves (d : list (string * json)) (k : string) :
  In k (chaves d) -> exists v, dict_get d k = Ok v.
Proof.
  induction d as [| [k' v'] d IH]; simpl; [contradiction |].
  intros H. destruct (String.eqb k k') eqn:E; [eauto |].
  destruct H as [H | H]; [| auto].
  subst k'. rewrite String.eqb_refl in E. discriminate.
Qed.

End SetFacts.

(** ** Kinds *)

Section Kinds.
Context {RT : Runtime}.

Lemma obter_tipo_neq (v1 v2 : json) :
  obter_tipo v1 <> obter_tipo v2 ->
  negb (obter_tipo v1 =? obter_tipo v2)%string = true.
Proof.
  intros H. destruct (String.eqb_spec (obter_tipo v1) (obter_tipo v2));
    [contradiction | reflexivity].
Qed.

(** What a call returns when the two kinds differ. *)
Lemma comparar_valores_tipos (v1 v2 : json) (p : string) :
  obter_tipo v1 <> obter_tipo v2 ->
  comparar_valores v1 v2 p =
  Ok [ {| caminho := p;
          tipo_diferenca := "TIPO_DIFERENTE";
          valor_json1 := py_str v1;
          tipo_json1 := obter_tipo v1;
          valor_json2 := match v2 with
                         | JNull => "CAMPO_NAO_EXISTE"
                         | _ => py_str v2
                         end;
          tipo_json2 := obter_tipo v2;
          detalhes := "Tipos diferentes: " +++ obter_tipo v1
                        +++ " vs " +++ obter_tipo v2 |} ].
Proof.
  intros H. rewrite comparar_valores_eq. unfold comparar_corpo.
  rewrite (obter_tipo_neq _ _ H). reflexivity.
Qed.

(** C6.  When the kinds of the two sides differ, [comparar_valores] returns
    exactly one record, of kind TIPO_DIFERENTE, at the current path, and
    nothing from below that path.  Comparing the objects [{a: 1}] and
    [{a: '1'}] gives that single record at path [a], and [True] against [1]
    is such a mismatch as well, since [bool] and [int] are different kinds. *)
Theorem tipo_diferente_um_registro :
  (forall v1 v2 p,
     obter_tipo v1 <> obter_tipo v2 ->
     exists r,
       comparar_valores v1 v2 p = Ok [r] /\
       caminho r = p /\
       tipo_diferenca r = "TIPO_DIFERENTE" /\
       tipo_json1 r = obter_tipo v1 /\
       tipo_json2 r = obter_tipo v2) /\
  comparar_json (JDict [("a", JInt 1)]) (JDict [("a", JStr "1")]) =
    Ok [ {| caminho := "a";
            tipo_diferenca := "TIPO_DIFERENTE";
            valor_json1 := "1";
            tipo_json1 := "int";
            valor_json2 := "1";
            tipo_json2 := "str";
            detalhes := "Tipos diferentes: int vs str" |} ] /\
  (forall p,
     exists r,
       comparar_valores (JBool true) (JInt 1) p = Ok [r] /\
       caminho r = p /\
       tipo_diferenca r = "TIPO_DIFERENTE" /\
       tipo_json1 r = "bool" /\
       tipo_json2 r = "int").
Proof.
  split; [| split].
  - intros v1 v2 p H. eexists. split.
    + apply comparar_valores_tipos. exact H.
    + repeat split.
  - unfold comparar_json. simpl bind. rewrite comparar_valores_eq.
    unfold comparar_corpo. simpl.
    rewrite set_diferenca_nil, (set_intersecao_um _ _ "a") by reflexivity.
    reflexivity.
  - intros p. eexists. split.
    + apply comparar_valores_tipos. simpl. discriminate.
    + repeat split.
Qed.

(** C4, as the code has it.  In a TIPO_DIFERENTE record the right display is
    the missing-field sentinel when the right value is [None], the JSON
    null, and for any other right value it is the text of that value; so
    the display reads as the sentinel exactly when the right value is
    [None] or a value whose text is the sentinel's own, as the string
    "CAMPO_NAO_EXISTE" is.  The left display is always the text of the left
    value. *)
Theorem tipo_diferente_valor_json2 (v1 v2 : json) (p : string) :
  obter_tipo v1 <> obter_tipo v2 ->
  exists r,
    comparar_valores v1 v2 p = Ok [r] /\
    tipo_diferenca r = "TIPO_DIFERENTE" /\
    valor_json1 r = py_str v1 /\
    (v2 = JNull -> valor_json2 r = "CAMPO_NAO_EXISTE") /\
    (v2 <> JNull -> valor_json2 r = py_str v2) /\
    (valor_json2 r = "CAMPO_NAO_EXISTE" <->
     v2 = JNull \/ py_str v2 = "CAMPO_NAO_EXISTE").
Proof.
  intros H. eexists. split; [apply comparar_valores_tipos; exact H |].
  cbn [tipo_diferenca valor_json1 valor_json2].
  split; [reflexivity | split; [reflexivity | split; [| split]]].
  - intros ->. reflexivity.
  - intros Hn. destruct v2; try reflexivity. contradiction.
  - destruct v2; split; auto; intros [Hc | Hc]; try discriminate Hc;
      try exact Hc; reflexivity.
Qed.

End Kinds.

(** ** Canonicalisation: permutation and idempotence *)

Section CanonTheorems.
Context {RT : Runtime}.

(** C10.  [ordenar_lista] only reorders: its result on a list has the
    length of the list and holds exactly the canonical forms of the
    elements, each as often as it occurs, whether [sorted] succeeded or
    raised [TypeError]. *)
Theorem ordenar_lista_permuta (l : list json) :
  exists l',
    ordenar_lista (JList l) = JList l' /\
    List.length l' = List.length l /\
    Permutation (map ordenar l) l'.
Proof.
  exists (tenta_ordenar (map ordenar l)). split; [apply ordenar_lista_eq |].
  pose proof (tenta_ordenar_perm (map ordenar l)) as Hp. split.
  - rewrite (Permutation_length Hp). apply length_map.
  - symmetry. exact Hp.
Qed.

(** C8.  Canonicalising twice is canonicalising once, for [ordenar_lista]
    on any value, for [ordenar_dicionario] wherever it returns, and for the
    three-way test that both apply to nested values. *)
Theorem ordenar_idempotente :
  (forall v, ordenar_lista (ordenar_lista v) = ordenar_lista v) /\
  (forall v, bind (ordenar_dicionario v) ordenar_dicionario = ordenar_dicionario v) /\
  (forall v, ordenar (ordenar v) = ordenar v).
Proof.
  split; [| split].
  - intros v. destruct v as [| b | z | f | s | l | d]; try reflexivity.
    pose proof (ordenar_idem (JList l)) as H.
    change (ordenar (JList l)) with (ordenar_lista (JList l)) in H.
    rewrite ordenar_lista_eq in *. exact H.
  - intros v. destruct v as [| b | z | f | s | l | d]; try reflexivity.
    pose proof (ordenar_idem (JDict d)) as H.
    change (ordenar (JDict d)) with (ordenar_dic (JDict d)) in H.
    change (ordenar_dicionario (JDict d)) with (Ok (ordenar_dic (JDict d))).
    unfold bind. rewrite ordenar_dic_eq in *.
    unfold ordenar_dicionario. f_equal. exact H.
  - apply ordenar_idem.
Qed.

End CanonTheorems.

(** ** Keys found on one side only *)

Lemma mesmos_registros_refl {B : Type} (r : result (list B)) :
  mesmos_registros r r.
Proof. destruct r; simpl; auto. Qed.

Lemma mesmos_registros_trans {B : Type} (r r' r'' : result (list B)) :
  mesmos_registros r r' -> mesmos_registros r' r'' -> mesmos_registros r r''.
Proof.
  destruct r, r', r''; simpl; try tauto. apply Permutation_trans.
Qed.

Lemma mesmos_registros_bind {B : Type} (a a' b b' : result (list B)) :
  mesmos_registros a a' -> mesmos_registros b b' ->
  mesmos_registros (x <- a ;; y <- b ;; Ok (x ++ y))
                   (x <- a' ;; y <- b' ;; Ok (x ++ y)).
Proof.
  destruct a, a', b, b'; simpl; try tauto. apply Permutation_app.
Qed.

Lemma concat_mapM_perm_f {A B : Type} (f : A -> result (list B)) (l l' : list A) :
  Permutation l l' -> mesmos_registros (concat_mapM f l) (concat_mapM f l').
Proof.
  induction 1 as [| x l l' _ IH | x y l | l l' l'' _ IH1 _ IH2].
  - simpl. constructor.
  - simpl. destruct (f x); simpl; [| exact I].
    destruct (concat_mapM f l), (concat_mapM f l'); simpl in *; try tauto.
    apply Permutation_app_head, IH.
  - simpl. destruct (f x), (f y), (concat_mapM f l); simpl; try exact I.
    rewrite !app_assoc. apply Permutation_app_tail, Permutation_app_comm.
  - eapply mesmos_registros_trans; eauto.
Qed.

Lemma concat_mapM_perm {A B : Type} (f g : A -> result (list B)) (l l' : list A) :
  Permutation l l' -> (forall x, In x l -> f x = g x) ->
  mesmos_registros (concat_mapM f l) (concat_mapM g l').
Proof.
  intros Hp Hfg. rewrite (concat_mapM_ext f g l Hfg).
  apply concat_mapM_perm_f, Hp.
Qed.

Section RightOnly.
Context {RT : Runtime}.

Ltac registro_ok :=
  repeat constructor; unfold nao_ausente_json1; simpl; discriminate.

Lemma comparar_valores_rec_tipos (n : nat) (v1 v2 : json) (p : string)
    (rs : list diferenca) :
  comparar_valores_rec n v1 v2 p = Ok rs -> Forall nao_ausente_json1 rs.
Proof.
  revert v1 v2 p rs. induction n as [| n IH]; intros v1 v2 p rs H;
    [discriminate |].
  simpl in H. unfold comparar_corpo in H.
  destruct (negb (obter_tipo v1 =? obter_tipo v2)%string).
  { injection H as <-. registro_ok. }
  destruct v1 as [| b | z | f | s | l | d].
  1-5: inv_bind H; inv_bind H;
       destruct (negb (py_eqb _ _)); injection H as <-;
       [registro_ok | constructor].
  - inv_bind H. injection H as <-. apply Forall_app. split.
    + destruct (negb (Nat.eqb _ _)); [registro_ok | constructor].
    + eapply concat_mapM_Forall; [| exact Ha].
      intros i r _ Hr. cbv beta zeta in Hr.
      destruct (Nat.ltb i _ && Nat.ltb i _); [eapply IH; exact Hr |].
      destruct (Nat.ltb i _); injection Hr as <-; registro_ok.
  - cbv zeta in H. inv_bind H. inv_bind H. injection H as <-.
    apply Forall_app. split.
    + eapply concat_mapM_Forall; [| exact Ha].
      intros k r _ Hr. inv_bind Hr. injection Hr as <-. registro_ok.
    + eapply concat_mapM_Forall; [| exact Ha0].
      intros k r _ Hr. inv_bind Hr. inv_bind Hr. eapply IH; exact Hr.
Qed.

Lemma pertence_meio (k' k : string) (da db : list string) :
  k' <> k -> pertence k' (da ++ k :: db) = pertence k' (da ++ db).
Proof.
  intros Hk. unfold pertence. rewrite !existsb_app. simpl.
  destruct (String.eqb_spec k' k); [contradiction | reflexivity].
Qed.

Lemma dict_get_meio (k' k : string) (v : json) (da db : list (string * json)) :
  k' <> k -> dict_get (da ++ (k, v) :: db) k' = dict_get (da ++ db) k'.
Proof.
  intros Hk. induction da as [| [k0 v0] da IH]; simpl.
  - destruct (String.eqb_spec k' k); [contradiction | reflexivity].
  - rewrite IH. reflexivity.
Qed.

(** C9.  No record of kind CAMPO_AUSENTE_JSON1 is ever produced; a key that
    only the right object has adds no record and removes none, wherever it
    stands among the right keys (the records are the same, in an order that
    the iteration of the key sets fixes); and comparing [{a: 1}] with
    [{a: 1, b: 2}] returns no record. *)
Theorem chave_so_no_json2 :
  (forall v1 v2 p rs,
     comparar_valores v1 v2 p = Ok rs ->
     Forall (fun r => tipo_diferenca r <> "CAMPO_AUSENTE_JSON1") rs) /\
  (forall d1 da db k v p,
     ~ In k (chaves d1) ->
     mesmos_registros
       (comparar_valores (JDict d1) (JDict (da ++ (k, v) :: db)) p)
       (comparar_valores (JDict d1) (JDict (da ++ db)) p)) /\
  comparar_json (JDict [("a", JInt 1)])
                (JDict [("a", JInt 1); ("b", JInt 2)]) = Ok [].
Proof.
  split; [| split].
  - intros v1 v2 p rs H. unfold comparar_valores in H.
    apply comparar_valores_rec_tipos in H. exact H.
  - intros d1 da db k v p Hk.
    rewrite !comparar_valores_eq. unfold comparar_corpo. simpl.
    assert (Hf : forall g : bool -> bool,
      filter (fun k' => g (pertence k' (chaves (da ++ (k, v) :: db)))) (chaves d1)
      = filter (fun k' => g (pertence k' (chaves (da ++ db)))) (chaves d1)).
    { intros g. apply filter_ext_in. intros k' Hk'. f_equal.
      unfold chaves. rewrite !map_app. simpl. apply pertence_meio.
      intros ->. contradiction. }
    apply mesmos_registros_bind.
    + apply concat_mapM_perm; [| reflexivity].
      rewrite !set_diferenca_perm, (Hf negb). reflexivity.
    + apply concat_mapM_perm.
      * rewrite !set_intersecao_perm, (Hf (fun b => b)). reflexivity.
      * intros k' Hk'. apply set_intersecao_In in Hk'. destruct Hk' as [Hk' _].
        rewrite dict_get_meio by (intros ->; contradiction). reflexivity.
  - unfold comparar_json. simpl bind. rewrite comparar_valores_eq.
    unfold comparar_corpo. simpl.
    rewrite set_diferenca_nil, (set_intersecao_um _ _ "a") by reflexivity.
    reflexivity.
Qed.

End RightOnly.

(** ** Lists of different lengths *)

Lemma concat_mapM_app {A B : Type} (f : A -> result (list B)) (l l' : list A) :
  concat_mapM f (l ++ l') =
  (r <- concat_mapM f l ;; r' <- concat_mapM f l' ;; Ok (r ++ r')).
Proof.
  induction l as [| x l IH]; simpl.
  - destruct (concat_mapM f l'); reflexivity.
  - destruct (f x) as [r |]; simpl; [| reflexivity].
    rewrite IH. destruct (concat_mapM f l) as [rs |]; simpl; [| reflexivity].
    destruct (concat_mapM f l') as [rs' |]; simpl; [| reflexivity].
    rewrite app_assoc. reflexivity.
Qed.

Lemma concat_mapM_puro {A B : Type} (g : A -> B) (l : list A) :
  concat_mapM (fun x => Ok [g x]) l = Ok (map g l).
Proof.
  induction l as [| x l IH]; simpl; [reflexivity |].
  rewrite IH. reflexivity.
Qed.

Section Lengths.
Context {RT : Runtime}.

Lemma length_ordenar_lista (l : list json) :
  List.length (itens_de (ordenar_lista (JList l))) = List.length l.
Proof.
  rewrite ordenar_lista_eq. simpl.
  rewrite (Permutation_length (tenta_ordenar_perm _)). apply length_map.
Qed.

(** C7.  For two lists of different lengths [comparar_valores] returns,
    in this order: one QUANTIDADE_ITENS_DIFERENTE record at the current
    path whose detail text holds both lengths; what the recursive calls
    return for the indices that both sorted lists have, each at path
    [caminho[i]]; an ITEM_AUSENTE_JSON2 record for each index that only the
    left list has; an ITEM_AUSENTE_JSON1 record for each index that only the
    right list has.  It raises only if one of those recursive calls does. *)
Theorem listas_de_tamanhos_diferentes (l1 l2 : list json) (p : string) :
  List.length l1 <> List.length l2 ->
  let c1 := itens_de (ordenar_lista (JList l1)) in
  let c2 := itens_de (ordenar_lista (JList l2)) in
  let n1 := List.length l1 in
  let n2 := List.length l2 in
  comparar_valores (JList l1) (JList l2) p =
  (comuns <- concat_mapM
      (fun i => comparar_valores (nth i c1 JNull) (nth i c2 JNull) (caminho_item p i))
      (seq 0 (Nat.min n1 n2)) ;;
   Ok ({| caminho := p;
          tipo_diferenca := "QUANTIDADE_ITENS_DIFERENTE";
          valor_json1 := "Lista com " +++ str_len n1 +++ " itens";
          tipo_json1 := "list";
          valor_json2 := "Lista com " +++ str_len n2 +++ " itens";
          tipo_json2 := "list";
          detalhes := "Quantidade diferente: " +++ str_len n1
                        +++ " vs " +++ str_len n2 |}
       :: comuns
       ++ map (fun i =>
            {| caminho := caminho_item p i;
               tipo_diferenca := "ITEM_AUSENTE_JSON2";
               valor_json1 := py_str (nth i c1 JNull);
               tipo_json1 := obter_tipo (nth i c1 JNull);
               valor_json2 := "ITEM_NAO_EXISTE";
               tipo_json2 := "N/A";
               detalhes := "Item existe no JSON1 mas não no JSON2" |})
            (seq n2 (n1 - n2))
       ++ map (fun i =>
            {| caminho := caminho_item p i;
               tipo_diferenca := "ITEM_AUSENTE_JSON1";
               valor_json1 := "ITEM_NAO_EXISTE";
               tipo_json1 := "N/A";
               valor_json2 := py_str (nth i c2 JNull);
               tipo_json2 := obter_tipo (nth i c2 JNull);
               detalhes := "Item existe no JSON2 mas não no JSON1" |})
            (seq n1 (n2 - n1)))).
Proof.
  intros Hne c1 c2 n1 n2.
  rewrite comparar_valores_eq. unfold comparar_corpo.
  change (negb (obter_tipo (JList l1) =? obter_tipo (JList l2))%string)
    with false. cbv iota zeta.
  rewrite !length_ordenar_lista. fold c1 c2 n1 n2.
  assert (Hneb : negb (Nat.eqb n1 n2) = true).
  { destruct (Nat.eqb_spec n1 n2); [contradiction | reflexivity]. }
  rewrite Hneb.
  replace (Nat.max n1 n2) with (Nat.min n1 n2 + (Nat.max n1 n2 - Nat.min n1 n2))%nat
    by lia.
  rewrite seq_app, concat_mapM_app. simpl (0 + _)%nat.
  erewrite (concat_mapM_ext _ _ (seq 0 (Nat.min n1 n2))).
  2: { intros i Hi. apply in_seq in Hi.
       assert (E1 : Nat.ltb i n1 = true) by (apply Nat.ltb_lt; lia).
       assert (E2 : Nat.ltb i n2 = true) by (apply Nat.ltb_lt; lia).
       rewrite E1, E2. reflexivity. }
  destruct (concat_mapM _ (seq 0 (Nat.min n1 n2))) as [comuns |]; simpl;
    [| reflexivity].
  destruct (Nat.lt_ge_cases n1 n2) as [Hlt | Hge].
  - replace (Nat.min n1 n2) with n1 by lia.
    replace (Nat.max n1 n2 - n1)%nat with (n2 - n1)%nat by lia.
    replace (n1 - n2)%nat with O by lia. simpl (seq n2 0).
    erewrite (concat_mapM_ext _ _ (seq n1 (n2 - n1))).
    2: { intros i Hi. apply in_seq in Hi.
         assert (E1 : Nat.ltb i n1 = false) by (apply Nat.ltb_ge; lia).
         rewrite E1. cbn [andb]. reflexivity. }
    rewrite concat_mapM_puro. reflexivity.
  - assert (Hgt : (n2 < n1)%nat) by lia.
    replace (Nat.min n1 n2) with n2 by lia.
    replace (Nat.max n1 n2 - n2)%nat with (n1 - n2)%nat by lia.
    replace (n2 - n1)%nat with O by lia. simpl (seq n1 0).
    erewrite (concat_mapM_ext _ _ (seq n2 (n1 - n2))).
    2: { intros i Hi. apply in_seq in Hi.
         assert (E1 : Nat.ltb i n1 = true) by (apply Nat.ltb_lt; lia).
         assert (E2 : Nat.ltb i n2 = false) by (apply Nat.ltb_ge; lia).
         rewrite E1, E2. cbn [andb]. reflexivity. }
    rewrite concat_mapM_puro. simpl. rewrite app_nil_r. reflexivity.
Qed.

End Lengths.

(** ** Totality *)

Lemma forallb_perm {A : Type} (f : A -> bool) (l l' : list A) :
  Permutation l l' -> forallb f l = forallb f l'.
Proof.
  induction 1 as [| x l l' _ IH | x y l | l l' l'' _ IH1 _ IH2]; simpl.
  - reflexivity.
  - rewrite IH. reflexivity.
  - destruct (f x), (f y); reflexivity.
  - congruence.
Qed.

Section Totality.
Context {RT : Runtime}.

Lemma folhas_ordenar (P : json -> bool) (v : json) :
  folhas P (ordenar v) = folhas P v.
Proof.
  induction v as [| b | z | f | s | l IH | d IH] using json_ind';
    try reflexivity.
  - change (ordenar (JList l)) with (ordenar_lista (JList l)).
    rewrite ordenar_lista_eq. simpl.
    rewrite (forallb_perm _ _ _ (tenta_ordenar_perm _)).
    induction IH as [| x l Hx _ IHl]; simpl; [reflexivity |].
    rewrite Hx, IHl. reflexivity.
  - change (ordenar (JDict d)) with (ordenar_dic (JDict d)).
    rewrite ordenar_dic_eq. simpl.
    rewrite (forallb_perm _ _ _ (ordenar_chaves_perm _)).
    induction IH as [| x d Hx _ IHd]; simpl; [reflexivity |].
    rewrite Hx, IHd. reflexivity.
Qed.

Lemma folhas_item_ordenado (P : json -> bool) (x : json) (l : list json) :
  folhas P (JList l) = true ->
  In x (itens_de (ordenar_lista (JList l))) -> folhas P x = true.
Proof.
  intros Hl Hx. apply In_ordenar_lista in Hx. destruct Hx as (y & Hy & ->).
  rewrite folhas_ordenar. simpl in Hl. rewrite forallb_forall in Hl. auto.
Qed.

Lemma folhas_campo (P : json -> bool) (d : list (string * json))
    (k : string) (v : json) :
  folhas P (JDict d) = true -> dict_get d k = Ok v -> folhas P v = true.
Proof.
  intros Hd Hk. apply dict_get_In in Hk. simpl in Hd.
  rewrite forallb_forall in Hd. apply (Hd _ Hk).
Qed.

Lemma normalizar_valor_total (v : json) :
  cabe_em_float v = true -> exists n, normalizar_valor v = Ok n.
Proof.
  destruct v as [| b | z | f | s | l | d]; simpl; intros H; eauto.
  - destruct b; simpl; eauto.
  - destruct (float_of_int z); [simpl; eauto | discriminate].
Qed.

Lemma comparar_valores_rec_total (n : nat) (v1 v2 : json) (p : string) :
  (altura v1 < n)%nat ->
  folhas cabe_em_float v1 = true -> folhas cabe_em_float v2 = true ->
  exists rs, comparar_valores_rec n v1 v2 p = Ok rs.
Proof.
  revert v1 v2 p. induction n as [| n IH]; intros v1 v2 p Hn H1 H2; [lia |].
  simpl. unfold comparar_corpo.
  destruct (negb (obter_tipo v1 =? obter_tipo v2)%string) eqn:Et; [eauto |].
  apply negb_false_iff, String.eqb_eq in Et.
  destruct v1 as [| b | z | f | s | l | d].
  1-5: destruct (normalizar_valor_total _ H1) as [m1 ->];
       destruct (normalizar_valor_total v2) as [m2 ->];
       [destruct v2; try discriminate Et; exact H2 |];
       simpl; destruct (negb (py_eqb m1 m2)); eauto.
  - destruct v2 as [| | | | | l2 |]; try discriminate Et.
    match goal with
    | |- exists rs, bind (concat_mapM ?f ?ix) _ = _ =>
        destruct (concat_mapM_total f ix) as [rs Hrs]
    end.
    + intros i _. cbv beta zeta.
      destruct (Nat.ltb i (List.length (itens_de (ordenar_lista (JList l)))))
        eqn:E1; cbn [andb]; [| eauto].
      destruct (Nat.ltb i (List.length (itens_de (ordenar_lista (JList l2)))))
        eqn:E2; [| eauto].
      apply Nat.ltb_lt in E1. apply Nat.ltb_lt in E2.
      apply IH.
      * pose proof (altura_item_ordenado _ l (nth_In _ JNull E1)). lia.
      * eapply folhas_item_ordenado; [exact H1 | apply nth_In; exact E1].
      * eapply folhas_item_ordenado; [exact H2 | apply nth_In; exact E2].
    + rewrite Hrs. simpl. eauto.
  - destruct v2 as [| | | | | | d2]; try discriminate Et. cbv zeta.
    match goal with
    | |- exists rs, bind (concat_mapM ?f ?ks) _ = _ =>
        destruct (concat_mapM_total f ks) as [rs Hrs]
    end.
    + intros k Hk. apply set_diferenca_In in Hk. destruct Hk as [Hk _].
      destruct (dict_get_chaves _ _ Hk) as [v ->]. simpl. eauto.
    + rewrite Hrs. simpl.
      match goal with
      | |- exists rs, bind (concat_mapM ?f ?ks) _ = _ =>
          destruct (concat_mapM_total f ks) as [rs' Hrs']
      end.
      * intros k Hk. apply set_intersecao_In in Hk.
        destruct Hk as [Hk Hk2]. apply pertence_In in Hk2.
        destruct (dict_get_chaves _ _ Hk) as [a Ha].
        destruct (dict_get_chaves _ _ Hk2) as [b Hb].
        simpl campos_de. rewrite Ha, Hb. simpl.
        apply IH.
        -- pose proof (altura_campo (k, a) d (dict_get_In _ _ _ Ha)).
           simpl in *. lia.
        -- exact (folhas_campo _ d k a H1 Ha).
        -- exact (folhas_campo _ d2 k b H2 Hb).
      * rewrite Hrs'. simpl. eauto.
Qed.


End Totality.

(** ** Conversion to [float] *)

Section FloatFacts.
Variables prec emax : Z.

Lemma shr_1_nonneg (mrs : shr_record) : 0 <= shr_m mrs -> 0 <= shr_m (shr_1 mrs).
Proof.
  destruct mrs as [m r s]. simpl. intros H.
  destruct m as [| [p | p |] | p]; simpl; lia.
Qed.

Lemma iter_pos_shr_1_nonneg (n : positive) (mrs : shr_record) :
  0 <= shr_m mrs -> 0 <= shr_m (iter_pos shr_1 n mrs).
Proof.
  revert mrs. induction n as [n IH | n IH |]; intros mrs H; simpl.
  - apply IH, IH, shr_1_nonneg, H.
  - apply IH, IH, H.
  - apply shr_1_nonneg, H.
Qed.

Lemma shr_fexp_nonneg (m e : Z) (l : location) :
  0 <= m -> 0 <= shr_m (fst (shr_fexp prec emax m e l)).
Proof.
  intros H. unfold shr_fexp, shr.
  assert (H0 : 0 <= shr_m (shr_record_of_loc m l)).
  { destruct l as [| [| |]]; simpl; exact H. }
  destruct (fexp prec emax (Zdigits2 m + e) - e) as [| n | n]; simpl;
    [exact H0 | | exact H0].
  apply iter_pos_shr_1_nonneg, H0.
Qed.

Lemma round_nearest_even_nonneg (m : Z) (l : location) :
  0 <= m -> 0 <= round_nearest_even m l.
Proof.
  intros H. destruct l as [| [| |]]; simpl; try lia.
  destruct (Z.even m); lia.
Qed.

Lemma binary_round_aux_nao_nan (sx : bool) (mx ex : Z) (lx : location) :
  0 <= mx -> binary_round_aux prec emax sx mx ex lx <> S754_nan.
Proof.
  intros H. unfold binary_round_aux.
  pose proof (shr_fexp_nonneg mx ex lx H) as H1.
  destruct (shr_fexp prec emax mx ex lx) as [mrs' e']. simpl in H1.
  pose proof (shr_fexp_nonneg _ e' loc_Exact
                (round_nearest_even_nonneg _ (loc_of_shr_record mrs') H1)) as H2.
  destruct (shr_fexp prec emax _ e' loc_Exact) as [mrs'' e'']. simpl in H2.
  destruct (shr_m mrs'') as [| p | p]; try discriminate; [| lia].
  destruct (e'' <=? emax - prec); discriminate.
Qed.

Lemma binary_normalize_nao_nan (m e : Z) (szero : bool) :
  binary_normalize prec emax m e szero <> S754_nan.
Proof.
  unfold binary_normalize, binary_round.
  destruct m as [| p | p]; [discriminate | |];
    destruct (shl_align p e _) as [mz ez];
    apply binary_round_aux_nao_nan; lia.
Qed.

End FloatFacts.

Lemma float_of_int_nao_nan (z : Z) (f : float) :
  float_of_int z = Ok f -> f <> S754_nan.
Proof.
  unfold float_of_int. intros H Hn. subst f.
  pose proof (binary_normalize_nao_nan 53 1024 z 0 false) as Hb.
  destruct (binary_normalize 53 1024 z 0 false); try discriminate.
  contradiction.
Qed.

Lemma SFcompare_refl (f : float) : f <> S754_nan -> SFcompare f f = Some Eq.
Proof.
  destruct f as [s | s | | s m e]; simpl; intros H; try reflexivity.
  - destruct s; reflexivity.
  - contradiction.
  - rewrite Z.compare_refl.
    change (Pos.compare_cont Eq m m) with (Pos.compare m m).
    rewrite Pos.compare_refl. destruct s; reflexivity.
Qed.

(** ** Reflexivity *)

Section Reflexivity.
Context {RT : Runtime}.

Lemma py_eqb_float_refl (f : float) :
  f <> S754_nan -> py_eqb (JFloat f) (JFloat f) = true.
Proof.
  intros H. simpl. rewrite (SFcompare_refl f H). reflexivity.
Qed.

Lemma escalar_igual (v : json) :
  limpo v = true -> escalar v = true ->
  exists n, normalizar_valor v = Ok n /\ py_eqb n n = true.
Proof.
  unfold limpo. destruct v as [| b | z | f | s | l | d]; simpl;
    intros H He; try discriminate.
  - eexists. split; reflexivity.
  - destruct b; eexists; split; reflexivity.
  - destruct (float_of_int z) as [f |] eqn:E; [| discriminate].
    simpl. eexists. split; [reflexivity |].
    apply py_eqb_float_refl. eapply float_of_int_nao_nan; eauto.
  - eexists. split; [reflexivity |].
    apply py_eqb_float_refl. destruct f; discriminate.
  - eexists. split; [reflexivity |]. simpl. apply String.eqb_refl.
Qed.

Lemma comparar_valores_rec_refl (n : nat) (v : json) (p : string) :
  (altura v < n)%nat -> folhas limpo v = true ->
  comparar_valores_rec n v v p = Ok [].
Proof.
  revert v p. induction n as [| n IH]; intros v p Hn Hv; [lia |].
  simpl. unfold comparar_corpo. rewrite String.eqb_refl. cbn [negb].
  destruct v as [| b | z | f | s | l | d].
  1-5: destruct (escalar_igual _ Hv eq_refl) as (m & -> & Hm);
       cbn [bind]; rewrite Hm; reflexivity.
  - rewrite Nat.eqb_refl, Nat.max_id. cbn [negb].
    rewrite concat_mapM_nil; [reflexivity |].
    intros i Hi. apply in_seq in Hi. cbv beta zeta.
    assert (E : Nat.ltb i (List.length (itens_de (ordenar_lista (JList l)))) = true)
      by (apply Nat.ltb_lt; lia).
    rewrite E. cbn [andb]. apply Nat.ltb_lt in E.
    apply IH.
    + pose proof (altura_item_ordenado _ l (nth_In _ JNull E)). lia.
    + eapply folhas_item_ordenado; [exact Hv | apply nth_In; exact E].
  - cbv zeta. simpl campos_de.
    assert (E1 : filter (fun k => negb (pertence k (chaves d))) (chaves d) = []).
    { rewrite <- (filter_false (chaves d)). apply filter_ext_in.
      intros k Hk. apply negb_false_iff, pertence_In. exact Hk. }
    rewrite (set_diferenca_nil _ _ E1). cbn [concat_mapM bind app].
    rewrite concat_mapM_nil; [reflexivity |].
    intros k Hk. apply set_intersecao_In in Hk. destruct Hk as [Hk _].
    destruct (dict_get_chaves _ _ Hk) as [a Ha]. rewrite Ha. cbn [bind].
    apply IH.
    + pose proof (altura_campo (k, a) d (dict_get_In _ _ _ Ha)).
      simpl in *. lia.
    + exact (folhas_campo _ d k a Hv Ha).
Qed.

Lemma comparar_valores_refl (v : json) (p : string) :
  folhas limpo v = true -> comparar_valores v v p = Ok [].
Proof.
  intros H. apply comparar_valores_rec_refl; [lia | exact H].
Qed.

End Reflexivity.

(** ** Sorting two arrangements of the same elements *)

Lemma Forall2_nth {A B : Type} (R : A -> B -> Prop) (l : list A) (l' : list B)
    (i : nat) (a : A) (b : B) :
  Forall2 R l l' -> (i < List.length l)%nat -> R (nth i l a) (nth i l' b).
Proof.
  intros H. revert i. induction H as [| x y l l' Hxy _ IH]; intros i Hi;
    simpl in Hi; [lia |].
  destruct i as [| i]; simpl; [exact Hxy | apply IH; lia].
Qed.

Lemma Forall2_eq_In {A : Type} (R : A -> A -> Prop) (l l' : list A) :
  Forall2 R l l' ->
  (forall a b, In a l -> In b l' -> R a b -> a = b) -> l = l'.
Proof.
  induction 1 as [| x y l l' Hxy _ IH]; intros H; [reflexivity |].
  f_equal.
  - apply H; simpl; auto.
  - apply IH. intros a b Ha Hb. apply H; simpl; auto.
Qed.

Section SortedPerm.
Context {A : Type}.
Variable ltb : A -> A -> bool.
Variable P : A -> Prop.
Hypothesis ltb_asym :
  forall a b, P a -> P b -> ltb a b = true -> ltb b a = false.
Hypothesis ltb_negtrans :
  forall a b c, P a -> P b -> P c ->
                ltb a b = true -> ltb a c = true \/ ltb c b = true.

Lemma ltb_irrefl (a : A) : P a -> ltb a a = false.
Proof.
  intros Ha. destruct (ltb a a) eqn:E; [| reflexivity].
  rewrite (ltb_asym a a Ha Ha E) in E. discriminate.
Qed.

Lemma insert_ssorted (x : A) (l : list A) :
  P x -> Forall P l ->
  StronglySorted (nao_acima ltb) l ->
  StronglySorted (nao_acima ltb) (insert ltb x l).
Proof.
  intros Hx. induction l as [| y l IH]; intros HP Hs; simpl.
  - repeat constructor.
  - inversion HP as [| ? ? Hy HPl]; subst.
    inversion Hs as [| ? ? Hsl Hyl]; subst.
    destruct (ltb y x) eqn:E.
    + constructor; [auto |].
      apply (Permutation_Forall (Permutation_sym (insert_perm ltb x l))).
      constructor; [| exact Hyl].
      unfold nao_acima. apply ltb_asym; assumption.
    + constructor; [exact Hs |]. constructor; [exact E |].
      rewrite Forall_forall in *. intros z Hz. unfold nao_acima.
      destruct (ltb z x) eqn:Ez; [| reflexivity].
      destruct (ltb_negtrans z x y (HPl z Hz) Hx Hy Ez) as [H | H].
      * rewrite (Hyl z Hz) in H. discriminate.
      * congruence.
Qed.

Lemma isort_Forall (Q : A -> Prop) (l : list A) :
  Forall Q l -> Forall Q (isort ltb l).
Proof.
  apply Permutation_Forall. symmetry. apply isort_perm.
Qed.

Lemma isort_ssorted (l : list A) :
  Forall P l -> StronglySorted (nao_acima ltb) (isort ltb l).
Proof.
  induction 1 as [| x l Hx Hl IH]; simpl; [constructor |].
  apply insert_ssorted; [exact Hx | apply isort_Forall; exact Hl | exact IH].
Qed.

Lemma menores_perm (b : A) (l l' : list A) :
  Permutation l l' -> menores ltb b l = menores ltb b l'.
Proof.
  unfold menores.
  induction 1 as [| x l l' _ IH | x y l | l l' l'' _ IH1 _ IH2]; simpl.
  - reflexivity.
  - destruct (ltb x b); simpl; rewrite IH; reflexivity.
  - destruct (ltb x b), (ltb y b); reflexivity.
  - congruence.
Qed.

Lemma menores_zero (b : A) (l : list A) :
  Forall (nao_acima ltb b) l -> menores ltb b l = O.
Proof.
  unfold menores. induction 1 as [| x l Hx _ IH]; simpl; [reflexivity |].
  unfold nao_acima in Hx. rewrite Hx. exact IH.
Qed.

Lemma equivalentes_ltb (a a' b : A) :
  P a -> P a' -> P b -> equivalentes ltb a a' -> ltb a b = ltb a' b.
Proof.
  intros Ha Ha' Hb [H1 H2].
  destruct (ltb a b) eqn:E, (ltb a' b) eqn:E'; try reflexivity.
  - destruct (ltb_negtrans a b a' Ha Hb Ha' E); congruence.
  - destruct (ltb_negtrans a' b a Ha' Hb Ha E'); congruence.
Qed.

Lemma ssorted_equivalentes (s s' : list A) :
  List.length s = List.length s' ->
  Forall P s -> Forall P s' ->
  StronglySorted (nao_acima ltb) s -> StronglySorted (nao_acima ltb) s' ->
  (forall b, P b -> menores ltb b s = menores ltb b s') ->
  Forall2 (equivalentes ltb) s s'.
Proof.
  revert s'. induction s as [| a t IH]; intros [| a' t'] Hlen HP HP' Hs Hs' Hc;
    simpl in Hlen; try discriminate; [constructor |].
  inversion HP as [| ? ? Ha HPt]; subst.
  inversion HP' as [| ? ? Ha' HPt']; subst.
  inversion Hs as [| ? ? Hst Hat]; subst.
  inversion Hs' as [| ? ? Hst' Hat']; subst.
  assert (Heq : equivalentes ltb a a').
  { split.
    - destruct (ltb a a') eqn:E; [| reflexivity].
      specialize (Hc a' Ha'). unfold menores in Hc. simpl in Hc.
      rewrite E, (ltb_irrefl a' Ha') in Hc. simpl in Hc.
      fold (menores ltb a' t') in Hc. rewrite (menores_zero a' t' Hat') in Hc.
      discriminate.
    - destruct (ltb a' a) eqn:E; [| reflexivity].
      specialize (Hc a Ha). unfold menores in Hc. simpl in Hc.
      rewrite E, (ltb_irrefl a Ha) in Hc. simpl in Hc.
      fold (menores ltb a t) in Hc. rewrite (menores_zero a t Hat) in Hc.
      discriminate. }
  constructor; [exact Heq |].
  apply IH; try assumption; [lia |].
  intros b Hb. specialize (Hc b Hb). unfold menores in *. simpl in Hc.
  rewrite (equivalentes_ltb a a' b Ha Ha' Hb Heq) in Hc.
  destruct (ltb a' b); simpl in Hc; lia.
Qed.

(** Two arrangements of the same elements sort to lists that agree, place
    by place, up to elements that the order does not tell apart. *)
Lemma isort_perm_equivalentes (l l' : list A) :
  Forall P l -> Permutation l l' ->
  Forall2 (equivalentes ltb) (isort ltb l) (isort ltb l').
Proof.
  intros HP Hp.
  assert (HP' : Forall P l') by (eapply Permutation_Forall; eauto).
  apply ssorted_equivalentes.
  - rewrite (Permutation_length (isort_perm ltb l)),
            (Permutation_length (isort_perm ltb l')).
    apply Permutation_length, Hp.
  - apply isort_Forall, HP.
  - apply isort_Forall, HP'.
  - apply isort_ssorted, HP.
  - apply isort_ssorted, HP'.
  - intros b _. apply menores_perm.
    rewrite (isort_perm ltb l), (isort_perm ltb l'). exact Hp.
Qed.

End SortedPerm.

(** ** The order of strings *)

Lemma string_compare_lt_trans (s t u : string) :
  String.compare s t = Lt -> String.compare t u = Lt -> String.compare s u = Lt.
Proof.
  revert t u. induction s as [| a s IH]; intros [| b t] [| c u]; simpl;
    try discriminate; try reflexivity.
  destruct (Ascii.compare a b) eqn:Eab; try discriminate.
  - apply Ascii.compare_eq_iff in Eab. subst b.
    destruct (Ascii.compare a c); try discriminate; [apply IH | reflexivity].
  - intros _. destruct (Ascii.compare b c) eqn:Ebc; try discriminate.
    + apply Ascii.compare_eq_iff in Ebc. subst c. rewrite Eab. reflexivity.
    + intros _. unfold Ascii.compare in *.
      rewrite N.compare_lt_iff in *.
      assert (H : (N_of_ascii a < N_of_ascii c)%N) by lia.
      apply N.compare_lt_iff in H. rewrite H. reflexivity.
Qed.

Lemma string_ltb_negtrans (s t u : string) :
  String.ltb s t = true -> String.ltb s u = true \/ String.ltb u t = true.
Proof.
  unfold String.ltb. destruct (String.compare s t) eqn:Est; try discriminate.
  intros _. destruct (String.compare s u) eqn:Esu.
  - apply String.compare_eq_iff in Esu. subst u. rewrite Est. auto.
  - auto.
  - right. rewrite String.compare_antisym in Esu.
    destruct (String.compare u s) eqn:Eus; try discriminate.
    rewrite (string_compare_lt_trans u s t Eus Est). reflexivity.
Qed.

Lemma string_equivalentes_eq (s t : string) :
  String.ltb s t = false -> String.ltb t s = false -> s = t.
Proof.
  unfold String.ltb. rewrite (String.compare_antisym t s).
  destruct (String.compare s t) eqn:E; simpl; try discriminate.
  intros _ _. apply String.compare_eq_iff. exact E.
Qed.

(** ** Objects that differ only in the order of their keys *)

Lemma NoDup_chaves_valor {V : Type} (d : list (string * V)) (k : string) (v v' : V) :
  NoDup (map fst d) -> In (k, v) d -> In (k, v') d -> v = v'.
Proof.
  induction d as [| [k0 v0] d IH]; simpl; intros Hnd H1 H2; [contradiction |].
  inversion Hnd as [| ? ? Hnot Hnd']; subst.
  destruct H1 as [H1 | H1], H2 as [H2 | H2].
  - congruence.
  - injection H1 as -> ->. exfalso. apply Hnot.
    apply (in_map fst) in H2. exact H2.
  - injection H2 as -> ->. exfalso. apply Hnot.
    apply (in_map fst) in H1. exact H1.
  - auto.
Qed.

Lemma ordenar_chaves_permutados {V : Type} (d d' : list (string * V)) :
  NoDup (map fst d) -> Permutation d d' ->
  ordenar_chaves d = ordenar_chaves d'.
Proof.
  intros Hnd Hp. unfold ordenar_chaves.
  set (ltb := fun a b : string * V => String.ltb (fst a) (fst b)).
  assert (H2 : Forall2 (equivalentes ltb) (isort ltb d) (isort ltb d')).
  { apply (isort_perm_equivalentes ltb (fun _ => True)).
    - intros a b _ _. apply string_ltb_asym.
    - intros a b c _ _ _. apply string_ltb_negtrans.
    - apply Forall_forall. auto.
    - exact Hp. }
  apply (Forall2_eq_In _ _ _ H2).
  intros [k v] [k' v'] Ha Hb [E1 E2]. unfold ltb in E1, E2. simpl in E1, E2.
  pose proof (string_equivalentes_eq _ _ E1 E2) as Hk. subst k'.
  f_equal.
  apply (Permutation_in _ (isort_perm ltb d)) in Ha.
  apply (Permutation_in _ (isort_perm ltb d')) in Hb.
  apply (Permutation_in _ (Permutation_sym Hp)) in Hb.
  eapply NoDup_chaves_valor; eauto.
Qed.

(** ** The order of floats *)

Lemma SFltb_negtrans (f g h : float) :
  f <> S754_nan -> g <> S754_nan -> h <> S754_nan ->
  SFltb f g = true -> SFltb f h = true \/ SFltb h g = true.
Proof.
  unfold SFltb.
  destruct f as [s1 | s1 | | s1 m1 e1], g as [s2 | s2 | | s2 m2 e2],
           h as [s3 | s3 | | s3 m3 e3];
    intros Hf Hg Hh; try contradiction; clear Hf Hg Hh; simpl;
    try (destruct s1); try (destruct s2); try (destruct s3); simpl;
    try (intros; discriminate); try (intros _; left; reflexivity);
    try (intros _; right; reflexivity);
    repeat match goal with
    | |- context [Z.compare ?a ?b] => destruct (Z.compare_spec a b); subst
    | |- context [Pos.compare_cont Eq ?a ?b] =>
        change (Pos.compare_cont Eq a b) with (Pos.compare a b);
        destruct (Pos.compare_spec a b); subst
    end; simpl;
    try (intros; discriminate); try (intros _; left; reflexivity);
    try (intros _; right; reflexivity); try (exfalso; lia).
Qed.

Lemma SFcompare_some (f g : float) :
  f <> S754_nan -> g <> S754_nan -> exists c, SFcompare f g = Some c.
Proof.
  destruct f, g; simpl; intros Hf Hg; try contradiction; eauto.
Qed.

Lemma SFltb_equivalentes (f g : float) :
  f <> S754_nan -> g <> S754_nan ->
  SFltb f g = false -> SFltb g f = false -> SFcompare f g = Some Eq.
Proof.
  intros Hf Hg. unfold SFltb. rewrite (SFcompare_antisym f g).
  destruct (SFcompare_some f g Hf Hg) as [c ->]. simpl.
  destruct c; simpl; intros; try discriminate; reflexivity.
Qed.

(** ** Lists of scalars of one kind *)

Lemma sortedM_isort_total {A : Type} (lt : A -> A -> result bool)
    (P : A -> Prop) (l : list A) :
  (forall a b, P a -> P b -> exists r, lt a b = Ok r) ->
  Forall P l -> sortedM lt l = Ok (isort (lt_true lt) l).
Proof.
  intros Htot.
  assert (Hins : forall x s, P x -> Forall P s ->
            insertM lt x s = Ok (insert (lt_true lt) x s)).
  { intros x s Hx. induction s as [| y s IH]; intros Hs; simpl; [reflexivity |].
    inversion Hs as [| ? ? Hy Hs']; subst.
    unfold lt_true at 1. destruct (Htot y x Hy Hx) as [r ->]. simpl.
    destruct r; [rewrite (IH Hs') |]; reflexivity. }
  induction 1 as [| x l Hx Hl IH]; simpl; [reflexivity |].
  rewrite IH. simpl. apply Hins; [exact Hx |].
  eapply Permutation_Forall; [symmetry; apply isort_perm | exact Hl].
Qed.

Lemma Forall2_combina {A B : Type} (R : A -> B -> Prop) (P : A -> Prop)
    (Q : B -> Prop) (l : list A) (l' : list B) :
  Forall2 R l l' -> Forall P l -> Forall Q l' ->
  Forall2 (fun a b => P a /\ Q b /\ R a b) l l'.
Proof.
  induction 1 as [| x y l l' Hxy _ IH]; intros HP HQ; [constructor |].
  inversion HP; inversion HQ; subst. constructor; auto.
Qed.

Lemma Forall2_map {A B C D : Type} (R : C -> D -> Prop) (f : A -> C)
    (g : B -> D) (l : list A) (l' : list B) :
  Forall2 (fun a b => R (f a) (g b)) l l' -> Forall2 R (map f l) (map g l').
Proof.
  induction 1; simpl; constructor; auto.
Qed.

Lemma Forall2_constante {A : Type} (R : A -> A -> Prop) (x : A) (l l' : list A) :
  R x x -> Forall (eq x) l -> Forall (eq x) l' ->
  List.length l = List.length l' -> Forall2 R l l'.
Proof.
  intros Hx Hl. revert l'. induction Hl as [| y l <- _ IH];
    intros l' Hl' Hlen; destruct l' as [| y' l']; simpl in Hlen;
    try discriminate; [constructor |].
  inversion Hl' as [| ? ? <- Hl'']; subst.
  constructor; [exact Hx | apply IH; [exact Hl'' | lia]].
Qed.

Lemma se_bool (b : bool) : (if b then true else false) = b.
Proof. destruct b; reflexivity. Qed.

Section OneKind.
Context {RT : Runtime}.

Local Abbreviation ltd := (lt_true lt_decorado).

Lemma ltd_asym (a b : chave_ord * json) : ltd a b = true -> ltd b a = false.
Proof.
  unfold lt_true, lt_decorado.
  destruct (chave_lt (fst a) (fst b)) as [[|] |] eqn:E; try discriminate.
  intros _. rewrite (chave_lt_asym _ _ E). reflexivity.
Qed.

Ltac abre_decorado H :=
  let Hk := fresh "Hk" in
  let He := fresh "He" in
  let Hl := fresh "Hl" in
  let Ht := fresh "Ht" in
  destruct H as (Hk & He & Hl & Ht); simpl in Hk, He, Hl, Ht; subst.

Lemma ltd_negtrans (t : string) (a b c : chave_ord * json) :
  decorado t a -> decorado t b -> decorado t c ->
  ltd a b = true -> ltd a c = true \/ ltd c b = true.
Proof.
  destruct a as [ka xa], b as [kb xb], c as [kc xc].
  intros Ha Hb Hc. abre_decorado Ha.
  destruct Hb as (Hkb & Heb & Hlb & Htb). destruct Hc as (Hkc & Hec & Hlc & Htc).
  simpl in *. subst kb kc. unfold lt_true, lt_decorado. simpl.
  destruct xa as [| x | x | x | x | |]; try discriminate He;
    destruct xb as [| y | y | y | y | |]; try discriminate Htb;
    destruct xc as [| z | z | z | z | |]; try discriminate Htc; simpl;
    try (intros; discriminate); rewrite !se_bool.
  - change (Z.ltb (if x then 1 else 0) (if y then 1 else 0) = true ->
            Z.ltb (if x then 1 else 0) (if z then 1 else 0) = true \/
            Z.ltb (if z then 1 else 0) (if y then 1 else 0) = true).
    destruct x, y, z; simpl; auto.
  - change (Z.ltb x y = true -> Z.ltb x z = true \/ Z.ltb z y = true).
    rewrite !Z.ltb_lt. lia.
  - change (SFltb x y = true -> SFltb x z = true \/ SFltb z y = true).
    unfold limpo in *. simpl in *.
    apply SFltb_negtrans; intros ->; discriminate.
  - apply string_ltb_negtrans.
Qed.

Lemma ltd_total (t : string) (a b : chave_ord * json) :
  t <> "None" -> decorado t a -> decorado t b ->
  exists r, lt_decorado a b = Ok r.
Proof.
  destruct a as [ka xa], b as [kb xb]. intros Hn Ha Hb. abre_decorado Ha.
  destruct Hb as (Hkb & Heb & Hlb & Htb). simpl in *. subst kb.
  unfold lt_decorado. simpl.
  destruct xa as [| x | x | x | x | |]; try discriminate He;
    destruct xb as [| y | y | y | y | |]; try discriminate Htb; simpl; eauto.
  contradiction.
Qed.

Lemma equivalentes_sem_diferenca (t : string) (a b : chave_ord * json)
    (p : string) :
  decorado t a -> decorado t b -> equivalentes ltd a b ->
  comparar_valores (snd a) (snd b) p = Ok [].
Proof.
  destruct a as [ka xa], b as [kb xb]. intros Ha Hb [E1 E2]. abre_decorado Ha.
  destruct Hb as (Hkb & Heb & Hlb & Htb). simpl in *. subst kb.
  unfold lt_true, lt_decorado in E1, E2. simpl in E1, E2.
  destruct xa as [| x | x | x | x | |]; try discriminate He;
    destruct xb as [| y | y | y | y | |]; try discriminate Htb; simpl in *;
    rewrite ?se_bool in *.
  - apply comparar_valores_refl. reflexivity.
  - assert (x = y) as ->.
    { change (Z.ltb (if x then 1 else 0) (if y then 1 else 0) = false) in E1.
      change (Z.ltb (if y then 1 else 0) (if x then 1 else 0) = false) in E2.
      destruct x, y; try reflexivity; cbv in E1, E2; discriminate. }
    apply comparar_valores_refl. reflexivity.
  - assert (x = y) as ->.
    { change (Z.ltb x y = false) in E1. change (Z.ltb y x = false) in E2.
      rewrite Z.ltb_ge in *. lia. }
    apply comparar_valores_refl. exact Hl.
  - change (SFltb x y = false) in E1. change (SFltb y x = false) in E2.
    unfold limpo in *. simpl in *.
    assert (Hx : x <> S754_nan) by (intros ->; discriminate).
    assert (Hy : y <> S754_nan) by (intros ->; discriminate).
    rewrite comparar_valores_eq. unfold comparar_corpo. simpl.
    rewrite (SFltb_equivalentes x y Hx Hy E1 E2). reflexivity.
  - assert (x = y) as ->.
    { apply string_equivalentes_eq; assumption. }
    apply comparar_valores_refl. reflexivity.
Qed.

Lemma map_ordenar_escalares (l : list json) :
  Forall (fun x => escalar x = true) l -> map ordenar l = l.
Proof.
  induction 1 as [| x l Hx _ IH]; simpl; [reflexivity |].
  rewrite IH. f_equal. destruct x; try reflexivity; discriminate.
Qed.

Lemma itens_ordenados_sem_diferenca (t : string) (l l' : list json) :
  Forall (escalar_de_tipo t) l -> Permutation l l' ->
  Forall2 (fun x y => forall q, comparar_valores x y q = Ok [])
          (itens_de (ordenar_lista (JList l)))
          (itens_de (ordenar_lista (JList l'))).
Proof.
  intros Hl Hp.
  assert (Hl' : Forall (escalar_de_tipo t) l')
    by (eapply Permutation_Forall; eauto).
  assert (Hesc : forall m, Forall (escalar_de_tipo t) m ->
                           Forall (fun x => escalar x = true) m).
  { intros m Hm. eapply Forall_impl; [| exact Hm]. intros x (H & _). exact H. }
  rewrite !ordenar_lista_eq. simpl.
  rewrite !map_ordenar_escalares by auto.
  destruct (String.eqb_spec t "None") as [-> | Hn].
  - assert (Hnull : forall m, Forall (escalar_de_tipo "None") m ->
                              Forall (eq JNull) (tenta_ordenar m)).
    { intros m Hm.
      eapply Permutation_Forall; [symmetry; apply tenta_ordenar_perm |].
      eapply Forall_impl; [| exact Hm]. intros x (_ & _ & Hx).
      destruct x; try discriminate. reflexivity. }
    apply (Forall2_constante _ JNull);
      [intros q; apply comparar_valores_refl; reflexivity
      | apply Hnull, Hl | apply Hnull, Hl' |].
    rewrite (Permutation_length (tenta_ordenar_perm l)),
            (Permutation_length (tenta_ordenar_perm l')).
    apply Permutation_length, Hp.
  - assert (Hdec : forall m, Forall (escalar_de_tipo t) m ->
              Forall (decorado t) (map (fun x => (chave_de_ordem x, x)) m)).
    { intros m Hm. apply Forall_forall. intros kx Hkx.
      apply in_map_iff in Hkx. destruct Hkx as (x & <- & Hx).
      rewrite Forall_forall in Hm. split; [reflexivity | apply Hm, Hx]. }
    assert (Hsort : forall m, Forall (escalar_de_tipo t) m ->
              tenta_ordenar m =
              map snd (isort ltd (map (fun x => (chave_de_ordem x, x)) m))).
    { intros m Hm. unfold tenta_ordenar, sorted.
      change (fun a b : chave_ord * json => chave_lt (fst a) (fst b))
        with lt_decorado.
      rewrite (sortedM_isort_total lt_decorado (decorado t)).
      - reflexivity.
      - intros a b. apply ltd_total. exact Hn.
      - apply Hdec, Hm. }
    rewrite !Hsort by assumption.
    apply Forall2_map.
    assert (Heq : Forall2 (equivalentes ltd)
              (isort ltd (map (fun x => (chave_de_ordem x, x)) l))
              (isort ltd (map (fun x => (chave_de_ordem x, x)) l'))).
    { apply (isort_perm_equivalentes ltd (decorado t)).
      - intros a b _ _. apply ltd_asym.
      - apply ltd_negtrans.
      - apply Hdec, Hl.
      - apply Permutation_map, Hp. }
    pose proof (Forall2_combina _ (decorado t) (decorado t) _ _ Heq
                  (isort_Forall ltd _ _ (Hdec _ Hl))
                  (isort_Forall ltd _ _ (Hdec _ Hl'))) as Hc.
    eapply Forall2_impl; [| exact Hc].
    intros a b (Ha & Hb & Hab) q.
    exact (equivalentes_sem_diferenca t a b q Ha Hb Hab).
Qed.

End OneKind.

(** ** Order-insensitivity *)

Section OrderInsensitive.
Context {RT : Runtime}.

Lemma listas_permutadas_sem_diferenca (t : string) (l l' : list json)
    (p : string) :
  Forall (escalar_de_tipo t) l -> Permutation l l' ->
  comparar_valores (JList l) (JList l') p = Ok [].
Proof.
  intros Hl Hp. rewrite comparar_valores_eq. unfold comparar_corpo.
  change (negb (obter_tipo (JList l) =? obter_tipo (JList l'))%string)
    with false. cbv iota zeta.
  rewrite !length_ordenar_lista, <- (Permutation_length Hp).
  rewrite Nat.eqb_refl, Nat.max_id. cbn [negb].
  rewrite concat_mapM_nil; [reflexivity |].
  intros i Hi. apply in_seq in Hi.
  assert (E : Nat.ltb i (List.length l) = true) by (apply Nat.ltb_lt; lia).
  rewrite E. cbn [andb].
  apply (Forall2_nth _ _ _ i JNull JNull
           (itens_ordenados_sem_diferenca t l l' Hl Hp)).
  rewrite length_ordenar_lista. lia.
Qed.

End OrderInsensitive.

(** * Runs on concrete inputs *)

(** C1 at a failing input.  The objects [{a: 1}] and [{a: 1, b: 2}] have
    different canonical forms, yet [comparar_json] reports no difference;
    so do [{x: 9007199254740992}] and [{x: 9007199254740993}], whose
    integers become the same float.  In the other direction [{x: 3}] and
    [{x: 3.0}] hold numerically equal numbers and one record is reported. *)
Theorem vazio_sem_formas_iguais :
  @comparar_json cpython (JDict [("a", JInt 1)])
                         (JDict [("a", JInt 1); ("b", JInt 2)]) = Ok [] /\
  @ordenar_dicionario cpython (JDict [("a", JInt 1)]) <>
    @ordenar_dicionario cpython (JDict [("a", JInt 1); ("b", JInt 2)]) /\
  @comparar_json cpython (JDict [("x", JInt 9007199254740992)])
                         (JDict [("x", JInt 9007199254740993)]) = Ok [] /\
  (exists r, @comparar_json cpython (JDict [("x", JInt 3)])
                                    (JDict [("x", JFloat tres)]) = Ok [r]).
Proof.
  split; [vm_compute; reflexivity |].
  split; [vm_compute; discriminate |].
  split; [vm_compute; reflexivity |].
  eexists. vm_compute. reflexivity.
Qed.

(** C2 at its own example.  Comparing [{x: 3}] with [{x: 3.0}] returns one
    TIPO_DIFERENTE record: the kinds [int] and [float] differ, so the call
    returns before [normalizar_valor] is reached. *)
Theorem inteiro_e_float_iguais_diferem :
  @comparar_json cpython (JDict [("x", JInt 3)]) (JDict [("x", JFloat tres)]) =
  Ok [ {| caminho := "x";
          tipo_diferenca := "TIPO_DIFERENTE";
          valor_json1 := "3";
          tipo_json1 := "int";
          valor_json2 := "3.0";
          tipo_json2 := "float";
          detalhes := "Tipos diferentes: int vs float" |} ] /\
  float_of_int 3 = Ok tres /\
  @normalizar_valor (JInt 3) = @normalizar_valor (JFloat tres).
Proof.
  repeat split; vm_compute; reflexivity.
Qed.



(** C4 refuted as stated: with a present [1] on the left and a present JSON
    null on the right, the right display of the TIPO_DIFERENTE record is the
    missing-field sentinel, not the text of null. *)
Lemma null_presente_mostra_sentinela :
  @comparar_json cpython (JDict [("a", JInt 1)]) (JDict [("a", JNull)]) =
  Ok [ {| caminho := "a";
          tipo_diferenca := "TIPO_DIFERENTE";
          valor_json1 := "1";
          tipo_json1 := "int";
          valor_json2 := "CAMPO_NAO_EXISTE";
          tipo_json2 := "None";
          detalhes := "Tipos diferentes: int vs None" |} ] /\
  @py_str cpython JNull = "None".
Proof.
  split; reflexivity.
Qed.

Lemma tipo_diferente_valor_json2_testemunha :
  obter_tipo (JInt 1) <> obter_tipo (JStr "CAMPO_NAO_EXISTE") /\
  exists r,
    @comparar_valores cpython (JInt 1) (JStr "CAMPO_NAO_EXISTE") "a" = Ok [r] /\
    tipo_diferenca r = "TIPO_DIFERENTE" /\
    valor_json1 r = @py_str cpython (JInt 1) /\
    (JStr "CAMPO_NAO_EXISTE" = JNull -> valor_json2 r = "CAMPO_NAO_EXISTE") /\
    (JStr "CAMPO_NAO_EXISTE" <> JNull ->
     valor_json2 r = @py_str cpython (JStr "CAMPO_NAO_EXISTE")) /\
    (valor_json2 r = "CAMPO_NAO_EXISTE" <->
     JStr "CAMPO_NAO_EXISTE" = JNull \/
     @py_str cpython (JStr "CAMPO_NAO_EXISTE") = "CAMPO_NAO_EXISTE").
Proof.
  assert (H : obter_tipo (JInt 1) <> obter_tipo (JStr "CAMPO_NAO_EXISTE"))
    by (simpl; discriminate).
  split; [exact H |].
  exact (@tipo_diferente_valor_json2 cpython (JInt 1)
           (JStr "CAMPO_NAO_EXISTE") "a" H).
Defined.


Lemma tipo_diferente_um_registro_testemunha :
  obter_tipo (JStr "1") <> obter_tipo (JList []) /\
  exists r,
    @comparar_valores cpython (JStr "1") (JList []) "a.b" = Ok [r] /\
    caminho r = "a.b" /\
    tipo_diferenca r = "TIPO_DIFERENTE" /\
    tipo_json1 r = "str" /\
    tipo_json2 r = "list".
Proof.
  assert (H : obter_tipo (JStr "1") <> obter_tipo (JList []))
    by (simpl; discriminate).
  split; [exact H |].
  exact (proj1 (@tipo_diferente_um_registro cpython) (JStr "1") (JList []) "a.b" H).
Defined.

Lemma listas_de_tamanhos_diferentes_testemunha :
  List.length [JInt 1; JInt 2; JInt 3] <> List.length [JInt 2; JInt 1] /\
  @comparar_valores cpython (JList [JInt 1; JInt 2; JInt 3])
                            (JList [JInt 2; JInt 1]) "l" =
  Ok [ {| caminho := "l";
          tipo_diferenca := "QUANTIDADE_ITENS_DIFERENTE";
          valor_json1 := "Lista com 3 itens";
          tipo_json1 := "list";
          valor_json2 := "Lista com 2 itens";
          tipo_json2 := "list";
          detalhes := "Quantidade diferente: 3 vs 2" |};
       {| caminho := "l[2]";
          tipo_diferenca := "ITEM_AUSENTE_JSON2";
          valor_json1 := "3";
          tipo_json1 := "int";
          valor_json2 := "ITEM_NAO_EXISTE";
          tipo_json2 := "N/A";
          detalhes := "Item existe no JSON1 mas não no JSON2" |} ].
Proof.
  assert (H : List.length [JInt 1; JInt 2; JInt 3] <> List.length [JInt 2; JInt 1])
    by (simpl; lia).
  split; [exact H |].
  rewrite (@listas_de_tamanhos_diferentes cpython _ _ "l" H).
  reflexivity.
Defined.

Lemma chave_so_no_json2_testemunha :
  ~ In "b" (chaves [("a", JInt 1)]) /\
  mesmos_registros
    (@comparar_valores cpython (JDict [("a", JInt 1)])
                               (JDict ([("a", JInt 2)] ++ ("b", JInt 2) :: [])) "")
    (@comparar_valores cpython (JDict [("a", JInt 1)])
                               (JDict ([("a", JInt 2)] ++ [])) "") /\
  Forall (fun r => tipo_diferenca r <> "CAMPO_AUSENTE_JSON1")
         [ {| caminho := "a";
              tipo_diferenca := "VALOR_DIFERENTE";
              valor_json1 := "1";
              tipo_json1 := "int";
              valor_json2 := "2";
              tipo_json2 := "int";
              detalhes := "Valores diferentes: 1 vs 2" |} ].
Proof.
  assert (H : ~ In "b" (chaves [("a", JInt 1)])).
  { simpl. intros [E | []]. discriminate. }
  destruct (@chave_so_no_json2 cpython) as (Hk & Hr & _).
  split; [exact H |]. split.
  - apply Hr. exact H.
  - apply (Hk (JDict [("a", JInt 1)]) (JDict [("a", JInt 2)]) "").
    reflexivity.
Defined.

(** * Further properties *)

Lemma concat_mapM_Err {A B : Type} (f : A -> result (list B)) (l : list A)
    (e : exn) :
  concat_mapM f l = Err e -> exists x, In x l /\ f x = Err e.
Proof.
  induction l as [| x l IH]; simpl; [discriminate |].
  destruct (f x) as [r | e'] eqn:E; simpl.
  - destruct (concat_mapM f l) as [rs | e'']; simpl; [discriminate |].
    intros H. injection H as <-.
    destruct (IH eq_refl) as (y & Hy & Ey). eauto.
  - intros H. injection H as <-. eauto.
Qed.

Section Further.
Context {RT : Runtime}.

(** The depth bound of [comparar_valores] is never the reason for its
    result: the unrolling always reaches the bottom of its first argument. *)
Lemma comparar_valores_rec_fundo (n : nat) (v1 v2 : json) (p : string) :
  (altura v1 < n)%nat -> comparar_valores_rec n v1 v2 p <> Err OutOfFuel.
Proof.
  revert v1 v2 p. induction n as [| n IH]; intros v1 v2 p Hn; [lia |].
  simpl. unfold comparar_corpo.
  destruct (negb (obter_tipo v1 =? obter_tipo v2)%string); [discriminate |].
  destruct v1 as [| b | z | f | s | l | d].
  1-5: simpl;
       repeat match goal with
       | |- context [float_of_int ?z] =>
           unfold float_of_int;
           destruct (binary_normalize 53 1024 z 0 false); simpl
       | |- context [normalizar_valor ?v] =>
           destruct v; simpl
       | |- context [if ?b then _ else _] => destruct b; simpl
       end; discriminate.
  - intros H.
    match type of H with
    | bind (concat_mapM ?f ?ix) _ = _ =>
        destruct (concat_mapM f ix) as [rs | e] eqn:E; simpl in H;
        [discriminate |]
    end.
    injection H as ->. apply concat_mapM_Err in E.
    destruct E as (i & _ & E). cbv beta zeta in E.
    destruct (Nat.ltb i (List.length (itens_de (ordenar_lista (JList l)))))
      eqn:E1; cbn [andb] in E.
    + destruct (Nat.ltb i (List.length (itens_de (ordenar_lista v2))));
        [| discriminate].
      apply Nat.ltb_lt in E1. revert E. apply IH.
      pose proof (altura_item_ordenado _ l (nth_In _ JNull E1)). lia.
    + discriminate.
  - cbv zeta. intros H.
    match type of H with
    | bind (concat_mapM ?f ?ks) _ = _ =>
        destruct (concat_mapM f ks) as [rs | e] eqn:E; simpl in H
    end.
    + match type of H with
      | bind (concat_mapM ?f ?ks) _ = _ =>
          destruct (concat_mapM f ks) as [rs' | e] eqn:E'; simpl in H;
          [discriminate |]
      end.
      injection H as ->. apply concat_mapM_Err in E'.
      destruct E' as (k & _ & E').
      destruct (dict_get d k) as [a |] eqn:Ea; simpl in E'.
      * destruct (dict_get (campos_de v2) k) as [b |] eqn:Eb; simpl in E'.
        -- revert E'. apply IH.
           pose proof (altura_campo (k, a) d (dict_get_In _ _ _ Ea)).
           simpl in *. lia.
        -- clear - Eb E'. induction (campos_de v2) as [| [k0 v0] c IHc];
             simpl in Eb; [congruence |].
           destruct (String.eqb k k0); [discriminate | auto].
      * clear - Ea E'. induction d as [| [k0 v0] c IHc];
          simpl in Ea; [congruence |].
        destruct (String.eqb k k0); [discriminate | auto].
    + injection H as ->. apply concat_mapM_Err in E.
      destruct E as (k & _ & E).
      destruct (dict_get d k) as [a |] eqn:Ea; simpl in E; [discriminate |].
      clear - Ea E. induction d as [| [k0 v0] c IHc];
        simpl in Ea; [congruence |].
      destruct (String.eqb k k0); [discriminate | auto].
Qed.

Lemma comparar_valores_fundo (v1 v2 : json) (p : string) :
  comparar_valores v1 v2 p <> Err OutOfFuel.
Proof.
  unfold comparar_valores. apply comparar_valores_rec_fundo. lia.
Qed.

End Further.

Section Extras.
Context {RT : Runtime}.

(** X1.  Reflexivity: a value that holds no NaN and no integer beyond the
    range of [float] compares with itself without a difference, through
    [comparar_valores] at any path and, for an object, through
    [comparar_json]. *)
Theorem comparar_reflexivo :
  (forall v p, folhas limpo v = true -> comparar_valores v v p = Ok []) /\
  (forall d, folhas limpo (JDict d) = true ->
             comparar_json (JDict d) (JDict d) = Ok []).
Proof.
  split.
  - intros v p. apply comparar_valores_refl.
  - intros d H. unfold comparar_json, ordenar_dicionario, bind.
    apply comparar_valores_refl.
    change (ordenar_dic (JDict d)) with (ordenar (JDict d)).
    rewrite folhas_ordenar. exact H.
Qed.

(** The worked examples of the specification: a field missing on the
    right, lists of different lengths, a nested path, and empty inputs. *)
Theorem exemplos_da_especificacao :
  comparar_json (JDict [("a", JInt 1); ("b", JInt 2)]) (JDict [("a", JInt 1)]) =
    Ok [ {| caminho := "b";
            tipo_diferenca := "CAMPO_AUSENTE_JSON2";
            valor_json1 := "2";
            tipo_json1 := "int";
            valor_json2 := "CAMPO_NAO_EXISTE";
            tipo_json2 := "N/A";
            detalhes := "Campo existe no JSON1 mas não no JSON2" |} ] /\
  comparar_json (JDict [("l", JList [JInt 1; JInt 2; JInt 3])])
                (JDict [("l", JList [JInt 1; JInt 2])]) =
    Ok [ {| caminho := "l";
            tipo_diferenca := "QUANTIDADE_ITENS_DIFERENTE";
            valor_json1 := "Lista com 3 itens";
            tipo_json1 := "list";
            valor_json2 := "Lista com 2 itens";
            tipo_json2 := "list";
            detalhes := "Quantidade diferente: 3 vs 2" |};
         {| caminho := "l[2]";
            tipo_diferenca := "ITEM_AUSENTE_JSON2";
            valor_json1 := "3";
            tipo_json1 := "int";
            valor_json2 := "ITEM_NAO_EXISTE";
            tipo_json2 := "N/A";
            detalhes := "Item existe no JSON1 mas não no JSON2" |} ] /\
  comparar_json (JDict [("a", JDict [("b", JList [JDict [("c", JInt 1)]])])])
                (JDict [("a", JDict [("b", JList [JDict [("c", JInt 2)]])])]) =
    Ok [ {| caminho := "a.b[0].c";
            tipo_diferenca := "VALOR_DIFERENTE";
            valor_json1 := "1";
            tipo_json1 := "int";
            valor_json2 := "2";
            tipo_json2 := "int";
            detalhes := "Valores diferentes: 1 vs 2" |} ] /\
  comparar_json (JDict []) (JDict []) = Ok [] /\
  comparar_json (JDict [("l", JList [])]) (JDict [("l", JList [])]) = Ok [].
Proof.
  unfold comparar_json.
  repeat split; simpl bind;
    repeat (rewrite comparar_valores_eq; unfold comparar_corpo; simpl;
            rewrite ?set_diferenca_nil by reflexivity;
            rewrite ?set_intersecao_nil by reflexivity;
            rewrite ?(set_diferenca_um _ _ "b") by reflexivity;
            rewrite ?(set_intersecao_um _ _ "a") by reflexivity;
            rewrite ?(set_intersecao_um _ _ "b") by reflexivity;
            rewrite ?(set_intersecao_um _ _ "c") by reflexivity;
            rewrite ?(set_intersecao_um _ _ "l") by reflexivity;
            simpl);
    reflexivity.
Qed.

End Extras.

(** An example of the overflow: an integer beyond the range of [float]
    makes the comparison raise [OverflowError], even against itself; the
    largest integers that [float] converts lie just below
    [2^1024 - 2^970]. *)
Theorem inteiro_grande_levanta :
  @comparar_json cpython (JDict [("x", JInt (10 ^ 400))])
                         (JDict [("x", JInt (10 ^ 400))]) = Err OverflowError /\
  float_of_int (2 ^ 1024 - 2 ^ 970) = Err OverflowError /\
  float_of_int (2 ^ 1024 - 2 ^ 970 - 1)
    = Ok (S754_finite false (2 ^ 53 - 1) 971).
Proof.
  repeat split; vm_compute; reflexivity.
Qed.

Lemma comparar_reflexivo_testemunha :
  folhas limpo (JDict [("a", JList [JFloat tres; JStr "x"]); ("b", JNull)]) = true /\
  @comparar_json cpython
     (JDict [("a", JList [JFloat tres; JStr "x"]); ("b", JNull)])
     (JDict [("a", JList [JFloat tres; JStr "x"]); ("b", JNull)]) = Ok [].
Proof.
  split; [reflexivity |].
  apply (proj2 (@comparar_reflexivo cpython)). reflexivity.
Defined.

(** * The records and the exceptions of the differ *)

Lemma append_assoc (a b c : string) : (a +++ b) +++ c = a +++ (b +++ c).
Proof.
  induction a as [| x a IH]; simpl; [reflexivity |]. rewrite IH. reflexivity.
Qed.

Lemma append_nil_r (a : string) : a +++ "" = a.
Proof.
  induction a as [| x a IH]; simpl; [reflexivity |]. rewrite IH. reflexivity.
Qed.

Section Records.
Context {RT : Runtime}.

(** A property of the dictionaries that one call appends, which passes from
    a nested path to the path above it, holds of everything returned. *)
Lemma registros_inducao (Q : string -> diferenca -> Prop) :
  (forall p r, emitido_em p r -> Q p r) ->
  (forall p i r, Q (caminho_item p i) r -> Q p r) ->
  (forall p k r, Q (caminho_campo p k) r -> Q p r) ->
  forall n v1 v2 p rs,
    comparar_valores_rec n v1 v2 p = Ok rs -> Forall (Q p) rs.
Proof.
  intros Hloc Hitem Hcampo.
  induction n as [| n IH]; intros v1 v2 p rs H; [discriminate |].
  simpl in H. unfold comparar_corpo in H.
  destruct (negb (obter_tipo v1 =? obter_tipo v2)%string) eqn:Et.
  { injection H as <-. repeat constructor. apply Hloc.
    apply em_tipo; try reflexivity. simpl.
    apply negb_true_iff, String.eqb_neq in Et. exact Et. }
  apply negb_false_iff, String.eqb_eq in Et.
  destruct v1 as [| b | z | f | s | l | d].
  1-5: inv_bind H; inv_bind H;
       destruct (negb (py_eqb _ _)); injection H as <-;
       [repeat constructor; apply Hloc; apply em_valor; [reflexivity .. | exact Et]
       | constructor].
  - inv_bind H. injection H as <-. apply Forall_app. split.
    + destruct (negb (Nat.eqb _ _)); [| constructor].
      repeat constructor. apply Hloc. apply em_quantidade; reflexivity.
    + eapply concat_mapM_Forall; [| exact Ha].
      intros i r _ Hr. cbv beta zeta in Hr.
      destruct (Nat.ltb i _ && Nat.ltb i _).
      * eapply Forall_impl; [| eapply IH; exact Hr]. intros x. apply Hitem.
      * destruct (Nat.ltb i _); injection Hr as <-; repeat constructor;
          apply Hloc; [apply (em_item2 _ _ i) | apply (em_item1 _ _ i)];
          reflexivity.
  - cbv zeta in H. inv_bind H. inv_bind H. injection H as <-.
    apply Forall_app. split.
    + eapply concat_mapM_Forall; [| exact Ha].
      intros k r _ Hr. inv_bind Hr. injection Hr as <-.
      repeat constructor. apply Hloc. apply (em_campo2 _ _ k); reflexivity.
    + eapply concat_mapM_Forall; [| exact Ha0].
      intros k r _ Hr. inv_bind Hr. inv_bind Hr.
      eapply Forall_impl; [| eapply IH; exact Hr]. intros x. apply Hcampo.
Qed.

Lemma caminho_item_estende (p : string) (i : nat) :
  exists s, caminho_item p i = p +++ s.
Proof. unfold caminho_item. eauto. Qed.

Lemma caminho_campo_estende (p k : string) :
  exists s, caminho_campo p k = p +++ s.
Proof. unfold caminho_campo. destruct p; [exists k; reflexivity | eauto]. Qed.

(** X4.  Every difference that [comparar_valores] returns is placed at the
    path of the call or below it: its [caminho] starts with the path that
    the call was given. *)
Theorem registros_sob_o_caminho (v1 v2 : json) (p : string)
    (rs : list diferenca) :
  comparar_valores v1 v2 p = Ok rs ->
  Forall (fun r => exists s, caminho r = p +++ s) rs.
Proof.
  unfold comparar_valores.
  apply (registros_inducao (fun p r => exists s, caminho r = p +++ s)).
  - intros q r [Hc | Hc | Hc | i Hc | i Hc | k Hc]; rewrite Hc;
      first [ exists ""; symmetry; apply append_nil_r
            | apply caminho_item_estende | apply caminho_campo_estende ].
  - intros q i r [s Hs]. destruct (caminho_item_estende q i) as [t Ht].
    exists (t +++ s). rewrite Hs, Ht. apply append_assoc.
  - intros q k r [s Hs]. destruct (caminho_campo_estende q k) as [t Ht].
    exists (t +++ s). rewrite Hs, Ht. apply append_assoc.
Qed.

(** X5.  Every difference that [comparar_valores] returns is well shaped:
    its kind is one of the six that the code writes (never
    CAMPO_AUSENTE_JSON1), the two kinds of value differ in a TIPO_DIFERENTE
    record and agree in a VALOR_DIFERENTE record, both are "list" in a
    QUANTIDADE_ITENS_DIFERENTE record, and the side that is missing in an
    ITEM_AUSENTE or CAMPO_AUSENTE record holds the fixed texts
    ITEM_NAO_EXISTE or CAMPO_NAO_EXISTE and N/A. *)
Theorem registros_bem_formados (v1 v2 : json) (p : string)
    (rs : list diferenca) :
  comparar_valores v1 v2 p = Ok rs -> Forall bem_formada rs.
Proof.
  unfold comparar_valores.
  apply (registros_inducao (fun _ r => bem_formada r)); [| auto | auto].
  intros q r H. unfold bem_formada, tipos_de_diferenca.
  destruct H as [_ Hk H1 | _ Hk H1 | _ Hk H1 H2 | i _ Hk H1 H2
                | i _ Hk H1 H2 | k _ Hk H1 H2];
    rewrite Hk; simpl; repeat split; auto 10;
    try (intros; discriminate); intros _; assumption.
Qed.

End Records.

Section Exceptions.
Context {RT : Runtime}.

Lemma normalizar_valor_erro (v : json) (e : exn) :
  normalizar_valor v = Err e -> e = OverflowError.
Proof.
  destruct v as [| b | z | f | s | l | d]; simpl; try discriminate.
  - destruct b; discriminate.
  - unfold float_of_int.
    destruct (binary_normalize 53 1024 z 0 false); simpl; try discriminate.
    intros H. injection H as <-. reflexivity.
Qed.

Lemma comparar_valores_rec_erro (n : nat) (v1 v2 : json) (p : string) (e : exn) :
  comparar_valores_rec n v1 v2 p = Err e -> e = OverflowError \/ e = OutOfFuel.
Proof.
  revert v1 v2 p. induction n as [| n IH]; intros v1 v2 p H.
  { injection H as <-. auto. }
  simpl in H. unfold comparar_corpo in H.
  destruct (negb (obter_tipo v1 =? obter_tipo v2)%string); [discriminate |].
  destruct v1 as [| b | z | f | s | l | d].
  1-5: match type of H with
       | bind (normalizar_valor ?a) _ = _ =>
           destruct (normalizar_valor a) as [m1 | e1] eqn:E1; simpl in H;
           [| injection H as <-; left; eapply normalizar_valor_erro; eauto]
       end;
       destruct (normalizar_valor v2) as [m2 | e2] eqn:E2; simpl in H;
       [| injection H as <-; left; eapply normalizar_valor_erro; eauto];
       destruct (negb (py_eqb m1 m2)); discriminate.
  - match type of H with
    | bind (concat_mapM ?f ?ix) _ = _ =>
        destruct (concat_mapM f ix) as [rs | e'] eqn:E; simpl in H;
        [discriminate |]
    end.
    injection H as ->. apply concat_mapM_Err in E.
    destruct E as (i & _ & E). cbv beta zeta in E.
    destruct (Nat.ltb i (List.length (itens_de (ordenar_lista (JList l)))));
      cbn [andb] in E; [| discriminate].
    destruct (Nat.ltb i (List.length (itens_de (ordenar_lista v2))));
      [| discriminate].
    eapply IH; eauto.
  - cbv zeta in H.
    match type of H with
    | bind (concat_mapM ?f ?ks) _ = _ =>
        destruct (concat_mapM f ks) as [rs | e'] eqn:E; simpl in H
    end.
    + match type of H with
      | bind (concat_mapM ?f ?ks) _ = _ =>
          destruct (concat_mapM f ks) as [rs' | e'] eqn:E'; simpl in H;
          [discriminate |]
      end.
      injection H as ->. apply concat_mapM_Err in E'.
      destruct E' as (k & Hk & E').
      apply set_intersecao_In in Hk. destruct Hk as [Hk1 Hk2].
      apply pertence_In in Hk2.
      destruct (dict_get_chaves _ _ Hk1) as [a Ha].
      destruct (dict_get_chaves _ _ Hk2) as [b Hb].
      rewrite Ha, Hb in E'. simpl in E'. eapply IH; eauto.
    + injection H as ->. apply concat_mapM_Err in E.
      destruct E as (k & Hk & E).
      apply set_diferenca_In in Hk. destruct Hk as [Hk1 _].
      destruct (dict_get_chaves _ _ Hk1) as [a Ha].
      rewrite Ha in E. discriminate.
Qed.

Lemma comparar_valores_erro (v1 v2 : json) (p : string) (e : exn) :
  comparar_valores v1 v2 p = Err e -> e = OverflowError.
Proof.
  intros H. pose proof (comparar_valores_fundo v1 v2 p) as Hf.
  unfold comparar_valores in *.
  destruct (comparar_valores_rec_erro _ _ _ _ _ H) as [-> | ->];
    [reflexivity | contradiction].
Qed.

(** X6.  The exceptions of the differ, on values whose integers are within
    the limit of 4300 digits that the interpreter sets for writing an
    integer as text.  [comparar_valores] raises nothing but
    [OverflowError], and raises it only when one of the two values holds an
    integer that [float] rejects; two integers, of any size, make it raise
    as soon as one of them is such an integer.  [comparar_json] raises
    [AttributeError] exactly when one of its arguments is not an object,
    and otherwise nothing but [OverflowError]. *)
Theorem excecoes_do_comparador :
  (forall v1 v2 p e,
     folhas inteiro_com_texto v1 = true ->
     folhas inteiro_com_texto v2 = true ->
     comparar_valores v1 v2 p = Err e ->
     e = OverflowError /\
     (folhas cabe_em_float v1 = false \/ folhas cabe_em_float v2 = false)) /\
  (forall z1 z2 p,
     cabe_em_float (JInt z1) = false \/ cabe_em_float (JInt z2) = false ->
     comparar_valores (JInt z1) (JInt z2) p = Err OverflowError) /\
  (forall j1 j2,
     folhas inteiro_com_texto j1 = true ->
     folhas inteiro_com_texto j2 = true ->
     (comparar_json j1 j2 = Err AttributeError <->
      obter_tipo j1 <> "dict" \/ obter_tipo j2 <> "dict")) /\
  (forall j1 j2 e,
     folhas inteiro_com_texto j1 = true ->
     folhas inteiro_com_texto j2 = true ->
     comparar_json j1 j2 = Err e -> e = AttributeError \/ e = OverflowError).
Proof.
  split; [| split; [| split]].
  - intros v1 v2 p e _ _ H. split; [eapply comparar_valores_erro; eauto |].
    destruct (folhas cabe_em_float v1) eqn:E1; [| auto].
    destruct (folhas cabe_em_float v2) eqn:E2; [| auto].
    destruct (comparar_valores_rec_total (S (altura v1)) v1 v2 p
                (Nat.lt_succ_diag_r _) E1 E2) as [rs Hrs].
    unfold comparar_valores in H. congruence.
  - intros z1 z2 p H. rewrite comparar_valores_eq. unfold comparar_corpo.
    simpl. unfold cabe_em_float in H.
    destruct (float_of_int z1) as [f1 | e1] eqn:E1; simpl.
    + destruct (float_of_int z2) as [f2 | e2] eqn:E2; simpl.
      * destruct H; discriminate.
      * f_equal. apply (normalizar_valor_erro (JInt z2)). simpl.
        rewrite E2. reflexivity.
    + f_equal. apply (normalizar_valor_erro (JInt z1)). simpl.
      rewrite E1. reflexivity.
  - intros j1 j2 _ _. unfold comparar_json, ordenar_dicionario. split.
    + intros H.
      destruct j1; simpl; try (left; discriminate).
      destruct j2; simpl; try (right; discriminate).
      simpl in H. apply comparar_valores_erro in H. discriminate.
    + intros [H | H].
      * destruct j1; try reflexivity. simpl in H. contradiction.
      * destruct j1; try reflexivity.
        destruct j2; try reflexivity. simpl in H. contradiction.
  - intros j1 j2 e _ _. unfold comparar_json, ordenar_dicionario.
    destruct j1; simpl; try (intros H; injection H as <-; auto).
    destruct j2; simpl; try (intros H; injection H as <-; auto).
    intros H. right. eapply comparar_valores_erro; eauto.
Qed.

End Exceptions.

(** * Canonical forms *)

Lemma todo_objeto_lista (Q : list (string * json) -> Prop) (l : list json) :
  todo_objeto Q (JList l) <-> Forall (todo_objeto Q) l.
Proof.
  simpl. induction l as [| x l IH]; simpl.
  - split; constructor.
  - rewrite IH. split.
    + intros [H1 H2]. constructor; assumption.
    + intros H. inversion H; subst. split; assumption.
Qed.

Lemma todo_objeto_dict (Q : list (string * json) -> Prop)
    (d : list (string * json)) :
  todo_objeto Q (JDict d) <->
  Q d /\ Forall (fun kv => todo_objeto Q (snd kv)) d.
Proof.
  simpl. apply and_iff_compat_l. induction d as [| x d IH]; simpl.
  - split; constructor.
  - rewrite IH. split.
    + intros [H1 H2]. constructor; assumption.
    + intros H. inversion H; subst. split; assumption.
Qed.

Lemma dict_get_NoDup (d : list (string * json)) (k : string) (v : json) :
  NoDup (chaves d) -> In (k, v) d -> dict_get d k = Ok v.
Proof.
  intros Hnd Hin. destruct (dict_get_chaves d k) as [v' Hv'].
  { unfold chaves. apply (in_map fst) in Hin. exact Hin. }
  rewrite Hv'. f_equal. apply dict_get_In in Hv'.
  eapply NoDup_chaves_valor; eauto.
Qed.

Lemma dict_get_ausente (d : list (string * json)) (k : string) :
  ~ In k (chaves d) -> dict_get d k = Err KeyError.
Proof.
  induction d as [| [k' v'] d IH]; simpl; intros H; [reflexivity |].
  destruct (String.eqb_spec k k') as [-> | Hne]; [exfalso; auto |].
  apply IH. intros Hin. apply H. auto.
Qed.

Lemma chaves_ordenar_campo (d : list (string * json)) {RT : Runtime} :
  chaves (map ordenar_campo d) = chaves d.
Proof. unfold chaves. rewrite map_map. reflexivity. Qed.

Lemma ordenar_chaves_crescente (d : list (string * json)) :
  NoDup (chaves d) -> chaves_crescentes (ordenar_chaves d).
Proof.
  intros Hnd. unfold chaves_crescentes, ordenar_chaves.
  set (ltb := fun a b : string * json => String.ltb (fst a) (fst b)).
  assert (Hs : StronglySorted (nao_acima ltb) (isort ltb d)).
  { apply (isort_ssorted ltb (fun _ => True)).
    - intros a b _ _. apply string_ltb_asym.
    - intros a b c _ _ _. apply string_ltb_negtrans.
    - apply Forall_forall. auto. }
  assert (Hnd' : NoDup (chaves (isort ltb d))).
  { eapply Permutation_NoDup; [| exact Hnd].
    unfold chaves. apply Permutation_map. symmetry. apply isort_perm. }
  clear Hnd. induction Hs as [| a l Hl IH Ha]; simpl; [constructor |].
  simpl in Hnd'. inversion Hnd' as [| ? ? Hnot Hnd'']; subst.
  constructor; [apply IH; exact Hnd'' |].
  apply Forall_forall. intros k Hk. unfold chaves in Hk.
  apply in_map_iff in Hk. destruct Hk as (b & <- & Hb).
  rewrite Forall_forall in Ha. specialize (Ha b Hb).
  unfold nao_acima, ltb in Ha.
  destruct (String.ltb (fst a) (fst b)) eqn:E; [reflexivity |].
  exfalso. apply Hnot.
  rewrite (string_equivalentes_eq _ _ E Ha).
  unfold chaves. apply in_map. exact Hb.
Qed.

Section CanonicalForms.
Context {RT : Runtime}.

Lemma objetos_de_ordenar (v : json) :
  chaves_distintas v ->
  chaves_distintas (ordenar v) /\ todo_objeto chaves_crescentes (ordenar v).
Proof.
  unfold chaves_distintas.
  induction v as [| b | z | f | s | l IH | d IH] using json_ind';
    try (simpl; auto; fail).
  - intros H. apply todo_objeto_lista in H.
    change (ordenar (JList l)) with (ordenar_lista (JList l)).
    rewrite ordenar_lista_eq, !todo_objeto_lista.
    assert (Hall : Forall (fun x => todo_objeto (fun d => NoDup (chaves d)) x /\
                                    todo_objeto chaves_crescentes x)
                          (map ordenar l)).
    { apply Forall_forall. intros x Hx. apply in_map_iff in Hx.
      destruct Hx as (y & <- & Hy). rewrite Forall_forall in IH, H. auto. }
    apply (Permutation_Forall (Permutation_sym (tenta_ordenar_perm _))) in Hall.
    split; eapply Forall_impl; try exact Hall; simpl; tauto.
  - intros H. apply todo_objeto_dict in H. destruct H as [Hnd H].
    change (ordenar (JDict d)) with (ordenar_dic (JDict d)).
    rewrite ordenar_dic_eq, !todo_objeto_dict.
    assert (Hall : Forall (fun kv => todo_objeto (fun d => NoDup (chaves d)) (snd kv) /\
                                     todo_objeto chaves_crescentes (snd kv))
                          (map ordenar_campo d)).
    { apply Forall_forall. intros x Hx. apply in_map_iff in Hx.
      destruct Hx as (y & <- & Hy). rewrite Forall_forall in IH, H.
      apply (IH y Hy), H, Hy. }
    apply (Permutation_Forall (Permutation_sym (ordenar_chaves_perm _))) in Hall.
    assert (Hnd' : NoDup (chaves (map ordenar_campo d)))
      by (rewrite chaves_ordenar_campo; exact Hnd).
    split; (split; [| eapply Forall_impl; try exact Hall; simpl; tauto]).
    + eapply Permutation_NoDup; [| exact Hnd'].
      unfold chaves. apply Permutation_map. symmetry. apply ordenar_chaves_perm.
    + apply ordenar_chaves_crescente. exact Hnd'.
Qed.

(** X11.  Canonical objects.  In the canonical form of a value whose objects have
    distinct keys, every object at every depth has its keys in strictly
    ascending order, and still has distinct keys.  The canonical form of an
    object has the same keys as the object, and under each key the canonical
    form of the value that the object has there; a key that the object lacks
    is still missing. *)
Theorem objeto_canonico :
  (forall v, chaves_distintas v ->
             todo_objeto chaves_crescentes (ordenar v) /\
             chaves_distintas (ordenar v)) /\
  (forall d c,
     chaves_distintas (JDict d) -> ordenar_dicionario (JDict d) = Ok c ->
     todo_objeto chaves_crescentes c /\
     Permutation (chaves (campos_de c)) (chaves d) /\
     forall k, dict_get (campos_de c) k = (v <- dict_get d k ;; Ok (ordenar v))).
Proof.
  split.
  - intros v H. destruct (objetos_de_ordenar v H). auto.
  - intros d c H Hc. unfold ordenar_dicionario in Hc. injection Hc as <-.
    destruct (objetos_de_ordenar (JDict d) H) as [_ Hs].
    change (ordenar (JDict d)) with (ordenar_dic (JDict d)) in Hs.
    split; [exact Hs |]. rewrite ordenar_dic_eq in *. simpl campos_de.
    apply todo_objeto_dict in H. destruct H as [Hnd _].
    assert (Hp : Permutation (chaves (ordenar_chaves (map ordenar_campo d)))
                             (chaves d)).
    { rewrite <- (chaves_ordenar_campo d). unfold chaves.
      apply Permutation_map, ordenar_chaves_perm. }
    split; [exact Hp |]. intros k.
    destruct (dict_get d k) as [v | e] eqn:E; simpl.
    + apply dict_get_NoDup.
      * eapply Permutation_NoDup; [symmetry; exact Hp | exact Hnd].
      * apply (Permutation_in _ (Permutation_sym (ordenar_chaves_perm _))).
        apply dict_get_In in E.
        apply (in_map ordenar_campo) in E. exact E.
    + assert (Hk : ~ In k (chaves d)).
      { intros Hin. destruct (dict_get_chaves d k Hin) as [v Hv]. congruence. }
      rewrite (dict_get_ausente d k Hk) in E. injection E as <-.
      apply dict_get_ausente. intros Hin. apply Hk.
      apply (Permutation_in _ Hp). exact Hin.
Qed.

Lemma ordenar_dicionario_fixo (d : list (string * json)) :
  ordenar_dicionario (ordenar_dic (JDict d)) = Ok (ordenar_dic (JDict d)).
Proof.
  pose proof (ordenar_idem (JDict d)) as H.
  change (ordenar (JDict d)) with (ordenar_dic (JDict d)) in H.
  rewrite ordenar_dic_eq in *. unfold ordenar_dicionario. f_equal. exact H.
Qed.

(** X12.  Comparing canonical forms.  [comparar_json] gives for two values what
    it gives for their canonical forms; and when two objects have the same
    canonical form, which holds neither a NaN nor an integer that [float]
    rejects, it reports no difference. *)
Theorem comparar_formas_canonicas :
  (forall j1 j2,
     comparar_json j1 j2 =
     (c1 <- ordenar_dicionario j1 ;; c2 <- ordenar_dicionario j2 ;;
      comparar_json c1 c2)) /\
  (forall d1 d2,
     ordenar_dicionario (JDict d1) = ordenar_dicionario (JDict d2) ->
     folhas limpo (JDict d1) = true ->
     comparar_json (JDict d1) (JDict d2) = Ok []).
Proof.
  split.
  - intros j1 j2. unfold comparar_json.
    destruct j1 as [| | | | | | d1]; try reflexivity.
    destruct j2 as [| | | | | | d2]; try reflexivity.
    change (ordenar_dicionario (JDict d1)) with (Ok (ordenar_dic (JDict d1))).
    change (ordenar_dicionario (JDict d2)) with (Ok (ordenar_dic (JDict d2))).
    cbn [bind]. rewrite !ordenar_dicionario_fixo. reflexivity.
  - intros d1 d2 Heq Hl. unfold comparar_json. rewrite <- Heq.
    unfold ordenar_dicionario, bind. apply comparar_valores_refl.
    change (ordenar_dic (JDict d1)) with (ordenar (JDict d1)).
    rewrite folhas_ordenar. exact Hl.
Qed.

End CanonicalForms.

(** * What an empty result means *)

Lemma concat_mapM_Ok_nil {A B : Type} (f : A -> result (list B)) (l : list A) :
  concat_mapM f l = Ok [] <-> forall x, In x l -> f x = Ok [].
Proof.
  split; [| apply concat_mapM_nil].
  induction l as [| x l IH]; simpl; intros H y Hy; [contradiction |].
  destruct (f x) as [r |] eqn:E; simpl in H; [| discriminate].
  destruct (concat_mapM f l) as [rs |]; simpl in H; [| discriminate].
  injection H as H. apply app_eq_nil in H. destruct H as [-> ->].
  destruct Hy as [<- | Hy]; [exact E | auto].
Qed.

Lemma Forall2_de_nth {A B : Type} (R : A -> B -> Prop) (a : A) (b : B)
    (l : list A) (l' : list B) :
  List.length l = List.length l' ->
  (forall i, (i < List.length l)%nat -> R (nth i l a) (nth i l' b)) ->
  Forall2 R l l'.
Proof.
  revert l'. induction l as [| x l IH]; intros [| y l'] Hlen H;
    simpl in Hlen; try discriminate; constructor.
  - apply (H O). simpl. lia.
  - apply IH; [lia |]. intros i Hi. apply (H (S i)). simpl. lia.
Qed.

Section EmptyResult.
Context {RT : Runtime}.

Lemma dict_get_em_chaves (d : list (string * json)) (k : string) (v : json) :
  dict_get d k = Ok v -> In k (chaves d).
Proof.
  intros H. apply dict_get_In in H. unfold chaves.
  apply (in_map fst) in H. exact H.
Qed.

Lemma comparar_valores_rec_vazio (n : nat) (v1 v2 : json) (p : string) :
  (altura v1 < n)%nat ->
  (comparar_valores_rec n v1 v2 p = Ok [] <-> coberto v1 v2).
Proof.
  revert v1 v2 p. induction n as [| n IH]; intros v1 v2 p Hn; [lia |].
  simpl. unfold comparar_corpo.
  destruct (negb (obter_tipo v1 =? obter_tipo v2)%string) eqn:Et.
  { apply negb_true_iff, String.eqb_neq in Et. split; [discriminate |].
    intros H. exfalso. apply Et. destruct H; reflexivity. }
  apply negb_false_iff, String.eqb_eq in Et.
  destruct v1 as [| b1 | z1 | f1 | s1 | l1 | d1];
    destruct v2 as [| b2 | z2 | f2 | s2 | l2 | d2]; try discriminate Et;
    clear Et.
  - simpl. split; [constructor | reflexivity].
  - destruct b1, b2; simpl; split; intros H;
      try constructor; try reflexivity; try discriminate; inversion H.
  - simpl. split.
    + intros H.
      destruct (float_of_int z1) as [f |] eqn:E1; simpl in H; [| discriminate].
      destruct (float_of_int z2) as [g |] eqn:E2; simpl in H; [| discriminate].
      destruct (SFcompare f g) as [[| |] |] eqn:E; simpl in H;
        try discriminate.
      exact (cob_int z1 z2 f g E1 E2 E).
    + intros H. inversion H as [| | | a b f g E1 E2 E | | |]; subst.
      rewrite E1, E2. simpl. rewrite E. reflexivity.
  - simpl. split.
    + intros H.
      destruct (SFcompare f1 f2) as [[| |] |] eqn:E; simpl in H;
        try discriminate.
      constructor. exact E.
    + intros H. inversion H as [| | | | f g E | |]; subst.
      rewrite E. reflexivity.
  - simpl. split.
    + intros H. destruct (String.eqb_spec s1 s2) as [-> |]; simpl in H;
        [constructor | discriminate].
    + intros H. inversion H; subst. rewrite String.eqb_refl. reflexivity.
  - cbv zeta.
    set (c1 := itens_de (ordenar_lista (JList l1))).
    set (c2 := itens_de (ordenar_lista (JList l2))).
    assert (Hrec : forall i, (i < List.length c1)%nat ->
              (comparar_valores_rec n (nth i c1 JNull) (nth i c2 JNull)
                 (caminho_item p i) = Ok [] <->
               coberto (nth i c1 JNull) (nth i c2 JNull))).
    { intros i Hi. apply IH.
      pose proof (altura_item_ordenado _ l1 (nth_In c1 JNull Hi)). lia. }
    split.
    + intros H.
      match type of H with
      | bind (concat_mapM ?f ?ix) _ = _ =>
          destruct (concat_mapM f ix) as [rs |] eqn:E; simpl in H;
          [| discriminate]
      end.
      injection H as H. apply app_eq_nil in H. destruct H as [Hq ->].
      destruct (Nat.eqb_spec (List.length c1) (List.length c2)) as [Hlen |];
        [| discriminate Hq].
      constructor. fold c1 c2.
      apply (Forall2_de_nth _ JNull JNull); [exact Hlen |].
      intros i Hi. apply Hrec; [exact Hi |].
      rewrite concat_mapM_Ok_nil in E. specialize (E i).
      rewrite <- Hlen, Nat.max_id in E.
      assert (Hlt : Nat.ltb i (List.length c1) = true) by (apply Nat.ltb_lt; lia).
      rewrite Hlt in E. cbn [andb] in E. apply E. apply in_seq. lia.
    + intros H. inversion H as [| | | | | a b HF |]; subst. fold c1 c2 in HF.
      pose proof (Forall2_length HF) as Hlen.
      rewrite <- Hlen, Nat.eqb_refl, Nat.max_id. cbn [negb].
      rewrite concat_mapM_nil; [reflexivity |].
      intros i Hi. apply in_seq in Hi.
      assert (Hlt : Nat.ltb i (List.length c1) = true) by (apply Nat.ltb_lt; lia).
      rewrite Hlt. cbn [andb]. apply Hrec; [lia |].
      apply Forall2_nth; [exact HF | lia].
  - cbv zeta. simpl campos_de.
    assert (Hrec : forall k a b, dict_get d1 k = Ok a ->
              (comparar_valores_rec n a b (caminho_campo p k) = Ok [] <->
               coberto a b)).
    { intros k a b Ha. apply IH.
      pose proof (altura_campo (k, a) d1 (dict_get_In _ _ _ Ha)).
      simpl in *. lia. }
    split.
    + intros H.
      match type of H with
      | bind (concat_mapM ?f ?ks) _ = _ =>
          destruct (concat_mapM f ks) as [aus |] eqn:E; simpl in H;
          [| discriminate]
      end.
      match type of H with
      | bind (concat_mapM ?f ?ks) _ = _ =>
          destruct (concat_mapM f ks) as [com |] eqn:E'; simpl in H;
          [| discriminate]
      end.
      injection H as H. apply app_eq_nil in H. destruct H as [-> ->].
      rewrite concat_mapM_Ok_nil in E, E'.
      constructor. intros k Hk.
      destruct (pertence k (chaves d2)) eqn:Hp.
      * assert (Hin : In k (set_intersecao (chaves d1) (chaves d2)))
          by (apply set_intersecao_In; auto).
        specialize (E' k Hin). apply pertence_In in Hp.
        destruct (dict_get_chaves _ _ Hk) as [a Ha].
        destruct (dict_get_chaves _ _ Hp) as [b Hb].
        rewrite Ha, Hb in E'. simpl in E'.
        exists a, b. repeat split; try assumption.
        apply (Hrec k a b Ha). exact E'.
      * assert (Hin : In k (set_diferenca (chaves d1) (chaves d2)))
          by (apply set_diferenca_In; auto).
        specialize (E k Hin).
        destruct (dict_get_chaves _ _ Hk) as [a Ha].
        rewrite Ha in E. discriminate.
    + intros H. inversion H as [| | | | | | a b Hd]; subst.
      rewrite set_diferenca_nil.
      2: { rewrite <- (filter_false (chaves d1)). apply filter_ext_in.
           intros k Hk. apply negb_false_iff, pertence_In.
           destruct (Hd k Hk) as (a & b & _ & Hb & _).
           eapply dict_get_em_chaves; eauto. }
      cbn [concat_mapM bind app].
      rewrite concat_mapM_nil; [reflexivity |].
      intros k Hk. apply set_intersecao_In in Hk. destruct Hk as [Hk _].
      destruct (Hd k Hk) as (a & b & Ha & Hb & Hab).
      rewrite Ha, Hb. cbn [bind]. apply (Hrec k a b Ha). exact Hab.
Qed.

(** X2.  What an empty result means.  [comparar_valores] returns the empty list
    exactly when the right value covers the left one: same kinds, equal
    scalars (numbers being compared as floats), lists of one length that
    agree place by place after sorting, and every key of a left object
    present in the right object with a value that covers the left one.  So
    an empty result in both directions is needed before two objects can be
    said to have the same keys. *)
Theorem resultado_vazio (v1 v2 : json) (p : string) :
  comparar_valores v1 v2 p = Ok [] <-> coberto v1 v2.
Proof.
  unfold comparar_valores. apply comparar_valores_rec_vazio. lia.
Qed.

End EmptyResult.

(** * The list branch and the object branch, entry by entry *)

Lemma filter_particao {A : Type} (f : A -> bool) (l : list A) :
  Permutation (filter (fun x => negb (f x)) l ++ filter f l) l.
Proof.
  induction l as [| x l IH]; simpl; [constructor |].
  destruct (f x); simpl.
  - symmetry. apply Permutation_cons_app. symmetry. exact IH.
  - constructor. exact IH.
Qed.

Lemma concat_mapM_map {A B C : Type} (g : A -> B) (f : B -> result (list C))
    (l : list A) :
  concat_mapM f (map g l) = concat_mapM (fun x => f (g x)) l.
Proof.
  induction l as [| x l IH]; simpl; [reflexivity |].
  rewrite IH. reflexivity.
Qed.

Section Branches.
Context {RT : Runtime}.

(** X8.  Lists of one length.  The result is what the comparisons of the items
    return, place by place over the two sorted lists and in that order, each
    at path [caminho[i]]: no record about the length, none about a missing
    item, and the first exception of a place is the exception of the call. *)
Theorem listas_de_mesmo_tamanho (l1 l2 : list json) (p : string) :
  List.length l1 = List.length l2 ->
  comparar_valores (JList l1) (JList l2) p =
  concat_mapM
    (fun i => comparar_valores (nth i (itens_de (ordenar_lista (JList l1))) JNull)
                               (nth i (itens_de (ordenar_lista (JList l2))) JNull)
                               (caminho_item p i))
    (seq 0 (List.length l1)).
Proof.
  intros Hlen. rewrite comparar_valores_eq. unfold comparar_corpo.
  change (negb (obter_tipo (JList l1) =? obter_tipo (JList l2))%string)
    with false. cbv iota zeta.
  rewrite !length_ordenar_lista, <- Hlen, Nat.eqb_refl, Nat.max_id.
  cbn [negb].
  erewrite concat_mapM_ext.
  2: { intros i Hi. apply in_seq in Hi.
       assert (E : Nat.ltb i (List.length l1) = true)
         by (apply Nat.ltb_lt; lia).
       rewrite E. cbn [andb]. reflexivity. }
  destruct (concat_mapM _ _); reflexivity.
Qed.

(** X9.  Objects, field by field.  For a left object with distinct keys the
    records are those of a walk over its fields: a field whose key the
    right object lacks gives one CAMPO_AUSENTE_JSON2 record with the left
    value's text and kind, any other field gives what the comparison of the
    two values returns at the field's path.  The walk fixes the records;
    their order is the one in which the two key sets are iterated. *)
Theorem objetos_campo_a_campo (d1 d2 : list (string * json)) (p : string) :
  NoDup (chaves d1) ->
  mesmos_registros
    (comparar_valores (JDict d1) (JDict d2) p)
    (concat_mapM
       (fun kv =>
          match dict_get d2 (fst kv) with
          | Ok v2 => comparar_valores (snd kv) v2 (caminho_campo p (fst kv))
          | Err _ =>
              Ok [ {| caminho := caminho_campo p (fst kv);
                      tipo_diferenca := "CAMPO_AUSENTE_JSON2";
                      valor_json1 := py_str (snd kv);
                      tipo_json1 := obter_tipo (snd kv);
                      valor_json2 := "CAMPO_NAO_EXISTE";
                      tipo_json2 := "N/A";
                      detalhes := "Campo existe no JSON1 mas não no JSON2" |} ]
          end) d1).
Proof.
  intros Hnd. rewrite comparar_valores_eq. unfold comparar_corpo.
  change (negb (obter_tipo (JDict d1) =? obter_tipo (JDict d2))%string)
    with false. cbv iota zeta. simpl campos_de.
  set (F := fun k : string =>
    v1 <- dict_get d1 k ;;
    match dict_get d2 k with
    | Ok v2 => comparar_valores v1 v2 (caminho_campo p k)
    | Err _ =>
        Ok [ {| caminho := caminho_campo p k;
                tipo_diferenca := "CAMPO_AUSENTE_JSON2";
                valor_json1 := py_str v1;
                tipo_json1 := obter_tipo v1;
                valor_json2 := "CAMPO_NAO_EXISTE";
                tipo_json2 := "N/A";
                detalhes := "Campo existe no JSON1 mas não no JSON2" |} ]
    end).
  eapply mesmos_registros_trans.
  { apply mesmos_registros_bind.
    - apply (concat_mapM_perm _ F); [apply set_diferenca_perm |].
      intros k Hk. apply set_diferenca_In in Hk. destruct Hk as [_ Hk].
      unfold F. destruct (dict_get d1 k) as [a |]; simpl; [| reflexivity].
      rewrite dict_get_ausente; [reflexivity |].
      rewrite <- pertence_In, Hk. discriminate.
    - apply (concat_mapM_perm _ F); [apply set_intersecao_perm |].
      intros k Hk. apply set_intersecao_In in Hk. destruct Hk as [_ Hk].
      unfold F. destruct (dict_get d1 k) as [a |]; simpl; [| reflexivity].
      apply pertence_In, dict_get_chaves in Hk. destruct Hk as [b ->].
      reflexivity. }
  rewrite <- concat_mapM_app.
  eapply mesmos_registros_trans.
  { apply concat_mapM_perm_f. apply filter_particao. }
  unfold chaves. rewrite concat_mapM_map.
  erewrite concat_mapM_ext; [apply mesmos_registros_refl |].
  intros [k a] Hin. unfold F. simpl.
  rewrite (dict_get_NoDup d1 k a Hnd Hin). reflexivity.
Qed.

End Branches.

(** * The order of a canonical list *)

Lemma isort_map {A B : Type} (ltb : A -> A -> bool) (ltb' : B -> B -> bool)
    (f : A -> B) (l : list A) :
  (forall a b, ltb' (f a) (f b) = ltb a b) ->
  isort ltb' (map f l) = map f (isort ltb l).
Proof.
  intros H.
  assert (Hins : forall x s, insert ltb' (f x) (map f s) = map f (insert ltb x s)).
  { intros x s. induction s as [| y s IH]; simpl; [reflexivity |].
    rewrite H. destruct (ltb y x); simpl; [rewrite IH |]; reflexivity. }
  induction l as [| x l IH]; simpl; [reflexivity |].
  rewrite IH. apply Hins.
Qed.

Lemma StronglySorted_impl {A : Type} (R R' : A -> A -> Prop) (l : list A) :
  (forall a b, R a b -> R' a b) -> StronglySorted R l -> StronglySorted R' l.
Proof.
  intros H. induction 1 as [| a l _ IH Ha]; constructor; [exact IH |].
  eapply Forall_impl; [| exact Ha]. intros b. apply H.
Qed.

Lemma Sorted_map {A B : Type} (R : A -> A -> Prop) (R' : B -> B -> Prop)
    (f : A -> B) (l : list A) :
  (forall a b, R a b -> R' (f a) (f b)) -> Sorted R l -> Sorted R' (map f l).
Proof.
  intros H. induction 1 as [| a l _ IH Ha]; simpl; constructor; [exact IH |].
  destruct Ha; simpl; constructor. auto.
Qed.

Section ListOrder.
Context {RT : Runtime}.

Local Abbreviation decora := (fun x : json => (chave_de_ordem x, x)).

Lemma chave_lt_Ok (a b : chave_ord) (r : bool) :
  chave_lt a b = Ok r ->
  (exists x y, a = KNum x /\ b = KNum y) \/
  (exists s t, a = KStr s /\ b = KStr t).
Proof.
  destruct a, b; simpl; try discriminate; eauto.
Qed.

(** If the sort returns on two or more keys, they are all numbers or all
    strings. *)
Lemma sortedM_Ok_classe (l s : list (chave_ord * json)) :
  sortedM lt_decorado l = Ok s -> (2 <= List.length l)%nat ->
  Forall (fun a => exists x, fst a = KNum x) l \/
  Forall (fun a => exists t, fst a = KStr t) l.
Proof.
  revert s. induction l as [| x l IH]; intros s H Hlen; simpl in Hlen; [lia |].
  simpl in H. destruct (sortedM lt_decorado l) as [s' |] eqn:E; simpl in H;
    [| discriminate].
  pose proof (sortedM_perm _ _ _ E) as Hp.
  destruct s' as [| y s''].
  { apply Permutation_nil in Hp. subst l. simpl in Hlen. lia. }
  simpl in H. unfold lt_decorado at 1 in H.
  destruct (chave_lt (fst y) (fst x)) as [r |] eqn:Er; simpl in H;
    [| discriminate].
  assert (Hy : In y l) by (eapply Permutation_in; [exact Hp | left; reflexivity]).
  assert (Hl : Forall (fun a => exists x, fst a = KNum x) l \/
               Forall (fun a => exists t, fst a = KStr t) l).
  { destruct l as [| y' [| y'' l']].
    - contradiction.
    - destruct Hy as [<- | []].
      destruct (chave_lt_Ok _ _ _ Er) as [(a & b & Ha & Hb) | (a & b & Ha & Hb)];
        [left | right]; repeat constructor; eauto.
    - apply (IH _ eq_refl). simpl. lia. }
  destruct (chave_lt_Ok _ _ _ Er) as [(a & b & Ha & Hb) | (a & b & Ha & Hb)];
    destruct Hl as [Hl | Hl].
  - left. constructor; eauto.
  - rewrite Forall_forall in Hl. destruct (Hl y Hy) as [t Ht]. congruence.
  - rewrite Forall_forall in Hl. destruct (Hl y Hy) as [t Ht]. congruence.
  - right. constructor; eauto.
Qed.

Lemma ordenavel_sorted (l : list json) :
  ordenavel l = true ->
  sorted l = Ok (map snd (isort (lt_true lt_decorado) (map decora l))).
Proof.
  unfold ordenavel, sorted. rewrite !orb_true_iff. intros [[H | H] | H].
  - apply Nat.leb_le in H. destruct l as [| x [| y l]]; simpl in H; try lia;
      reflexivity.
  - fold lt_decorado.
    rewrite (sortedM_isort_total lt_decorado
               (fun a => exists x, fst a = KNum x)); [reflexivity | |].
    + intros a b [x Hx] [y Hy]. unfold lt_decorado. rewrite Hx, Hy.
      simpl. eauto.
    + apply Forall_forall. intros a Ha. apply in_map_iff in Ha.
      destruct Ha as (x & <- & Hx). rewrite forallb_forall in H.
      specialize (H x Hx). unfold chave_numero in H. simpl.
      destruct (chave_de_ordem x); try discriminate. eauto.
  - fold lt_decorado.
    rewrite (sortedM_isort_total lt_decorado
               (fun a => exists t, fst a = KStr t)); [reflexivity | |].
    + intros a b [x Hx] [y Hy]. unfold lt_decorado. rewrite Hx, Hy.
      simpl. eauto.
    + apply Forall_forall. intros a Ha. apply in_map_iff in Ha.
      destruct Ha as (x & <- & Hx). rewrite forallb_forall in H.
      specialize (H x Hx). unfold chave_texto in H. simpl.
      destruct (chave_de_ordem x); try discriminate. eauto.
Qed.

Lemma nao_ordenavel_sorted (l : list json) :
  ordenavel l = false -> sorted l = Err TypeError.
Proof.
  intros H. destruct (sorted l) as [s | e] eqn:E.
  - exfalso. unfold sorted in E. inv_bind E. clear E.
    unfold ordenavel in H. rewrite !orb_false_iff in H.
    destruct H as [[Hlen Hn] Ht]. apply Nat.leb_gt in Hlen.
    fold lt_decorado in Ha. apply sortedM_Ok_classe in Ha.
    2: { rewrite length_map. lia. }
    destruct Ha as [Ha | Ha].
    + assert (forallb chave_numero l = true); [| congruence].
      apply forallb_forall. intros x Hx. rewrite Forall_forall in Ha.
      destruct (Ha (decora x)) as [n Hk];
        [exact (in_map (fun y => (chave_de_ordem y, y)) l x Hx) |].
      simpl in Hk. unfold chave_numero. rewrite Hk. reflexivity.
    + assert (forallb chave_texto l = true); [| congruence].
      apply forallb_forall. intros x Hx. rewrite Forall_forall in Ha.
      destruct (Ha (decora x)) as [n Hk];
        [exact (in_map (fun y => (chave_de_ordem y, y)) l x Hx) |].
      simpl in Hk. unfold chave_texto. rewrite Hk. reflexivity.
  - f_equal. eapply sorted_so_TypeError; eauto.
Qed.

Lemma chave_de_ordem_classe (x : json) :
  chave_numero (ordenar x) = chave_numero x /\
  chave_texto (ordenar x) = chave_texto x.
Proof.
  destruct x as [| b | z | f | s | l | d]; split; reflexivity.
Qed.

Lemma ordenavel_ordenar (l : list json) :
  ordenavel (map ordenar l) = ordenavel l.
Proof.
  unfold ordenavel. rewrite length_map. f_equal; [f_equal |].
  - induction l as [| x l IH]; simpl; [reflexivity |].
    rewrite IH, (proj1 (chave_de_ordem_classe x)). reflexivity.
  - induction l as [| x l IH]; simpl; [reflexivity |].
    rewrite IH, (proj2 (chave_de_ordem_classe x)). reflexivity.
Qed.

Lemma ordenar_lista_inteiros (zs : list Z) :
  ordenar_lista (JList (map JInt zs)) = JList (map JInt (isort Z.ltb zs)).
Proof.
  rewrite ordenar_lista_eq. unfold tenta_ordenar.
  rewrite map_map. simpl. rewrite ordenavel_sorted.
  2: { unfold ordenavel. replace (forallb chave_numero (map JInt zs))
         with true; [rewrite orb_true_r; reflexivity |].
       symmetry. apply forallb_forall. intros x Hx.
       apply in_map_iff in Hx. destruct Hx as (z & <- & _). reflexivity. }
  rewrite map_map.
  rewrite (isort_map Z.ltb (lt_true lt_decorado)
             (fun z => (chave_de_ordem (JInt z), JInt z))).
  - rewrite map_map. reflexivity.
  - intros a b. unfold lt_true, lt_decorado. simpl.
    unfold num_ltb, Z.ltb. simpl. destruct (a ?= b)%Z; reflexivity.
Qed.

Lemma ordenar_lista_textos (ss : list string) :
  ordenar_lista (JList (map JStr ss)) = JList (map JStr (isort String.ltb ss)).
Proof.
  rewrite ordenar_lista_eq. unfold tenta_ordenar.
  rewrite map_map. simpl. rewrite ordenavel_sorted.
  2: { unfold ordenavel. replace (forallb chave_texto (map JStr ss))
         with true; [apply orb_true_r |].
       symmetry. apply forallb_forall. intros x Hx.
       apply in_map_iff in Hx. destruct Hx as (z & <- & _). reflexivity. }
  rewrite map_map.
  rewrite (isort_map String.ltb (lt_true lt_decorado)
             (fun z => (chave_de_ordem (JStr z), JStr z))).
  - rewrite map_map. reflexivity.
  - intros a b. unfold lt_true, lt_decorado. simpl.
    destruct (String.ltb a b); reflexivity.
Qed.

(** X10.  The order of a canonical list.  When the items number two or
    more and their sort keys are neither all numbers nor all strings,
    [sorted] raises [TypeError] and [ordenar_lista] returns the items in the
    order they came in, each in canonical form; so such lists are compared
    by position.  Otherwise, and with no NaN among the items, the items come
    out with every neighbour not below the one before it.  In particular a
    list of integers comes out as the ascending arrangement of its numbers,
    and a list of strings as the ascending arrangement of its strings in
    code-point order. *)
Theorem ordem_da_lista_canonica :
  (forall l, ordenavel l = false ->
     ordenar_lista (JList l) = JList (map ordenar l)) /\
  (forall l, ordenavel l = true -> forallb nao_nan l = true ->
     Sorted chaves_em_ordem (itens_de (ordenar_lista (JList l)))) /\
  (forall zs, exists zs',
     ordenar_lista (JList (map JInt zs)) = JList (map JInt zs') /\
     Permutation zs' zs /\ StronglySorted Z.le zs') /\
  (forall ss, exists ss',
     ordenar_lista (JList (map JStr ss)) = JList (map JStr ss') /\
     Permutation ss' ss /\
     StronglySorted (fun s t => String.ltb t s = false) ss').
Proof.
  split; [| split; [| split]].
  - intros l H. rewrite ordenar_lista_eq. unfold tenta_ordenar.
    rewrite nao_ordenavel_sorted; [reflexivity |].
    rewrite ordenavel_ordenar. exact H.
  - intros l H _. rewrite ordenar_lista_eq. unfold tenta_ordenar.
    rewrite <- ordenavel_ordenar in H.
    destruct (sorted (map ordenar l)) as [s | e] eqn:E.
    2: { rewrite ordenavel_sorted in E by exact H. discriminate. }
    simpl. unfold sorted in E. inv_bind E. injection E as <-.
    pose proof (sortedM_perm _ _ _ Ha) as Hp.
    apply (sortedM_ordenada _ (fun a b => chave_lt_asym (fst a) (fst b))) in Ha.
    assert (Hdec : Forall (fun a => fst a = chave_de_ordem (snd a)) a).
    { eapply Permutation_Forall; [symmetry; exact Hp |].
      apply Forall_forall. intros q Hq. apply in_map_iff in Hq.
      destruct Hq as (x & <- & _). reflexivity. }
    clear Hp. induction Ha as [| q a Hs IH Hhd]; simpl; [constructor |].
    inversion Hdec as [| ? ? Hq Hdec']; subst.
    constructor; [apply IH; exact Hdec' |].
    destruct Hhd as [| q' a' Hqq]; simpl; constructor.
    inversion Hdec' as [| ? ? Hq' _]; subst.
    unfold chaves_em_ordem. rewrite <- Hq, <- Hq'. exact Hqq.
  - intros zs. exists (isort Z.ltb zs). split; [| split].
    + apply ordenar_lista_inteiros.
    + apply isort_perm.
    + apply (StronglySorted_impl (nao_acima Z.ltb)).
      * unfold nao_acima. intros a b H. apply Z.ltb_ge in H. exact H.
      * apply (isort_ssorted Z.ltb (fun _ => True)).
        -- intros a b _ _. rewrite Z.ltb_lt, Z.ltb_ge. lia.
        -- intros a b c _ _ _. rewrite !Z.ltb_lt. lia.
        -- apply Forall_forall. auto.
  - intros ss. exists (isort String.ltb ss). split; [| split].
    + apply ordenar_lista_textos.
    + apply isort_perm.
    + apply (isort_ssorted String.ltb (fun _ => True)).
      * intros a b _ _. apply string_ltb_asym.
      * intros a b c _ _ _. apply string_ltb_negtrans.
      * apply Forall_forall. auto.
Qed.

End ListOrder.

(** * Integers that [float] holds exactly *)

Lemma digits2_pos_iter (p k : positive) :
  digits2_pos (Pos.iter xO p k) = (digits2_pos p + k)%positive.
Proof.
  induction k as [| k IH] using Pos.peano_ind.
  - simpl. rewrite Pos.add_1_r. reflexivity.
  - rewrite Pos.iter_succ. simpl. rewrite IH, Pos.add_succ_r. reflexivity.
Qed.

Lemma Zpos_iter_xO (p k : positive) :
  Z.pos (Pos.iter xO p k) = Z.pos p * 2 ^ Z.pos k.
Proof.
  induction k as [| k IH] using Pos.peano_ind.
  - simpl. lia.
  - rewrite Pos.iter_succ, (Pos2Z.inj_xO (Pos.iter xO p k)), IH, Pos2Z.inj_succ.
    rewrite Z.pow_succ_r by lia. lia.
Qed.

Lemma digits2_pos_limites (p : positive) :
  2 ^ (Z.pos (digits2_pos p) - 1) <= Z.pos p < 2 ^ Z.pos (digits2_pos p).
Proof.
  induction p as [p IH | p IH |]; simpl digits2_pos.
  - rewrite Pos2Z.inj_succ, (Pos2Z.inj_xI p).
    replace (Z.succ (Z.pos (digits2_pos p)) - 1)
      with (Z.succ (Z.pos (digits2_pos p) - 1)) by lia.
    rewrite !Z.pow_succ_r by lia. lia.
  - rewrite Pos2Z.inj_succ, (Pos2Z.inj_xO p).
    replace (Z.succ (Z.pos (digits2_pos p)) - 1)
      with (Z.succ (Z.pos (digits2_pos p) - 1)) by lia.
    rewrite !Z.pow_succ_r by lia. lia.
  - simpl. lia.
Qed.

(** A mantissa of full width is neither shifted nor rounded. *)
Lemma binary_round_aux_exato (s : bool) (m : positive) (e : Z) :
  Z.pos (digits2_pos m) = 53 -> -1074 <= e <= 971 ->
  binary_round_aux 53 1024 s (Z.pos m) e loc_Exact = S754_finite s m e.
Proof.
  intros Hd He. unfold binary_round_aux, shr_fexp.
  cbn [Zdigits2 shr_record_of_loc]. rewrite Hd.
  assert (E : fexp 53 1024 (53 + e) - e = 0).
  { unfold fexp, emin. lia. }
  rewrite E. cbn [shr shr_m loc_of_shr_record round_nearest_even Zdigits2].
  rewrite Hd, E. cbn [shr shr_m].
  destruct (Z.leb_spec e (1024 - 53)); [reflexivity | lia].
Qed.

Lemma binary_round_exato (s : bool) (p : positive) :
  Z.pos p < 2 ^ 53 ->
  exists m e,
    binary_round 53 1024 s p 0 = S754_finite s m e /\
    Z.pos m * 2 ^ (e + 1074) = Z.pos p * 2 ^ 1074.
Proof.
  intros Hp. pose proof (digits2_pos_limites p) as Hd.
  assert (Hd53 : Z.pos (digits2_pos p) <= 53).
  { destruct (Z.le_gt_cases (Z.pos (digits2_pos p)) 53) as [H | H];
      [exact H | exfalso].
    assert (2 ^ 53 <= 2 ^ (Z.pos (digits2_pos p) - 1))
      by (apply Z.pow_le_mono_r; lia).
    lia. }
  unfold binary_round, shl_align.
  assert (E : fexp 53 1024 (Z.pos (digits2_pos p) + 0)
              = Z.pos (digits2_pos p) - 53).
  { unfold fexp, emin. lia. }
  rewrite E.
  destruct (Z.pos (digits2_pos p) - 53 - 0) as [| q | q] eqn:Eq.
  - exists p, 0. split; [| reflexivity].
    apply binary_round_aux_exato; lia.
  - lia.
  - exists (Pos.iter xO p q), (Z.pos (digits2_pos p) - 53). split.
    + apply binary_round_aux_exato; [| lia].
      rewrite digits2_pos_iter, Pos2Z.inj_add. lia.
    + rewrite Zpos_iter_xO.
      replace (Z.pos (digits2_pos p) - 53 + 1074) with (1074 - Z.pos q) by lia.
      rewrite <- Z.mul_assoc, <- Z.pow_add_r by lia.
      do 2 f_equal. lia.
Qed.

(** [float(z)] returns, with the value of [z], for every integer up to
    [2^53] in magnitude. *)
Lemma float_of_int_exato (z : Z) :
  Z.abs z <= 2 ^ 53 ->
  exists f, float_of_int z = Ok f /\ valor_escalado f = Some (z * 2 ^ 1074).
Proof.
  intros Hz. unfold float_of_int, binary_normalize.
  destruct (Z.eq_dec (Z.abs z) (2 ^ 53)) as [E | Hne].
  { assert (Hc : z = 2 ^ 53 \/ z = - 2 ^ 53) by lia.
    destruct Hc as [-> | ->]; eexists; split; vm_compute; reflexivity. }
  destruct z as [| p | p].
  - eexists. split; reflexivity.
  - destruct (binary_round_exato false p) as (m & e & -> & Hv); [lia |].
    eexists. split; [reflexivity |]. simpl. f_equal. exact Hv.
  - change (Z.abs (Z.neg p)) with (Z.pos p) in Hz, Hne.
    destruct (binary_round_exato true p) as (m & e & -> & Hv); [lia |].
    eexists. split; [reflexivity |]. cbn [valor_escalado]. f_equal.
    rewrite <- !Pos2Z.opp_pos. lia.
Qed.

(** Floats that compare equal stand for the same number. *)
Lemma SFcompare_Eq_valor (f g : float) (x y : Z) :
  SFcompare f g = Some Eq ->
  valor_escalado f = Some x -> valor_escalado g = Some y -> x = y.
Proof.
  destruct f as [s | s | | s m e], g as [s' | s' | | s' m' e']; simpl;
    try discriminate.
  - congruence.
  - destruct s'; discriminate.
  - destruct s; discriminate.
  - intros H Hx Hy. injection Hx as <-. injection Hy as <-.
    destruct s, s'; try discriminate;
      destruct (Z.compare_spec e e') as [-> | |]; try discriminate;
      change (Pos.compare_cont Eq m m') with (Pos.compare m m') in H;
      destruct (Pos.compare_spec m m') as [-> | |]; try discriminate;
      reflexivity.
Qed.

Section ExactIntegers.
Context {RT : Runtime}.

(** X7.  Integers up to [2^53] in magnitude are compared exactly.  The
    comparison of two such integers returns nothing when they are the same
    number, and otherwise one VALOR_DIFERENTE record at the path, with the
    decimal texts of both; the conversion to [float] that precedes the test
    loses nothing on them. *)
Theorem inteiros_ate_2_53_exatos (a b : Z) (p : string) :
  Z.abs a <= 2 ^ 53 -> Z.abs b <= 2 ^ 53 ->
  comparar_valores (JInt a) (JInt b) p =
  Ok (if Z.eqb a b then []
      else [ {| caminho := p;
                tipo_diferenca := "VALOR_DIFERENTE";
                valor_json1 := str_int a;
                tipo_json1 := "int";
                valor_json2 := str_int b;
                tipo_json2 := "int";
                detalhes := "Valores diferentes: " +++ str_int a
                              +++ " vs " +++ str_int b |} ]).
Proof.
  intros Ha Hb. rewrite comparar_valores_eq. unfold comparar_corpo.
  change (negb (obter_tipo (JInt a) =? obter_tipo (JInt b))%string) with false.
  cbv iota. cbn [normalizar_valor].
  destruct (float_of_int_exato a Ha) as (f & Ef & Vf).
  destruct (float_of_int_exato b Hb) as (g & Eg & Vg).
  rewrite Ef, Eg. cbn [bind].
  change (py_eqb (JFloat f) (JFloat g))
    with (match SFcompare f g with Some Eq => true | _ => false end).
  destruct (Z.eqb_spec a b) as [-> | Hne].
  - assert (f = g) by congruence. subst g.
    rewrite SFcompare_refl; [reflexivity |].
    eapply float_of_int_nao_nan; eauto.
  - destruct (SFcompare f g) as [[| |] |] eqn:E; try reflexivity.
    exfalso. apply Hne.
    pose proof (SFcompare_Eq_valor f g _ _ E Vf Vg) as H.
    apply Z.mul_reg_r in H; [exact H |].
    apply Z.pow_nonzero; lia.
Qed.

End ExactIntegers.

(** * The range of [float] *)

Lemma shr_1_div2 (m : Z) (r s : bool) :
  0 <= m ->
  shr_m (shr_1 (Build_shr_record m r s)) = m / 2 /\
  shr_r (shr_1 (Build_shr_record m r s)) = Z.testbit m 0.
Proof.
  intros H. rewrite <- Z.div2_div, Z.bit0_odd.
  destruct m as [| [p | p |] | p]; try lia; split; reflexivity.
Qed.

Lemma iter_shr_1 (p : positive) (m : Z) (r s : bool) :
  0 <= m ->
  shr_m (iter_pos shr_1 p (Build_shr_record m r s)) = m / 2 ^ Z.pos p /\
  shr_r (iter_pos shr_1 p (Build_shr_record m r s)) = Z.testbit m (Z.pos p - 1).
Proof.
  revert m r s. induction p as [p IH | p IH |]; intros m r s Hm.
  - cbn [iter_pos].
    destruct (shr_1_div2 m r s Hm) as [E1 E2].
    destruct (shr_1 (Build_shr_record m r s)) as [m1 r1 s1]. cbn [shr_m shr_r] in E1, E2.
    assert (H1 : 0 <= m1) by (subst m1; apply Z.div_pos; lia).
    destruct (IH m1 r1 s1 H1) as [E3 E4].
    destruct (iter_pos shr_1 p (Build_shr_record m1 r1 s1)) as [m2 r2 s2].
    cbn [shr_m shr_r] in E3, E4.
    assert (H2 : 0 <= m2) by (subst m2; apply Z.div_pos; [lia | apply Z.pow_pos_nonneg; lia]).
    destruct (IH m2 r2 s2 H2) as [E5 E6]. rewrite E5, E6.
    subst m2 m1. split.
    + rewrite !Z.div_div
        by first [lia | apply Z.pow_nonzero; lia | apply Z.pow_pos_nonneg; lia].
      f_equal. rewrite (Pos2Z.inj_xI p).
      replace (2 * Z.pos p + 1) with (1 + Z.pos p + Z.pos p) by lia.
      rewrite !Z.pow_add_r by lia. lia.
    + rewrite Z.div_pow2_bits by lia.
      change 2 with (2 ^ 1) at 1. rewrite Z.div_pow2_bits by lia.
      f_equal. lia.
  - cbn [iter_pos].
    destruct (IH m r s Hm) as [E3 E4].
    destruct (iter_pos shr_1 p (Build_shr_record m r s)) as [m2 r2 s2].
    cbn [shr_m shr_r] in E3, E4.
    assert (H2 : 0 <= m2) by (subst m2; apply Z.div_pos; [lia | apply Z.pow_pos_nonneg; lia]).
    destruct (IH m2 r2 s2 H2) as [E5 E6]. rewrite E5, E6.
    subst m2. split.
    + rewrite !Z.div_div
        by first [lia | apply Z.pow_nonzero; lia | apply Z.pow_pos_nonneg; lia].
      f_equal. rewrite (Pos2Z.inj_xO p).
      replace (2 * Z.pos p) with (Z.pos p + Z.pos p) by lia.
      rewrite !Z.pow_add_r by lia. lia.
    + rewrite Z.div_pow2_bits by lia. f_equal. lia.
  - cbn [iter_pos]. destruct (shr_1_div2 m r s Hm) as [E1 E2].
    rewrite E1, E2. split; reflexivity.
Qed.

Lemma digits2_pos_unico (p : positive) (n : Z) :
  2 ^ (n - 1) <= Z.pos p < 2 ^ n -> Z.pos (digits2_pos p) = n.
Proof.
  intros H. pose proof (digits2_pos_limites p) as Hd.
  set (d := Z.pos (digits2_pos p)) in *.
  assert (Hn : 0 < n).
  { destruct (Z.lt_ge_cases 0 n) as [|Hle]; [assumption |].
    assert (2 ^ n <= 1).
    { destruct (Z.eq_dec n 0) as [-> | ]; [simpl; lia |].
      rewrite Z.pow_neg_r by lia. lia. }
    lia. }
  destruct (Z.lt_trichotomy d n) as [Hlt | [E | Hgt]]; [| exact E |]; exfalso.
  - assert (2 ^ d <= 2 ^ (n - 1)) by (apply Z.pow_le_mono_r; lia). lia.
  - assert (2 ^ n <= 2 ^ (d - 1)) by (apply Z.pow_le_mono_r; lia). lia.
Qed.

Lemma round_nearest_even_limites (m : Z) (r s : bool) :
  let m' := round_nearest_even m
              (loc_of_shr_record (Build_shr_record m r s)) in
  m <= m' <= m + 1 /\
  (r = false -> m' = m) /\
  (r = true -> Z.odd m = true -> m' = m + 1).
Proof.
  destruct r, s; simpl; repeat split; try lia; try discriminate;
    try (intros _ Ho; rewrite <- Z.negb_odd, Ho; reflexivity);
    destruct (Z.even m); lia.
Qed.

Lemma segunda_etapa (sx : bool) (m2 k : Z) :
  2 ^ 52 <= m2 <= 2 ^ 53 -> 1 <= k ->
  (let '(mrs, e) := shr_fexp 53 1024 m2 k loc_Exact in
   match shr_m mrs with
   | Z0 => S754_zero sx
   | Zpos m => if e <=? 1024 - 53 then S754_finite sx m e else S754_infinity sx
   | Zneg _ => S754_nan
   end) =
  if m2 <? 2 ^ 53
  then (if k <=? 971 then S754_finite sx (Z.to_pos m2) k else S754_infinity sx)
  else (if k + 1 <=? 971 then S754_finite sx (2 ^ 52) (k + 1)
        else S754_infinity sx).
Proof.
  intros Hm Hk. destruct (Z.ltb_spec m2 (2 ^ 53)) as [Hlt | Hge].
  - destruct m2 as [| q | q]; try (exfalso; lia).
    assert (Hd : Z.pos (digits2_pos q) = 53).
    { apply digits2_pos_unico. change (53 - 1) with 52. lia. }
    unfold shr_fexp. cbn [Zdigits2 shr_record_of_loc]. rewrite Hd.
    assert (E : fexp 53 1024 (53 + k) - k = 0) by (unfold fexp, emin; lia).
    rewrite E. cbn [shr shr_m]. reflexivity.
  - assert (m2 = 2 ^ 53) by lia. subst m2.
    unfold shr_fexp.
    change (Zdigits2 (2 ^ 53)) with 54.
    assert (E : fexp 53 1024 (54 + k) - k = 1) by (unfold fexp, emin; lia).
    rewrite E. cbn [shr shr_record_of_loc iter_pos].
    change (shr_m (shr_1 (Build_shr_record (2 ^ 53) false false)))
      with (2 ^ 52).
    change (2 ^ 52) with (Z.pos (2 ^ 52)) at 1. cbv iota.
    replace (k + 1 <=? 1024 - 53) with (k + 1 <=? 971) by reflexivity.
    reflexivity.
Qed.

Lemma binary_round_grande (sx : bool) (p : positive) :
  2 ^ 53 <= Z.pos p ->
  (Z.pos p < 2 ^ 1024 - 2 ^ 970 ->
   exists m e, binary_round 53 1024 sx p 0 = S754_finite sx m e) /\
  (2 ^ 1024 - 2 ^ 970 <= Z.pos p ->
   binary_round 53 1024 sx p 0 = S754_infinity sx).
Proof.
  intros Hp. pose proof (digits2_pos_limites p) as Hd.
  set (d := Z.pos (digits2_pos p)) in *.
  assert (Hd54 : 54 <= d).
  { destruct (Z.lt_ge_cases d 54) as [H | H]; [exfalso | exact H].
    assert (2 ^ d <= 2 ^ 53) by (apply Z.pow_le_mono_r; lia). lia. }
  unfold binary_round, shl_align. fold d.
  assert (E : fexp 53 1024 (d + 0) = d - 53) by (unfold fexp, emin; lia).
  rewrite E, Z.sub_0_r.
  destruct (d - 53) as [| kp | kp] eqn:Ek; try lia.
  unfold binary_round_aux.
  assert (Hs1 : shr_fexp 53 1024 (Z.pos p) 0 loc_Exact =
                (iter_pos shr_1 kp (Build_shr_record (Z.pos p) false false),
                 Z.pos kp)).
  { unfold shr_fexp. cbn [Zdigits2 shr_record_of_loc]. fold d.
    rewrite E, Z.sub_0_r. reflexivity. }
  rewrite Hs1.
  destruct (iter_shr_1 kp (Z.pos p) false false) as [Em Er]; [lia |].
  destruct (iter_pos shr_1 kp (Build_shr_record (Z.pos p) false false))
    as [m1 r1 s1].
  cbn [shr_m shr_r] in Em, Er.
  assert (Hpk : 0 < 2 ^ Z.pos kp) by (apply Z.pow_pos_nonneg; lia).
  assert (Hdk : d = Z.pos kp + 53) by lia.
  assert (Hm1 : 2 ^ 52 <= m1 < 2 ^ 53).
  { subst m1. split.
    - apply Z.div_le_lower_bound; [exact Hpk |].
      replace (d - 1) with (Z.pos kp + 52) in Hd by lia.
      rewrite Z.pow_add_r in Hd by lia. lia.
    - apply Z.div_lt_upper_bound; [exact Hpk |].
      rewrite Hdk, Z.pow_add_r in Hd by lia. lia. }
  destruct (round_nearest_even_limites m1 r1 s1) as (Hm2 & Hr0 & Hr1).
  cbn [shr_m].
  set (m2 := round_nearest_even m1
               (loc_of_shr_record (Build_shr_record m1 r1 s1))) in *.
  rewrite (segunda_etapa sx m2 (Z.pos kp)) by lia.
  (* the three ranges of the width of the integer *)
  destruct (Z.lt_trichotomy d 1024) as [Hlt | [Heq | Hgt]].
  - (* at most 1023 bits: always finite *)
    assert (Hfin : Z.pos p < 2 ^ 1024 - 2 ^ 970).
    { assert (2 ^ d <= 2 ^ 1023) by (apply Z.pow_le_mono_r; lia).
      assert (2 ^ 1023 < 2 ^ 1024 - 2 ^ 970) by (vm_compute; reflexivity).
      lia. }
    split; [| intros; lia]. intros _.
    destruct (m2 <? 2 ^ 53).
    + destruct (Z.leb_spec (Z.pos kp) 971); [eauto | lia].
    + destruct (Z.leb_spec (Z.pos kp + 1) 971); [eauto | lia].
  - (* 1024 bits: the rounding decides *)
    assert (Hk : Z.pos kp = 971) by lia. rewrite Hk in *.
    assert (Hq : Z.pos p = 2 ^ 971 * m1 + Z.pos p mod 2 ^ 971).
    { subst m1. apply Z.div_mod. lia. }
    assert (Hrem : 0 <= Z.pos p mod 2 ^ 971 < 2 ^ 971)
      by (apply Z.mod_pos_bound; lia).
    assert (Hbit : r1 = true <-> 2 ^ 970 <= Z.pos p mod 2 ^ 971).
    { rewrite Er. change (971 - 1) with 970.
      rewrite Z.testbit_true by lia.
      set (q := Z.pos p mod 2 ^ 971) in *.
      assert (Hdiv : Z.pos p / 2 ^ 970 = 2 * m1 + q / 2 ^ 970).
      { rewrite Hq. change (2 ^ 971) with (2 ^ 970 * 2).
        replace (2 ^ 970 * 2 * m1 + q) with (q + (2 * m1) * 2 ^ 970) by lia.
        rewrite Z.div_add by lia. lia. }
      rewrite Hdiv.
      replace (2 * m1 + q / 2 ^ 970) with (q / 2 ^ 970 + m1 * 2) by lia.
      rewrite Z.mod_add by lia.
      assert (Hq2 : 0 <= q / 2 ^ 970 < 2).
      { split; [apply Z.div_pos; lia |].
        apply Z.div_lt_upper_bound; [lia |].
        change (2 ^ 970 * 2) with (2 ^ 971). lia. }
      rewrite Z.mod_small by lia.
      split; intros H.
      - assert (Hone : q / 2 ^ 970 = 1) by exact H.
        pose proof (Z.mul_div_le q (2 ^ 970) ltac:(lia)). lia.
      - assert (1 <= q / 2 ^ 970)
          by (apply Z.div_le_lower_bound; lia).
        lia. }
    assert (E1 : 2 ^ 1024 - 2 ^ 970 = 2 ^ 971 * (2 ^ 53 - 1) + 2 ^ 970)
      by (vm_compute; reflexivity).
    split.
    + intros Hfin.
      assert (Hm2lt : m2 < 2 ^ 53).
      { destruct (Z.eq_dec m1 (2 ^ 53 - 1)) as [Em1 | Hne]; [| lia].
        assert (Hr : r1 = false).
        { destruct r1; [| reflexivity]. exfalso.
          assert (2 ^ 970 <= Z.pos p mod 2 ^ 971) by (apply Hbit; reflexivity).
          rewrite Em1 in Hq. lia. }
        rewrite (Hr0 Hr). lia. }
      destruct (Z.ltb_spec m2 (2 ^ 53)); [| lia]. simpl. eauto.
    + intros Hinf.
      assert (Em1 : m1 = 2 ^ 53 - 1).
      { destruct (Z.eq_dec m1 (2 ^ 53 - 1)) as [Em1 | Hne]; [exact Em1 |].
        exfalso. assert (m1 <= 2 ^ 53 - 2) by lia.
        assert (2 ^ 971 * m1 <= 2 ^ 971 * (2 ^ 53 - 2))
          by (apply Z.mul_le_mono_nonneg_l; lia).
        lia. }
      assert (Hr : r1 = true).
      { apply Hbit. rewrite Em1 in Hq. lia. }
      assert (Em2 : m2 = 2 ^ 53).
      { rewrite (Hr1 Hr); [lia |]. rewrite Em1. reflexivity. }
      rewrite Em2. reflexivity.
  - (* 1025 bits or more: always infinite *)
    assert (Hinf : 2 ^ 1024 - 2 ^ 970 <= Z.pos p).
    { assert (2 ^ 1024 <= 2 ^ (d - 1)) by (apply Z.pow_le_mono_r; lia).
      assert (0 < 2 ^ 970) by (apply Z.pow_pos_nonneg; lia). lia. }
    split; [intros; lia |]. intros _.
    destruct (m2 <? 2 ^ 53).
    + destruct (Z.leb_spec (Z.pos kp) 971); [lia | reflexivity].
    + destruct (Z.leb_spec (Z.pos kp + 1) 971); [lia | reflexivity].
Qed.

(** Where [float(z)] stops returning. *)
Lemma float_of_int_limite (z : Z) :
  float_of_int z = Err OverflowError <-> 2 ^ 1024 - 2 ^ 970 <= Z.abs z.
Proof.
  assert (H53 : 2 ^ 53 < 2 ^ 1024 - 2 ^ 970) by (vm_compute; reflexivity).
  destruct (Z.le_gt_cases (Z.abs z) (2 ^ 53)) as [Hle | Hgt].
  { destruct (float_of_int_exato z Hle) as (f & -> & _).
    split; [discriminate | lia]. }
  unfold float_of_int, binary_normalize.
  destruct z as [| p | p]; [simpl in Hgt; lia | |].
  - change (Z.abs (Z.pos p)) with (Z.pos p) in *.
    destruct (binary_round_grande false p) as [Hfin Hinf]; [lia |].
    split.
    + intros H.
      destruct (Z.le_gt_cases (2 ^ 1024 - 2 ^ 970) (Z.pos p)) as [Hc | Hc];
        [exact Hc | exfalso].
      destruct Hfin as (m & e & E); [lia |]. rewrite E in H. discriminate.
    + intros H. rewrite (Hinf H). reflexivity.
  - change (Z.abs (Z.neg p)) with (Z.pos p) in *.
    destruct (binary_round_grande true p) as [Hfin Hinf]; [lia |].
    split.
    + intros H.
      destruct (Z.le_gt_cases (2 ^ 1024 - 2 ^ 970) (Z.pos p)) as [Hc | Hc];
        [exact Hc | exfalso].
      destruct Hfin as (m & e & E); [lia |]. rewrite E in H. discriminate.
    + intros H. rewrite (Hinf H). reflexivity.
Qed.

Section FloatRange.
Context {RT : Runtime}.

(** X19.  The range of [float].  [float(z)] raises [OverflowError] exactly
    for the integers of magnitude [2^1024 - 2^970] and above (the first
    that round to a value beyond the largest finite float); so those are
    the integers that make a comparison raise, and two integers compare
    without an exception exactly when both are below that bound. *)
Theorem limite_do_float :
  (forall z, float_of_int z = Err OverflowError <->
             2 ^ 1024 - 2 ^ 970 <= Z.abs z) /\
  (forall z, cabe_em_float (JInt z) = true <->
             Z.abs z < 2 ^ 1024 - 2 ^ 970) /\
  (forall a b p,
     comparar_valores (JInt a) (JInt b) p = Err OverflowError <->
     2 ^ 1024 - 2 ^ 970 <= Z.max (Z.abs a) (Z.abs b)).
Proof.
  assert (Hso : forall z e, float_of_int z = Err e -> e = OverflowError).
  { intros z e. unfold float_of_int.
    destruct (binary_normalize 53 1024 z 0 false); try discriminate.
    intros H. injection H as <-. reflexivity. }
  split; [exact float_of_int_limite | split].
  - intros z. unfold cabe_em_float.
    pose proof (float_of_int_limite z) as H.
    destruct (float_of_int z) as [f | e] eqn:E.
    + split; [intros _ | reflexivity].
      destruct (Z.lt_ge_cases (Z.abs z) (2 ^ 1024 - 2 ^ 970)) as [Hc | Hc];
        [exact Hc |].
      apply H in Hc. discriminate.
    + rewrite (Hso z e E) in H. split; [discriminate |].
      intros Hc. assert (2 ^ 1024 - 2 ^ 970 <= Z.abs z) by (apply H; reflexivity).
      lia.
  - intros a b p. rewrite comparar_valores_eq. unfold comparar_corpo.
    change (negb (obter_tipo (JInt a) =? obter_tipo (JInt b))%string)
      with false. cbv iota. cbn [normalizar_valor].
    pose proof (float_of_int_limite a) as Ha.
    pose proof (float_of_int_limite b) as Hb.
    destruct (float_of_int a) as [f | e] eqn:Ea.
    + destruct (float_of_int b) as [g | e] eqn:Eb.
      * cbn [bind]. split.
        -- destruct (negb (py_eqb (JFloat f) (JFloat g))); discriminate.
        -- intros H. exfalso.
           destruct (Z.max_spec (Z.abs a) (Z.abs b)) as [[_ E] | [_ E]];
             rewrite E in H.
           ++ apply Hb in H. discriminate.
           ++ apply Ha in H. discriminate.
      * cbn [bind]. rewrite (Hso b e Eb) in *. split; [intros _ | reflexivity].
        assert (2 ^ 1024 - 2 ^ 970 <= Z.abs b) by (apply Hb; reflexivity).
        lia.
    + cbn [bind]. rewrite (Hso a e Ea) in *. split; [intros _ | reflexivity].
      assert (2 ^ 1024 - 2 ^ 970 <= Z.abs a) by (apply Ha; reflexivity).
      lia.
Qed.

End FloatRange.

(** * The CSV text *)

Lemma especial_nao (c : ascii) :
  especial c = false ->
  Ascii.eqb c virgula = false /\ Ascii.eqb c aspa_dupla = false /\
  Ascii.eqb c retorno = false /\ Ascii.eqb c avanco = false.
Proof.
  unfold especial. rewrite !orb_false_iff. tauto.
Qed.

Lemma ler_em_campo (f acc rest : string) (linha : list string)
    (linhas : list (list string)) :
  precisa_aspas f = false ->
  csv_ler_de (f +++ rest) EmCampo acc linha linhas =
  csv_ler_de rest EmCampo (acc +++ f) linha linhas.
Proof.
  revert acc. induction f as [| c f IH]; intros acc H.
  - rewrite append_nil_r. reflexivity.
  - simpl in H. apply orb_false_iff in H. destruct H as [Hc Hf].
    destruct (especial_nao c Hc) as (E1 & E2 & E3 & E4).
    cbn [String.append csv_ler_de]. rewrite E1, E2, E3, E4.
    rewrite (IH _ Hf), append_assoc. reflexivity.
Qed.

Lemma ler_entre_aspas (f acc rest : string) (linha : list string)
    (linhas : list (list string)) :
  csv_ler_de (dobra_aspas f +++ String aspa_dupla rest) EntreAspas acc linha linhas =
  csv_ler_de rest AspaEntreAspas (acc +++ f) linha linhas.
Proof.
  revert acc. induction f as [| c f IH]; intros acc.
  - rewrite append_nil_r. reflexivity.
  - cbn [dobra_aspas]. destruct (Ascii.eqb_spec c aspa_dupla) as [-> | Hne].
    + cbn [String.append csv_ler_de].
      change (Ascii.eqb aspa_dupla aspa_dupla) with true. cbv iota.
      rewrite IH, append_assoc. reflexivity.
    + cbn [String.append csv_ler_de].
      destruct (Ascii.eqb_spec c aspa_dupla) as [| _]; [contradiction |].
      rewrite IH, append_assoc. reflexivity.
Qed.

(** A written field followed by a comma is read as that field. *)
Lemma ler_campo_virgula (f rest : string) (e : estado_csv)
    (linha : list string) (linhas : list (list string)) :
  e = InicioDeLinha \/ e = InicioDeCampo ->
  csv_ler_de (csv_campo f +++ String virgula rest) e EmptyString linha linhas =
  csv_ler_de rest InicioDeCampo EmptyString (linha ++ [f]) linhas.
Proof.
  intros He. unfold csv_campo. destruct (precisa_aspas f) eqn:Hp.
  - cbn [String.append]. rewrite append_assoc. cbn [String.append].
    destruct He as [-> | ->]; cbn [csv_ler_de];
      change (Ascii.eqb aspa_dupla virgula) with false;
      change (Ascii.eqb aspa_dupla retorno) with false;
      change (Ascii.eqb aspa_dupla avanco) with false;
      change (Ascii.eqb aspa_dupla aspa_dupla) with true; cbv iota;
      rewrite ler_entre_aspas; reflexivity.
  - destruct f as [| c f].
    + destruct He as [-> | ->]; reflexivity.
    + simpl in Hp. apply orb_false_iff in Hp. destruct Hp as [Hc Hf].
      destruct (especial_nao c Hc) as (E1 & E2 & E3 & E4).
      destruct He as [-> | ->]; cbn [String.append csv_ler_de];
        rewrite E1, E2, E3, E4, (ler_em_campo _ _ _ _ _ Hf); reflexivity.
Qed.

(** A written field followed by the end of the line closes the line. *)
Lemma ler_campo_fim (f rest : string) (e : estado_csv)
    (linha : list string) (linhas : list (list string)) :
  e = InicioDeCampo \/ (e = InicioDeLinha /\ f <> EmptyString) ->
  csv_ler_de (csv_campo f +++ fim_de_linha +++ rest) e EmptyString linha linhas =
  csv_ler_de rest InicioDeLinha EmptyString [] (linhas ++ [linha ++ [f]]).
Proof.
  intros He. unfold csv_campo. destruct (precisa_aspas f) eqn:Hp.
  - cbn [String.append]. rewrite append_assoc. cbn [String.append].
    destruct He as [-> | [-> _]]; cbn [csv_ler_de];
      change (Ascii.eqb aspa_dupla virgula) with false;
      change (Ascii.eqb aspa_dupla retorno) with false;
      change (Ascii.eqb aspa_dupla avanco) with false;
      change (Ascii.eqb aspa_dupla aspa_dupla) with true; cbv iota;
      rewrite ler_entre_aspas; reflexivity.
  - destruct f as [| c f].
    + destruct He as [-> | [_ Hf]]; [reflexivity | contradiction].
    + simpl in Hp. apply orb_false_iff in Hp. destruct Hp as [Hc Hf].
      destruct (especial_nao c Hc) as (E1 & E2 & E3 & E4).
      destruct He as [-> | [-> _]]; cbn [String.append csv_ler_de];
        rewrite E1, E2, E3, E4, (ler_em_campo _ _ _ _ _ Hf); reflexivity.
Qed.

Lemma ler_campos (fs : list string) (rest : string) (e : estado_csv)
    (linha : list string) (linhas : list (list string)) :
  fs <> [] ->
  e = InicioDeCampo \/ (e = InicioDeLinha /\ fs <> [EmptyString]) ->
  csv_ler_de (join "," (map csv_campo fs) +++ fim_de_linha +++ rest)
             e EmptyString linha linhas =
  csv_ler_de rest InicioDeLinha EmptyString [] (linhas ++ [linha ++ fs]).
Proof.
  revert e linha. induction fs as [| f fs IH]; intros e linha Hne He;
    [contradiction |].
  destruct fs as [| g fs].
  - cbn [map join]. apply ler_campo_fim.
    destruct He as [-> | [-> Hf]]; [left; reflexivity | right].
    split; [reflexivity |]. intros ->. apply Hf. reflexivity.
  - change (join "," (map csv_campo (f :: g :: fs)))
      with (csv_campo f +++ "," +++ join "," (map csv_campo (g :: fs))).
    rewrite !append_assoc.
    change ("," +++ join "," (map csv_campo (g :: fs)) +++ fim_de_linha +++ rest)
      with (String virgula
              (join "," (map csv_campo (g :: fs)) +++ fim_de_linha +++ rest)).
    rewrite ler_campo_virgula by (destruct He as [-> | [-> _]]; auto).
    rewrite IH; [| discriminate | left; reflexivity].
    rewrite <- app_assoc. reflexivity.
Qed.

Lemma ler_linha (fs : list string) (rest : string)
    (linhas : list (list string)) :
  csv_ler_de (csv_linha fs +++ rest) InicioDeLinha EmptyString [] linhas =
  csv_ler_de rest InicioDeLinha EmptyString [] (linhas ++ [fs]).
Proof.
  destruct fs as [| f fs]; [reflexivity |].
  destruct f as [| c f]; [destruct fs as [| g fs]; [reflexivity |] |];
    unfold csv_linha; rewrite append_assoc;
    rewrite ler_campos; try reflexivity; try discriminate;
    right; split; try reflexivity; discriminate.
Qed.

Lemma ler_linhas (ls : list (list string)) (linhas : list (list string)) :
  csv_ler_de (junta (map csv_linha ls)) InicioDeLinha EmptyString [] linhas =
  Some (linhas ++ ls).
Proof.
  revert linhas. induction ls as [| fs ls IH]; intros linhas; simpl.
  - rewrite app_nil_r. reflexivity.
  - rewrite ler_linha, IH, <- app_assoc. reflexivity.
Qed.

Lemma csv_ler_texto (diferencas : list diferenca) :
  csv_ler (texto_csv diferencas) = Some (campos :: map valores diferencas).
Proof.
  unfold texto_csv, csv_ler.
  rewrite <- (map_map valores csv_linha).
  change (csv_linha campos +++ junta (map csv_linha (map valores diferencas)))
    with (junta (map csv_linha (campos :: map valores diferencas))).
  rewrite ler_linhas. reflexivity.
Qed.

(** X13.  The CSV text can be read back.  Whatever the texts of the fields
    (commas, quotes and line ends included, as the text of a list or of an
    object has them), a strict reader of the dialect finds in the text
    written for a list of differences the header line and then, for each
    difference and in order, its seven values; so two lists of differences
    with the same text are the same list.  The same holds of any lines
    written with the dialect. *)
Theorem csv_ida_e_volta :
  (forall linhas, csv_ler (junta (map csv_linha linhas)) = Some linhas) /\
  (forall diferencas,
     csv_ler (texto_csv diferencas) = Some (campos :: map valores diferencas)) /\
  (forall ds ds', texto_csv ds = texto_csv ds' -> ds = ds').
Proof.
  assert (H1 : forall linhas, csv_ler (junta (map csv_linha linhas)) = Some linhas).
  { intros linhas. unfold csv_ler. rewrite ler_linhas. reflexivity. }
  pose proof csv_ler_texto as H2.
  split; [exact H1 | split; [exact H2 |]].
  intros ds ds' E.
  assert (Hv : map valores ds = map valores ds').
  { pose proof (H2 ds) as Ha. rewrite E, H2 in Ha. congruence. }
  clear E. revert ds' Hv. induction ds as [| r ds IH]; intros [| r' ds'] Hv;
    simpl in Hv; try discriminate; [reflexivity |].
  injection Hv as E1 E2 E3 E4 E5 E6 E7 Hv.
  destruct r, r'; simpl in *; subst. f_equal. apply IH. exact Hv.
Qed.

(** * The summary of [main] *)

Lemma contagem_get_set (d : list (string * Z)) (k k' : string) (v p : Z) :
  contagem_get (contagem_set d k v) k' p =
  if String.eqb k' k then v else contagem_get d k' p.
Proof.
  induction d as [| [k0 v0] d IH]; simpl; [reflexivity |].
  destruct (String.eqb_spec k k0) as [-> | Hne]; simpl.
  - destruct (String.eqb k' k0); reflexivity.
  - rewrite IH. destruct (String.eqb_spec k' k0) as [-> | Hne'];
      [| reflexivity].
    destruct (String.eqb_spec k0 k) as [E | _]; [| reflexivity].
    exfalso. apply Hne. symmetry. exact E.
Qed.

Lemma chaves_contagem_set (d : list (string * Z)) (k : string) (v : Z) :
  map fst (contagem_set d k v) =
  if pertence k (map fst d) then map fst d else map fst d ++ [k].
Proof.
  induction d as [| [k0 v0] d IH]; simpl; [reflexivity |].
  destruct (String.eqb k k0); simpl; [reflexivity |].
  rewrite IH. fold (pertence k (map fst d)).
  destruct (pertence k (map fst d)); reflexivity.
Qed.

Lemma soma_contagem_set (d : list (string * Z)) (k : string) :
  fold_right Z.add 0 (map snd (contagem_set d k (contagem_get d k 0 + 1))) =
  fold_right Z.add 0 (map snd d) + 1.
Proof.
  induction d as [| [k0 v0] d IH]; simpl; [reflexivity |].
  destruct (String.eqb k k0); simpl; [lia |]. rewrite IH. lia.
Qed.

Lemma contagem_get_In (d : list (string * Z)) (k : string) (q p : Z) :
  NoDup (map fst d) -> In (k, q) d -> contagem_get d k p = q.
Proof.
  induction d as [| [k0 v0] d IH]; simpl; intros Hnd Hin; [contradiction |].
  inversion Hnd as [| ? ? Hnot Hnd']; subst.
  destruct Hin as [E | Hin].
  - injection E as -> ->. rewrite String.eqb_refl. reflexivity.
  - destruct (String.eqb_spec k k0) as [-> | _]; [| auto].
    exfalso. apply Hnot. apply (in_map fst) in Hin. exact Hin.
Qed.

Section Summary.

Local Abbreviation passo :=
  (fun (tipos_diferenca : list (string * Z)) (diff : diferenca) =>
     contagem_set tipos_diferenca (tipo_diferenca diff)
       (contagem_get tipos_diferenca (tipo_diferenca diff) 0 + 1)).

Lemma resumo_soma (ds : list diferenca) (d : list (string * Z)) :
  fold_right Z.add 0 (map snd (fold_left passo ds d)) =
  fold_right Z.add 0 (map snd d) + Z.of_nat (List.length ds).
Proof.
  revert d. induction ds as [| r ds IH]; intros d.
  - simpl. lia.
  - cbn [fold_left]. rewrite IH, soma_contagem_set.
    cbn [List.length]. lia.
Qed.

Lemma resumo_get (ds : list diferenca) (d : list (string * Z)) (k : string) :
  contagem_get (fold_left passo ds d) k 0 =
  contagem_get d k 0
  + Z.of_nat (count_occ string_dec (map tipo_diferenca ds) k).
Proof.
  revert d. induction ds as [| r ds IH]; intros d.
  - simpl. lia.
  - cbn [fold_left]. rewrite IH, contagem_get_set. cbn [map count_occ].
    destruct (string_dec (tipo_diferenca r) k) as [<- | Hne].
    + rewrite String.eqb_refl. lia.
    + destruct (String.eqb_spec k (tipo_diferenca r)) as [E | _];
        [exfalso; auto | reflexivity].
Qed.

Lemma resumo_chaves (ds : list diferenca) (d : list (string * Z)) :
  (NoDup (map fst d) -> NoDup (map fst (fold_left passo ds d))) /\
  (forall k, In k (map fst (fold_left passo ds d)) <->
             In k (map fst d) \/ In k (map tipo_diferenca ds)).
Proof.
  revert d. induction ds as [| r ds IH]; intros d.
  - simpl. split; [auto | tauto].
  - cbn [fold_left]. destruct (IH (passo d r)) as [IH1 IH2].
    assert (Hk : map fst (passo d r) =
                 if pertence (tipo_diferenca r) (map fst d)
                 then map fst d else map fst d ++ [tipo_diferenca r])
      by apply chaves_contagem_set.
    split.
    + intros Hnd. apply IH1. rewrite Hk.
      destruct (pertence (tipo_diferenca r) (map fst d)) eqn:Ep; [exact Hnd |].
      apply NoDup_app_remove_l with (l := []). simpl.
      apply Permutation_NoDup with (l := tipo_diferenca r :: map fst d).
      * apply Permutation_cons_append.
      * constructor; [| exact Hnd].
        rewrite <- pertence_In, Ep. discriminate.
    + intros k. rewrite IH2, Hk. cbn [map In].
      destruct (pertence (tipo_diferenca r) (map fst d)) eqn:Ep.
      * apply pertence_In in Ep. split; [tauto |].
        intros [H | [<- | H]]; auto.
      * rewrite in_app_iff. simpl. tauto.
Qed.

(** X14.  The summary that [main] prints.  The loop leaves one entry for each
    kind that occurs among the differences and no other; an entry holds the
    number of differences of its kind, which is at least one; the numbers
    add up to the number of differences, the one of the line "Total de
    diferenças encontradas"; and the kinds stand in the order in which each
    first occurs. *)
Theorem resumo_conta (diferencas : list diferenca) :
  NoDup (map fst (resumo diferencas)) /\
  (forall k, In k (map fst (resumo diferencas)) <->
             In k (map tipo_diferenca diferencas)) /\
  (forall k q, In (k, q) (resumo diferencas) ->
     q = Z.of_nat (count_occ string_dec (map tipo_diferenca diferencas) k) /\
     1 <= q) /\
  fold_right Z.add 0 (map snd (resumo diferencas)) =
    Z.of_nat (List.length diferencas) /\
  (forall r, map fst (resumo (diferencas ++ [r])) =
     if pertence (tipo_diferenca r) (map tipo_diferenca diferencas)
     then map fst (resumo diferencas)
     else map fst (resumo diferencas) ++ [tipo_diferenca r]).
Proof.
  unfold resumo.
  destruct (resumo_chaves diferencas []) as [Hnd Hk].
  specialize (Hnd (NoDup_nil _)).
  assert (Hk' : forall k, In k (map fst (fold_left passo diferencas [])) <->
                          In k (map tipo_diferenca diferencas)).
  { intros k. rewrite Hk. simpl. tauto. }
  split; [exact Hnd | split; [exact Hk' | split; [| split]]].
  - intros k q Hin.
    pose proof (contagem_get_In _ k q 0 Hnd Hin) as Hq.
    rewrite resumo_get in Hq. simpl in Hq. split; [lia |].
    assert (Hc : In k (map tipo_diferenca diferencas)).
    { apply Hk'. apply (in_map fst) in Hin. exact Hin. }
    apply (count_occ_In string_dec) in Hc. lia.
  - rewrite resumo_soma. simpl. lia.
  - intros r. rewrite fold_left_app. cbn [fold_left].
    rewrite chaves_contagem_set.
    assert (E : pertence (tipo_diferenca r)
                  (map fst (fold_left passo diferencas [])) =
                pertence (tipo_diferenca r) (map tipo_diferenca diferencas)).
    { apply eq_true_iff_eq. rewrite !pertence_In. apply Hk'. }
    rewrite E. reflexivity.
Qed.

End Summary.

(** * The program *)

Lemma termina_com_sufixo (s sufixo : string) :
  termina_com (s +++ sufixo) sufixo = true.
Proof.
  induction s as [| c s IH]; cbn [String.append].
  - destruct sufixo; cbn [termina_com]; rewrite String.eqb_refl; reflexivity.
  - cbn [termina_com]. rewrite IH. apply orb_true_r.
Qed.

Lemma impressos_fold_print {A : Type} (g : A -> string) (l : list A) (w : mundo) :
  impressos (fold_left (fun w x => print (g x) w) l w) = impressos w ++ map g l /\
  arquivos (fold_left (fun w x => print (g x) w) l w) = arquivos w.
Proof.
  revert w. induction l as [| x l IH]; intros w; simpl.
  - rewrite app_nil_r. auto.
  - destruct (IH (print (g x) w)) as [-> ->]. simpl.
    rewrite <- app_assoc. auto.
Qed.

Section ProgramFacts.
Context {RT : Runtime} {SO : Sistema}.

Lemma comparar_json_tipos (j1 j2 : json) (ds : list diferenca) :
  comparar_json j1 j2 = Ok ds ->
  Forall (fun r => In (tipo_diferenca r) tipos_de_diferenca) ds.
Proof.
  unfold comparar_json. intros H. inv_bind H. inv_bind H.
  unfold comparar_valores in H.
  apply (registros_inducao (fun _ r => In (tipo_diferenca r) tipos_de_diferenca))
    in H; [exact H | | auto | auto].
  intros q r [_ Hk _ | _ Hk _ | _ Hk _ _ | i _ Hk _ _ | i _ Hk _ _ | k _ Hk _ _];
    rewrite Hk; simpl; auto 10.
Qed.

Lemma comparar_json_vazio (j1 j2 : json) :
  comparar_json j1 j2 = Ok [] <->
  exists d1 d2, j1 = JDict d1 /\ j2 = JDict d2 /\
                coberto (ordenar (JDict d1)) (ordenar (JDict d2)).
Proof.
  unfold comparar_json, ordenar_dicionario. split.
  - intros H.
    destruct j1 as [| | | | | | d1]; try discriminate H.
    destruct j2 as [| | | | | | d2]; try discriminate H.
    exists d1, d2. repeat split. cbn [bind] in H.
    unfold comparar_valores in H.
    apply comparar_valores_rec_vazio in H; [exact H | lia].
  - intros (d1 & d2 & -> & -> & H). cbn [bind].
    unfold comparar_valores. apply comparar_valores_rec_vazio; [lia | exact H].
Qed.

Lemma identicos_print (t : string) (w : mundo) :
  t <> linha_identicos -> ~ In linha_identicos (impressos w) ->
  ~ In linha_identicos (impressos (print t w)).
Proof.
  intros Ht Hw. simpl. rewrite in_app_iff. simpl. intros [H | [H | []]]; auto.
Qed.

Lemma identicos_trata (e : excecao) (w : mundo) :
  ~ In linha_identicos (impressos w) ->
  ~ In linha_identicos (impressos (trata e w)).
Proof.
  intros Hw. destruct e; apply identicos_print; try exact Hw; discriminate.
Qed.

Lemma identicos_resumo (r : diferenca) (ds : list diferenca) (w : mundo) :
  Forall (fun r => In (tipo_diferenca r) tipos_de_diferenca) (r :: ds) ->
  ~ In linha_identicos (impressos w) ->
  ~ In linha_identicos (impressos (exibe_resumo (r :: ds) w)).
Proof.
  intros Ht Hw. unfold exibe_resumo.
  destruct (impressos_fold_print
              (fun tq : string * Z => fst tq +++ ": " +++ str_int (snd tq))
              (resumo (r :: ds)) (print linha_resumo w)) as [-> _].
  rewrite in_app_iff. intros [H | H].
  - revert H. apply identicos_print; [discriminate | exact Hw].
  - apply in_map_iff in H. destruct H as ([k q] & E & Hin). simpl in E.
    destruct (resumo_chaves (r :: ds) []) as [_ Hk].
    assert (Hin' : In k (map tipo_diferenca (r :: ds))).
    { apply (in_map fst) in Hin. apply Hk in Hin. simpl in Hin. simpl. tauto. }
    apply in_map_iff in Hin'. destruct Hin' as (r' & <- & Hr').
    rewrite Forall_forall in Ht. specialize (Ht r' Hr').
    simpl in Ht.
    destruct Ht as [Hc | [Hc | [Hc | [Hc | [Hc | [Hc | []]]]]]];
      rewrite <- Hc in E; discriminate E.
Qed.

(** X15.  The verdict of a run.  Once the names of the files are settled, [main]
    prints that the JSONs are identical exactly when both files hold an
    object and the canonical form of the second covers that of the first:
    keys that only the second object has do not count against the
    verdict.  A run with that verdict writes no file, so a CSV left by an
    earlier run stays as it was. *)
Theorem main_veredito (argv : list string) (a1 a2 s : string) :
  escolher_arquivos argv = inr (a1, a2, s) ->
  let w := mundo_de (main argv mundo_inicial) in
  (In linha_identicos (impressos w) <->
   exists d1 d2,
     carregar a1 = inr (JDict d1) /\ carregar a2 = inr (JDict d2) /\
     coberto (ordenar (JDict d1)) (ordenar (JDict d2))) /\
  (In linha_identicos (impressos w) -> arquivos w = []).
Proof.
  intros He w. subst w. unfold main. rewrite He. cbv zeta.
  set (w1 := print ("Carregando " +++ a1 +++ "...") mundo_inicial).
  assert (H1 : ~ In linha_identicos (impressos w1)).
  { apply identicos_print; [discriminate | simpl; tauto]. }
  destruct (carregar a1) as [e1 | j1] eqn:E1.
  { pose proof (identicos_trata e1 w1 H1) as Hn. simpl mundo_de.
    split; [split |]; try (intros H; contradiction).
    intros (d1 & d2 & Hc & _). discriminate. }
  set (w2 := print ("Carregando " +++ a2 +++ "...") w1).
  assert (H2 : ~ In linha_identicos (impressos w2)).
  { apply identicos_print; [discriminate | exact H1]. }
  destruct (carregar a2) as [e2 | j2] eqn:E2.
  { pose proof (identicos_trata e2 w2 H2) as Hn. simpl mundo_de.
    split; [split |]; try (intros H; contradiction).
    intros (d1 & d2 & _ & Hc & _). discriminate. }
  set (w3 := print "Comparando JSONs..." w2).
  assert (H3 : ~ In linha_identicos (impressos w3)).
  { apply identicos_print; [discriminate | exact H2]. }
  pose proof (comparar_json_vazio j1 j2) as Hv.
  destruct (comparar_json j1 j2) as [[| r ds] | e] eqn:Ec.
  - simpl mundo_de. split; [split |].
    + intros _. destruct (proj1 Hv eq_refl) as (d1 & d2 & -> & -> & Hc).
      exists d1, d2. auto.
    + intros _. simpl. auto 10.
    + intros _. reflexivity.
  - assert (Hn : ~ In linha_identicos
                   (impressos (mundo_de
                      match salvar_diferencas_csv (r :: ds) (com_extensao s) w3 with
                      | Retorna w => Retorna (exibe_resumo (r :: ds) w)
                      | Levanta e w => Retorna (trata e w)
                      end))).
    { unfold salvar_diferencas_csv.
      destruct (abrir_para_escrita (com_extensao s)) as [e |].
      - apply identicos_trata. exact H3.
      - apply identicos_resumo; [eapply comparar_json_tipos; exact Ec |].
        apply identicos_print; [discriminate |].
        apply identicos_print; [discriminate |]. exact H3. }
    split; [split |]; try (intros H; contradiction).
    intros (d1 & d2 & Hc1 & Hc2 & Hc).
    assert (j1 = JDict d1) by congruence. assert (j2 = JDict d2) by congruence.
    assert (Hd : Ok (r :: ds) = Ok (@nil diferenca)).
    { apply Hv. exists d1, d2. auto. }
    discriminate Hd.
  - pose proof (identicos_trata (OutraExcecao (texto_da_excecao e j1 j2)) w3 H3)
      as Hn. simpl mundo_de.
    split; [split |]; try (intros H; contradiction).
    intros (d1 & d2 & Hc1 & Hc2 & Hc).
    assert (j1 = JDict d1) by congruence. assert (j2 = JDict d2) by congruence.
    assert (Hd : Err e = Ok (@nil diferenca)).
    { apply Hv. exists d1, d2. auto. }
    discriminate Hd.
Qed.

(** X16.  The file of a run.  Once the names of the files are settled, [main]
    returns without an exception; the name it writes to ends in ".csv"; it
    writes a file exactly when both inputs were read, the comparison
    returned at least one difference and the file could be opened; and then
    it writes that one file, whose text reads back as the header line
    followed by the differences that the comparison returned. *)
Theorem main_arquivo (argv : list string) (a1 a2 s : string) :
  escolher_arquivos argv = inr (a1, a2, s) ->
  let w := mundo_de (main argv mundo_inicial) in
  let nome := com_extensao s in
  main argv mundo_inicial = Retorna w /\
  termina_com nome ".csv" = true /\
  (arquivos w <> [] <->
   exists j1 j2 r ds,
     carregar a1 = inr j1 /\ carregar a2 = inr j2 /\
     comparar_json j1 j2 = Ok (r :: ds) /\ abrir_para_escrita nome = None) /\
  (forall j1 j2 ds,
     carregar a1 = inr j1 -> carregar a2 = inr j2 ->
     comparar_json j1 j2 = Ok ds -> arquivos w <> [] ->
     exists texto,
       arquivos w = [(nome, texto)] /\
       csv_ler texto = Some (campos :: map valores ds)).
Proof.
  intros He w nome. subst w nome. split; [| split].
  { unfold main. rewrite He. cbv zeta.
    destruct (carregar a1); [reflexivity |].
    destruct (carregar a2); [reflexivity |].
    destruct (comparar_json _ _); [| reflexivity].
    destruct (salvar_diferencas_csv _ _ _); reflexivity. }
  { unfold com_extensao.
    destruct (termina_com s ".csv") eqn:E; simpl; [exact E |].
    apply termina_com_sufixo. }
  unfold main. rewrite He. cbv zeta.
  destruct (carregar a1) as [e1 | j1] eqn:E1.
  { assert (Ha : arquivos (mundo_de (Retorna (trata e1
                   (print ("Carregando " +++ a1 +++ "...") mundo_inicial)))) = [])
      by (destruct e1; reflexivity).
    rewrite Ha. split.
    - split; [intros H; contradiction |].
      intros (j1 & j2 & r & ds & Hc & _). discriminate.
    - intros j1 j2 ds Hc. discriminate. }
  destruct (carregar a2) as [e2 | j2] eqn:E2.
  { match goal with
    | |- context [mundo_de ?x] =>
        assert (Ha : arquivos (mundo_de x) = []) by (destruct e2; reflexivity)
    end.
    rewrite Ha. split.
    - split; [intros H; contradiction |].
      intros (j1' & j2' & r & ds & _ & Hc & _). discriminate.
    - intros j1' j2' ds _ Hc. discriminate. }
  destruct (comparar_json j1 j2) as [[| r ds] | e] eqn:Ec.
  - simpl. split.
    + split; [intros H; contradiction |].
      intros (j1' & j2' & r & ds & Hc1 & Hc2 & Hc & _).
      injection Hc1 as <-. injection Hc2 as <-. rewrite Ec in Hc. discriminate.
    + intros j1' j2' ds _ _ _ H. contradiction.
  - unfold salvar_diferencas_csv.
    destruct (abrir_para_escrita (com_extensao s)) as [e |] eqn:Ea.
    + match goal with
      | |- context [mundo_de ?x] =>
          assert (Hw : arquivos (mundo_de x) = []) by (destruct e; reflexivity)
      end.
      rewrite Hw. split.
      * split; [intros H; contradiction |].
        intros (j1' & j2' & r' & ds' & _ & _ & _ & Hc). discriminate.
      * intros j1' j2' ds' _ _ _ H. contradiction.
    + match goal with
      | |- context [mundo_de ?x] =>
          assert (Hw : arquivos (mundo_de x)
                       = [(com_extensao s, texto_csv (r :: ds))])
      end.
      { simpl mundo_de. unfold exibe_resumo.
        rewrite (proj2 (impressos_fold_print _ _ _)). reflexivity. }
      rewrite Hw. split.
      * split; [| intros _; discriminate].
        intros _. exists j1, j2, r, ds. auto.
      * intros j1' j2' ds' Hc1 Hc2 Hc _.
        injection Hc1 as <-. injection Hc2 as <-.
        rewrite Ec in Hc. injection Hc as <-.
        eexists. split; [reflexivity | apply csv_ler_texto].
  - match goal with
    | |- context [mundo_de ?x] =>
        assert (Hw : arquivos (mundo_de x) = []) by reflexivity
    end.
    rewrite Hw. split.
    + split; [intros H; contradiction |].
      intros (j1' & j2' & r & ds & Hc1 & Hc2 & Hc & _).
      injection Hc1 as <-. injection Hc2 as <-. rewrite Ec in Hc. discriminate.
    + intros j1' j2' ds _ _ _ H. contradiction.
Qed.

End ProgramFacts.

(** * No difference, as a relation *)

Lemma SFcompare_Eq_trans (f g h : float) :
  SFcompare f g = Some Eq -> SFcompare g h = Some Eq ->
  SFcompare f h = Some Eq.
Proof.
  destruct f as [s | s | | s m e], g as [s' | s' | | s' m' e'],
    h as [s'' | s'' | | s'' m'' e'']; simpl; try discriminate; auto;
    try (destruct s, s', s''; simpl; congruence);
    try (destruct s; discriminate); try (destruct s'; discriminate);
    try (destruct s''; discriminate).
  intros H1 H2.
  assert (E1 : s = s' /\ e = e' /\ m = m').
  { destruct s, s'; try discriminate;
      destruct (Z.compare_spec e e') as [-> | |]; try discriminate;
      change (Pos.compare_cont Eq m m') with (Pos.compare m m') in H1;
      destruct (Pos.compare_spec m m') as [-> | |]; try discriminate; auto. }
  destruct E1 as (-> & -> & ->). exact H2.
Qed.

Lemma Forall2_trans_In {A : Type} (R : A -> A -> Prop) (l1 l2 l3 : list A) :
  (forall x y z, In x l1 -> R x y -> R y z -> R x z) ->
  Forall2 R l1 l2 -> Forall2 R l2 l3 -> Forall2 R l1 l3.
Proof.
  intros Ht H12. revert l3. induction H12 as [| x y l1 l2 Hxy _ IH];
    intros l3 H23; inversion H23 as [| ? z ? l3' Hyz H23']; subst;
    constructor.
  - eapply Ht; [left; reflexivity | exact Hxy | exact Hyz].
  - apply IH; [| exact H23']. intros a b c Ha. apply Ht. right. exact Ha.
Qed.

Section Preorder.
Context {RT : Runtime}.

Lemma coberto_trans (n : nat) (v1 v2 v3 : json) :
  (altura v1 < n)%nat -> coberto v1 v2 -> coberto v2 v3 -> coberto v1 v3.
Proof.
  revert v1 v2 v3. induction n as [| n IH]; intros v1 v2 v3 Hn H12 H23; [lia |].
  inversion H12 as [| b | s | a b f g Ea Eb Efg | f g Efg | l1 l2 HF | d1 d2 Hd];
    subst; inversion H23 as [| b' | s' | a' b' f' g' Ea' Eb' Efg' | f' g' Efg'
                            | l1' l2' HF' | d1' d2' Hd']; subst.
  - constructor.
  - constructor.
  - constructor.
  - rewrite Eb in Ea'. injection Ea' as <-.
    econstructor; [exact Ea | exact Eb' |].
    eapply SFcompare_Eq_trans; eauto.
  - constructor. eapply SFcompare_Eq_trans; eauto.
  - constructor. eapply Forall2_trans_In; [| exact HF | exact HF'].
    intros x y z Hx. apply IH.
    pose proof (altura_item_ordenado _ l1 Hx). lia.
  - constructor. intros k Hk.
    destruct (Hd k Hk) as (a & b & Ha & Hb & Hab).
    destruct (Hd' k (dict_get_em_chaves _ _ _ Hb)) as (b' & c & Hb' & Hc & Hbc).
    rewrite Hb in Hb'. injection Hb' as <-.
    exists a, c. repeat split; try assumption.
    apply (IH a b c); [| exact Hab | exact Hbc].
    pose proof (altura_campo (k, a) d1 (dict_get_In _ _ _ Ha)).
    simpl in *. lia.
Qed.

(** X3.  No difference is transitive, and in both directions it tells that the
    keys are the same.  If comparing a first value with a second returns
    nothing and comparing the second with a third returns nothing, then so
    does comparing the first with the third, at whatever paths.  And two
    objects that [comparar_json] finds without difference in both directions
    have the same top-level keys, while one direction alone leaves the
    second object free to hold more. *)
Theorem sem_diferenca_transitivo :
  (forall v1 v2 v3 p q r,
     comparar_valores v1 v2 p = Ok [] -> comparar_valores v2 v3 q = Ok [] ->
     comparar_valores v1 v3 r = Ok []) /\
  (forall d1 d2,
     comparar_json (JDict d1) (JDict d2) = Ok [] ->
     comparar_json (JDict d2) (JDict d1) = Ok [] ->
     forall k, In k (chaves d1) <-> In k (chaves d2)).
Proof.
  split.
  - intros v1 v2 v3 p q r H12 H23. unfold comparar_valores in *.
    apply comparar_valores_rec_vazio in H12; [| lia].
    apply comparar_valores_rec_vazio in H23; [| lia].
    apply comparar_valores_rec_vazio; [lia |].
    apply (coberto_trans (S (altura v1)) v1 v2 v3); [lia | exact H12 | exact H23].
  - assert (Hsub : forall d1 d2,
      comparar_json (JDict d1) (JDict d2) = Ok [] ->
      forall k, In k (chaves d1) -> In k (chaves d2)).
    { intros d1 d2 H k Hk. unfold comparar_json in H. cbn [ordenar_dicionario bind] in H.
      unfold comparar_valores in H.
      apply comparar_valores_rec_vazio in H; [| lia].
      rewrite !ordenar_dic_eq in H.
      inversion H as [| | | | | | a b Hd]; subst.
      assert (Hk' : In k (chaves (ordenar_chaves (map ordenar_campo d1)))).
      { eapply Permutation_in.
        - unfold chaves. apply Permutation_map. symmetry.
          apply ordenar_chaves_perm.
        - fold (chaves (map ordenar_campo d1)).
          rewrite chaves_ordenar_campo. exact Hk. }
      destruct (Hd k Hk') as (x & y & _ & Hy & _).
      apply dict_get_em_chaves in Hy.
      rewrite <- (chaves_ordenar_campo d2).
      eapply Permutation_in; [| exact Hy].
      unfold chaves. apply Permutation_map. apply ordenar_chaves_perm. }
    intros d1 d2 H12 H21 k. split; eauto.
Qed.

End Preorder.

(** * Order does not matter *)

Lemma isort_inteiros_perm (zs zs' : list Z) :
  Permutation zs zs' -> isort Z.ltb zs = isort Z.ltb zs'.
Proof.
  intros Hp.
  assert (H2 : Forall2 (equivalentes Z.ltb) (isort Z.ltb zs) (isort Z.ltb zs')).
  { apply (isort_perm_equivalentes Z.ltb (fun _ => True)).
    - intros a b _ _. rewrite Z.ltb_lt, Z.ltb_ge. lia.
    - intros a b c _ _ _. rewrite !Z.ltb_lt. lia.
    - apply Forall_forall. auto.
    - exact Hp. }
  apply (Forall2_eq_In _ _ _ H2).
  intros a b _ _ [E1 E2]. rewrite Z.ltb_ge in E1, E2. lia.
Qed.

Lemma isort_textos_perm (ss ss' : list string) :
  Permutation ss ss' -> isort String.ltb ss = isort String.ltb ss'.
Proof.
  intros Hp.
  assert (H2 : Forall2 (equivalentes String.ltb)
                 (isort String.ltb ss) (isort String.ltb ss')).
  { apply (isort_perm_equivalentes String.ltb (fun _ => True)).
    - intros a b _ _. apply string_ltb_asym.
    - intros a b c _ _ _. apply string_ltb_negtrans.
    - apply Forall_forall. auto.
    - exact Hp. }
  apply (Forall2_eq_In _ _ _ H2).
  intros a b _ _ [E1 E2]. apply string_equivalentes_eq; assumption.
Qed.

Section OrderDoesNotMatter.
Context {RT : Runtime}.

Lemma reordenado_ordenar (n : nat) (v v' : json) :
  (altura v < n)%nat -> reordenado v v' -> ordenar v = ordenar v'.
Proof.
  revert v v'. induction n as [| n IH]; intros v v' Hn H; [lia |].
  inversion H as [u Hu | zs zs' Hp | ss ss' Hp | l l' HF | d d' d'' Hnd Hp HF];
    subst.
  - reflexivity.
  - unfold ordenar. rewrite !ordenar_lista_inteiros.
    rewrite (isort_inteiros_perm _ _ Hp). reflexivity.
  - unfold ordenar. rewrite !ordenar_lista_textos.
    rewrite (isort_textos_perm _ _ Hp). reflexivity.
  - unfold ordenar. rewrite !ordenar_lista_eq. do 2 f_equal.
    assert (Hl : forall x, In x l -> (altura x < n)%nat).
    { intros x Hx. pose proof (altura_item x l Hx). lia. }
    clear Hn H. induction HF as [| x y l l' Hxy _ IHF]; [reflexivity |].
    simpl. f_equal.
    + apply IH; [apply Hl; left; reflexivity | exact Hxy].
    + apply IHF. intros z Hz. apply Hl. right. exact Hz.
  - unfold ordenar. rewrite !ordenar_dic_eq. f_equal.
    rewrite (ordenar_chaves_permutados (map ordenar_campo d)
               (map ordenar_campo d')).
    2: { fold (chaves (map ordenar_campo d)).
         rewrite chaves_ordenar_campo. exact Hnd. }
    2: { apply Permutation_map. exact Hp. }
    f_equal.
    assert (Hl : forall kv, In kv d' -> (altura (snd kv) < n)%nat).
    { intros kv Hkv. apply (Permutation_in _ (Permutation_sym Hp)) in Hkv.
      pose proof (altura_campo kv d Hkv). lia. }
    clear Hn H Hp Hnd. induction HF as [| x y l l' Hxy _ IHF]; [reflexivity |].
    simpl. f_equal.
    + destruct x as [k a], y as [k' b]. destruct Hxy as [Hk Hab].
      simpl in Hk. subst k'. unfold ordenar_campo. simpl. f_equal.
      apply IH; [apply (Hl (k, a)); left; reflexivity | exact Hab].
    + apply IHF. intros z Hz. apply Hl. right. exact Hz.
Qed.

(** X17.  Order does not matter, at any depth.  Two values that differ only
    in the order of the keys of their objects, wherever these stand, and in
    the order of the items of their lists of integers and of their lists of
    strings, have the same canonical form; and [comparar_json] returns for
    such rearrangements of its two arguments what it returns for the
    arguments themselves: the same differences in the same order, or the
    same exception. *)
Theorem ordem_nao_importa :
  (forall v v', reordenado v v' -> ordenar v = ordenar v') /\
  (forall j1 j1' j2 j2',
     reordenado j1 j1' -> reordenado j2 j2' ->
     comparar_json j1 j2 = comparar_json j1' j2').
Proof.
  assert (H1 : forall v v', reordenado v v' -> ordenar v = ordenar v').
  { intros v v' H. apply (reordenado_ordenar (S (altura v))); [lia | exact H]. }
  split; [exact H1 |].
  assert (H2 : forall j j', reordenado j j' ->
                 ordenar_dicionario j = ordenar_dicionario j').
  { intros j j' H. pose proof (H1 j j' H) as E.
    inversion H; subst; try reflexivity.
    unfold ordenar_dicionario. f_equal. exact E. }
  intros j1 j1' j2 j2' Ha Hb. unfold comparar_json.
  rewrite (H2 _ _ Ha), (H2 _ _ Hb). reflexivity.
Qed.

End OrderDoesNotMatter.

(** * The hash seed *)

Lemma concat_mapM_mesmos {A B : Type} (f g : A -> result (list B))
    (l l' : list A) :
  Permutation l l' ->
  (forall x, In x l -> mesmos_registros (f x) (g x)) ->
  mesmos_registros (concat_mapM f l) (concat_mapM g l').
Proof.
  intros Hp Hfg.
  apply mesmos_registros_trans with (r' := concat_mapM g l);
    [| apply concat_mapM_perm_f; exact Hp].
  clear Hp. induction l as [| x l IH]; simpl; [constructor |].
  apply mesmos_registros_bind.
  - apply Hfg. left. reflexivity.
  - apply IH. intros y Hy. apply Hfg. right. exact Hy.
Qed.

Section HashSeed.
Variables R1 R2 : Runtime.
Hypothesis Htextos : mesmos_textos R1 R2.

Lemma py_repr_textos (v : json) : @py_repr R1 v = @py_repr R2 v.
Proof.
  destruct Htextos as (Hf & Hs & _).
  induction v as [| b | z | f | s | l IH | d IH] using json_ind'; simpl;
    try reflexivity; auto.
  - rewrite (map_ext_Forall _ _ IH). reflexivity.
  - do 3 f_equal. apply map_ext_Forall.
    eapply Forall_impl; [| exact IH]. intros kv Hkv. simpl in Hkv.
    rewrite Hkv, Hs. reflexivity.
Qed.

Lemma py_str_textos (v : json) : @py_str R1 v = @py_str R2 v.
Proof.
  destruct v; simpl; try reflexivity;
    try apply (py_repr_textos (JFloat _));
    try apply (py_repr_textos (JList _));
    apply (py_repr_textos (JDict _)).
Qed.

Lemma json_dumps_textos (v : json) : @json_dumps R1 v = @json_dumps R2 v.
Proof.
  destruct Htextos as (Hf & _ & Hd).
  induction v as [| b | z | f | s | l IH | d IH] using json_ind'; simpl;
    try reflexivity; auto.
  - destruct f; auto.
  - rewrite (map_ext_Forall _ _ IH). reflexivity.
  - do 5 f_equal. apply map_ext_Forall.
    eapply Forall_impl; [| exact IH]. intros kv Hkv. simpl in Hkv.
    rewrite Hkv, Hd. reflexivity.
Qed.

Lemma chave_de_ordem_textos (v : json) :
  @chave_de_ordem R1 v = @chave_de_ordem R2 v.
Proof.
  destruct v; try reflexivity; unfold chave_de_ordem;
    rewrite json_dumps_textos; reflexivity.
Qed.

Lemma tenta_ordenar_textos (l : list json) :
  @tenta_ordenar R1 l = @tenta_ordenar R2 l.
Proof.
  unfold tenta_ordenar, sorted.
  rewrite (map_ext _ (fun x => (@chave_de_ordem R2 x, x))); [reflexivity |].
  intros x. rewrite chave_de_ordem_textos. reflexivity.
Qed.

Lemma ordenar_textos (v : json) : @ordenar R1 v = @ordenar R2 v.
Proof.
  induction v as [| b | z | f | s | l IH | d IH] using json_ind';
    try reflexivity.
  - unfold ordenar. rewrite !ordenar_lista_eq. f_equal.
    rewrite tenta_ordenar_textos. f_equal.
    apply map_ext_Forall. exact IH.
  - unfold ordenar. rewrite !ordenar_dic_eq. do 2 f_equal.
    apply map_ext_Forall.
    eapply Forall_impl; [| exact IH]. intros kv Hkv. simpl in Hkv.
    unfold ordenar_campo. rewrite Hkv. reflexivity.
Qed.

Lemma comparar_valores_rec_textos (n : nat) (v1 v2 : json) (p : string) :
  mesmos_registros (@comparar_valores_rec R1 n v1 v2 p)
                   (@comparar_valores_rec R2 n v1 v2 p).
Proof.
  revert v1 v2 p. induction n as [| n IH]; intros v1 v2 p; [exact I |].
  simpl. unfold comparar_corpo.
  rewrite !(py_str_textos v1), !(py_str_textos v2).
  destruct (negb (obter_tipo v1 =? obter_tipo v2)%string).
  { destruct v2; apply mesmos_registros_refl. }
  destruct v1 as [| b | z | f | s | l | d];
    try apply mesmos_registros_refl.
  - change (@ordenar_lista R1 (JList l)) with (@ordenar R1 (JList l)).
    rewrite (ordenar_textos (JList l)).
    change (@ordenar R2 (JList l)) with (@ordenar_lista R2 (JList l)).
    assert (E2 : @ordenar_lista R1 v2 = @ordenar_lista R2 v2).
    { destruct v2; try reflexivity. apply (ordenar_textos (JList _)). }
    rewrite E2. cbv zeta.
    set (c1 := itens_de (@ordenar_lista R2 (JList l))).
    set (c2 := itens_de (@ordenar_lista R2 v2)).
    match goal with
    | |- mesmos_registros (bind (concat_mapM ?f ?ix) _)
                          (bind (concat_mapM ?g _) _) =>
        assert (Hc : mesmos_registros (concat_mapM f ix) (concat_mapM g ix))
    end.
    { apply concat_mapM_mesmos; [reflexivity |]. intros i _. cbv beta.
      rewrite !(py_str_textos (nth i c1 JNull)), !(py_str_textos (nth i c2 JNull)).
      destruct (Nat.ltb i (List.length c1) && Nat.ltb i (List.length c2));
        [apply IH | apply mesmos_registros_refl]. }
    match type of Hc with
    | mesmos_registros ?a ?b => destruct a, b; simpl in *; try tauto
    end.
    apply Permutation_app_head. exact Hc.
  - cbv zeta. apply mesmos_registros_bind.
    + apply concat_mapM_mesmos.
      * rewrite !set_diferenca_perm. reflexivity.
      * intros k _. destruct (dict_get d k) as [a |]; simpl; [| exact I].
        rewrite (py_str_textos a). reflexivity.
    + apply concat_mapM_mesmos.
      * rewrite !set_intersecao_perm. reflexivity.
      * intros k _. destruct (dict_get d k) as [a |]; simpl; [| exact I].
        destruct (dict_get (campos_de v2) k) as [b |]; simpl; [| exact I].
        apply IH.
Qed.

(** X18.  The hash seed changes the order of the differences and nothing
    else.  Two runs of the interpreter that differ only in the order in
    which they visit the keys of a set give the same canonical forms, and
    [comparar_valores] and [comparar_json] return in both the same
    differences, each as many times, in an order that may differ, or raise
    in both. *)
Theorem semente_de_hash :
  (forall v, @ordenar R1 v = @ordenar R2 v) /\
  (forall v1 v2 p,
     mesmos_registros (@comparar_valores R1 v1 v2 p)
                      (@comparar_valores R2 v1 v2 p)) /\
  (forall j1 j2,
     mesmos_registros (@comparar_json R1 j1 j2) (@comparar_json R2 j1 j2)).
Proof.
  split; [exact ordenar_textos | split].
  - intros v1 v2 p. unfold comparar_valores.
    apply comparar_valores_rec_textos.
  - intros j1 j2. unfold comparar_json, ordenar_dicionario.
    destruct j1 as [| | | | | | d1]; try exact I.
    destruct j2 as [| | | | | | d2]; try exact I.
    cbn [bind].
    change (@ordenar_dic R1 (JDict d1)) with (@ordenar R1 (JDict d1)).
    change (@ordenar_dic R1 (JDict d2)) with (@ordenar R1 (JDict d2)).
    rewrite !ordenar_textos. unfold comparar_valores.
    apply comparar_valores_rec_textos.
Qed.

End HashSeed.

(** * The properties at concrete inputs *)

Lemma resultado_vazio_testemunha :
  @comparar_valores cpython
     (JDict [("a", JList [JInt 2; JInt 1])])
     (JDict [("a", JList [JInt 1; JInt 2]); ("b", JNull)]) "" = Ok [] /\
  @coberto cpython
     (JDict [("a", JList [JInt 2; JInt 1])])
     (JDict [("a", JList [JInt 1; JInt 2]); ("b", JNull)]).
Proof.
  split; [vm_compute; reflexivity |].
  apply (proj1 (@resultado_vazio cpython _ _ "")). vm_compute. reflexivity.
Defined.

Lemma sem_diferenca_transitivo_testemunha :
  @comparar_valores cpython (JDict [("a", JInt 1)])
     (JDict [("a", JInt 1); ("b", JInt 2)]) "p" = Ok [] /\
  @comparar_valores cpython (JDict [("a", JInt 1); ("b", JInt 2)])
     (JDict [("b", JInt 2); ("c", JInt 3); ("a", JInt 1)]) "q" = Ok [] /\
  @comparar_valores cpython (JDict [("a", JInt 1)])
     (JDict [("b", JInt 2); ("c", JInt 3); ("a", JInt 1)]) "r" = Ok [].
Proof.
  split; [vm_compute; reflexivity | split; [vm_compute; reflexivity |]].
  apply (proj1 (@sem_diferenca_transitivo cpython)
           _ (JDict [("a", JInt 1); ("b", JInt 2)]) _ "p" "q" "r");
    vm_compute; reflexivity.
Defined.

Lemma registros_sob_o_caminho_testemunha :
  exists rs,
    @comparar_valores cpython
       (JDict [("a", JList [JInt 1; JInt 2]); ("b", JStr "x")])
       (JDict [("a", JList [JInt 1; JInt 3])]) "raiz" = Ok rs /\
    List.length rs = 2%nat /\
    Forall (fun r => exists s, caminho r = "raiz" +++ s) rs.
Proof.
  eexists. split; [vm_compute; reflexivity |]. split; [reflexivity |].
  apply (@registros_sob_o_caminho cpython
           (JDict [("a", JList [JInt 1; JInt 2]); ("b", JStr "x")])
           (JDict [("a", JList [JInt 1; JInt 3])]) "raiz").
  vm_compute. reflexivity.
Defined.

Lemma registros_bem_formados_testemunha :
  exists rs,
    @comparar_valores cpython
       (JDict [("a", JList [JInt 1; JInt 2; JNull]); ("b", JStr "x")])
       (JDict [("a", JList [JInt 1]); ("b", JInt 3)]) "" = Ok rs /\
    List.length rs = 4%nat /\
    Forall bem_formada rs.
Proof.
  eexists. split; [vm_compute; reflexivity |]. split; [reflexivity |].
  apply (@registros_bem_formados cpython
           (JDict [("a", JList [JInt 1; JInt 2; JNull]); ("b", JStr "x")])
           (JDict [("a", JList [JInt 1]); ("b", JInt 3)]) "").
  vm_compute. reflexivity.
Defined.

Lemma excecoes_do_comparador_testemunha :
  folhas inteiro_com_texto (JList [JInt (10 ^ 400); JStr "a"]) = true /\
  folhas inteiro_com_texto (JList [JInt 0; JStr "a"]) = true /\
  @comparar_valores cpython (JList [JInt (10 ^ 400); JStr "a"])
                            (JList [JInt 0; JStr "a"]) "x" = Err OverflowError /\
  (OverflowError = OverflowError /\
   (folhas cabe_em_float (JList [JInt (10 ^ 400); JStr "a"]) = false \/
    folhas cabe_em_float (JList [JInt 0; JStr "a"]) = false)).
Proof.
  assert (H1 : folhas inteiro_com_texto (JList [JInt (10 ^ 400); JStr "a"]) = true)
    by (vm_compute; reflexivity).
  assert (H2 : folhas inteiro_com_texto (JList [JInt 0; JStr "a"]) = true)
    by (vm_compute; reflexivity).
  assert (H3 : @comparar_valores cpython (JList [JInt (10 ^ 400); JStr "a"])
                 (JList [JInt 0; JStr "a"]) "x" = Err OverflowError)
    by (vm_compute; reflexivity).
  split; [exact H1 | split; [exact H2 | split; [exact H3 |]]].
  exact (proj1 (@excecoes_do_comparador cpython) _ _ _ _ H1 H2 H3).
Defined.

Lemma inteiros_ate_2_53_exatos_testemunha :
  Z.abs (2 ^ 53) <= 2 ^ 53 /\ Z.abs (1 - 2 ^ 53) <= 2 ^ 53 /\
  @comparar_valores cpython (JInt (2 ^ 53)) (JInt (1 - 2 ^ 53)) "n" =
  Ok [ {| caminho := "n";
          tipo_diferenca := "VALOR_DIFERENTE";
          valor_json1 := "9007199254740992";
          tipo_json1 := "int";
          valor_json2 := "-9007199254740991";
          tipo_json2 := "int";
          detalhes := "Valores diferentes: 9007199254740992 vs -9007199254740991" |} ].
Proof.
  assert (H1 : Z.abs (2 ^ 53) <= 2 ^ 53) by (vm_compute; discriminate).
  assert (H2 : Z.abs (1 - 2 ^ 53) <= 2 ^ 53) by (vm_compute; discriminate).
  split; [exact H1 | split; [exact H2 |]].
  exact (@inteiros_ate_2_53_exatos cpython (2 ^ 53) (1 - 2 ^ 53) "n" H1 H2).
Defined.

Lemma listas_de_mesmo_tamanho_testemunha :
  List.length [JInt 3; JInt 1] = List.length [JInt 1; JInt 2] /\
  @comparar_valores cpython (JList [JInt 3; JInt 1]) (JList [JInt 1; JInt 2]) "l" =
  concat_mapM
    (fun i =>
       @comparar_valores cpython
          (nth i (itens_de (@ordenar_lista cpython (JList [JInt 3; JInt 1]))) JNull)
          (nth i (itens_de (@ordenar_lista cpython (JList [JInt 1; JInt 2]))) JNull)
          (caminho_item "l" i))
    (seq 0 (List.length [JInt 3; JInt 1])).
Proof.
  split; [reflexivity |].
  apply (@listas_de_mesmo_tamanho cpython). reflexivity.
Defined.

Lemma objetos_campo_a_campo_testemunha :
  NoDup (chaves [("a", JInt 1); ("b", JInt 2)]) /\
  mesmos_registros
    (@comparar_valores cpython (JDict [("a", JInt 1); ("b", JInt 2)])
                               (JDict [("a", JInt 5)]) "o")
    (Ok [ {| caminho := "o.a";
             tipo_diferenca := "VALOR_DIFERENTE";
             valor_json1 := "1";
             tipo_json1 := "int";
             valor_json2 := "5";
             tipo_json2 := "int";
             detalhes := "Valores diferentes: 1 vs 5" |};
          {| caminho := "o.b";
             tipo_diferenca := "CAMPO_AUSENTE_JSON2";
             valor_json1 := "2";
             tipo_json1 := "int";
             valor_json2 := "CAMPO_NAO_EXISTE";
             tipo_json2 := "N/A";
             detalhes := "Campo existe no JSON1 mas não no JSON2" |} ]).
Proof.
  assert (H : NoDup (chaves [("a", JInt 1); ("b", JInt 2)])).
  { simpl. constructor; [simpl; intros [E | []]; discriminate |].
    constructor; [simpl; tauto | constructor]. }
  split; [exact H |].
  exact (@objetos_campo_a_campo cpython [("a", JInt 1); ("b", JInt 2)]
           [("a", JInt 5)] "o" H).
Defined.

Lemma ordem_da_lista_canonica_testemunha :
  @ordenavel cpython [JInt 2; JStr "a"; JInt 1] = false /\
  @ordenar_lista cpython (JList [JInt 2; JStr "a"; JInt 1]) =
    JList [JInt 2; JStr "a"; JInt 1].
Proof.
  split; [reflexivity |].
  apply (proj1 (@ordem_da_lista_canonica cpython)). reflexivity.
Defined.

Lemma objeto_canonico_testemunha :
  chaves_distintas (JDict [("b", JInt 1); ("a", JList [JDict [("z", JNull); ("y", JNull)]])]) /\
  todo_objeto chaves_crescentes
    (@ordenar cpython (JDict [("b", JInt 1); ("a", JList [JDict [("z", JNull); ("y", JNull)]])])) /\
  chaves_distintas
    (@ordenar cpython (JDict [("b", JInt 1); ("a", JList [JDict [("z", JNull); ("y", JNull)]])])).
Proof.
  assert (H : chaves_distintas
            (JDict [("b", JInt 1); ("a", JList [JDict [("z", JNull); ("y", JNull)]])])).
  { unfold chaves_distintas. simpl. repeat split;
      repeat (constructor; [simpl; intuition discriminate |]); constructor. }
  split; [exact H |].
  exact (proj1 (@objeto_canonico cpython) _ H).
Defined.

Lemma comparar_formas_canonicas_testemunha :
  @ordenar_dicionario cpython (JDict [("a", JInt 1); ("b", JList [JInt 2; JInt 3])]) =
  @ordenar_dicionario cpython (JDict [("b", JList [JInt 3; JInt 2]); ("a", JInt 1)]) /\
  folhas limpo (JDict [("a", JInt 1); ("b", JList [JInt 2; JInt 3])]) = true /\
  @comparar_json cpython (JDict [("a", JInt 1); ("b", JList [JInt 2; JInt 3])])
                         (JDict [("b", JList [JInt 3; JInt 2]); ("a", JInt 1)]) = Ok [].
Proof.
  assert (H1 : @ordenar_dicionario cpython
                 (JDict [("a", JInt 1); ("b", JList [JInt 2; JInt 3])]) =
               @ordenar_dicionario cpython
                 (JDict [("b", JList [JInt 3; JInt 2]); ("a", JInt 1)]))
    by (vm_compute; reflexivity).
  assert (H2 : folhas limpo (JDict [("a", JInt 1); ("b", JList [JInt 2; JInt 3])])
               = true) by (vm_compute; reflexivity).
  split; [exact H1 | split; [exact H2 |]].
  exact (proj2 (@comparar_formas_canonicas cpython) _ _ H1 H2).
Defined.

Lemma main_veredito_testemunha :
  @escolher_arquivos sistema_de_exemplo ["comparar_json.py"; "a.json"; "b.json"] =
    inr ("a.json", "b.json", "diferencas.csv") /\
  ((In linha_identicos
      (impressos (mundo_de (@main cpython sistema_de_exemplo
                              ["comparar_json.py"; "a.json"; "b.json"]
                              mundo_inicial))) <->
    exists d1 d2,
      @carregar sistema_de_exemplo "a.json" = inr (JDict d1) /\
      @carregar sistema_de_exemplo "b.json" = inr (JDict d2) /\
      @coberto cpython (@ordenar cpython (JDict d1)) (@ordenar cpython (JDict d2))) /\
   (In linha_identicos
      (impressos (mundo_de (@main cpython sistema_de_exemplo
                              ["comparar_json.py"; "a.json"; "b.json"]
                              mundo_inicial))) ->
    arquivos (mundo_de (@main cpython sistema_de_exemplo
                          ["comparar_json.py"; "a.json"; "b.json"]
                          mundo_inicial)) = [])) /\
  In linha_identicos
     (impressos (mundo_de (@main cpython sistema_de_exemplo
                             ["comparar_json.py"; "a.json"; "b.json"]
                             mundo_inicial))).
Proof.
  split; [reflexivity | split].
  - exact (@main_veredito cpython sistema_de_exemplo
             ["comparar_json.py"; "a.json"; "b.json"]
             "a.json" "b.json" "diferencas.csv" eq_refl).
  - vm_compute. auto 10.
Defined.

Lemma main_arquivo_testemunha :
  @escolher_arquivos sistema_de_exemplo
     ["comparar_json.py"; "b.json"; "a.json"; "saida"] =
    inr ("b.json", "a.json", "saida") /\
  (let w := mundo_de (@main cpython sistema_de_exemplo
                        ["comparar_json.py"; "b.json"; "a.json"; "saida"]
                        mundo_inicial) in
   let nome := com_extensao "saida" in
   @main cpython sistema_de_exemplo
      ["comparar_json.py"; "b.json"; "a.json"; "saida"] mundo_inicial = Retorna w /\
   termina_com nome ".csv" = true /\
   (arquivos w <> [] <->
    exists j1 j2 r ds,
      @carregar sistema_de_exemplo "b.json" = inr j1 /\
      @carregar sistema_de_exemplo "a.json" = inr j2 /\
      @comparar_json cpython j1 j2 = Ok (r :: ds) /\
      @abrir_para_escrita sistema_de_exemplo nome = None) /\
   (forall j1 j2 ds,
      @carregar sistema_de_exemplo "b.json" = inr j1 ->
      @carregar sistema_de_exemplo "a.json" = inr j2 ->
      @comparar_json cpython j1 j2 = Ok ds -> arquivos w <> [] ->
      exists texto,
        arquivos w = [(nome, texto)] /\
        csv_ler texto = Some (campos :: map valores ds))) /\
  List.length (arquivos (mundo_de (@main cpython sistema_de_exemplo
                 ["comparar_json.py"; "b.json"; "a.json"; "saida"]
                 mundo_inicial))) = 1%nat.
Proof.
  split; [reflexivity | split].
  - exact (@main_arquivo cpython sistema_de_exemplo
             ["comparar_json.py"; "b.json"; "a.json"; "saida"]
             "b.json" "a.json" "saida" eq_refl).
  - vm_compute. reflexivity.
Defined.

Lemma ordem_nao_importa_testemunha :
  reordenado
    (JDict [("a", JList [JInt 2; JInt 1]); ("b", JDict [("x", JNull); ("y", JStr "t")])])
    (JDict [("b", JDict [("y", JStr "t"); ("x", JNull)]); ("a", JList [JInt 1; JInt 2])]) /\
  @ordenar cpython
    (JDict [("a", JList [JInt 2; JInt 1]); ("b", JDict [("x", JNull); ("y", JStr "t")])]) =
  @ordenar cpython
    (JDict [("b", JDict [("y", JStr "t"); ("x", JNull)]); ("a", JList [JInt 1; JInt 2])]).
Proof.
  assert (H : reordenado
    (JDict [("a", JList [JInt 2; JInt 1]); ("b", JDict [("x", JNull); ("y", JStr "t")])])
    (JDict [("b", JDict [("y", JStr "t"); ("x", JNull)]); ("a", JList [JInt 1; JInt 2])])).
  { apply (ro_objeto _
             [("b", JDict [("x", JNull); ("y", JStr "t")]);
              ("a", JList [JInt 2; JInt 1])]).
    - simpl. constructor; [simpl; intros [E | []]; discriminate |].
      constructor; [simpl; tauto | constructor].
    - apply perm_swap.
    - constructor; [| constructor; [| constructor]].
      + split; [reflexivity |]. simpl.
        apply (ro_objeto _ [("y", JStr "t"); ("x", JNull)]).
        * simpl. constructor; [simpl; intros [E | []]; discriminate |].
          constructor; [simpl; tauto | constructor].
        * apply perm_swap.
        * repeat constructor.
      + split; [reflexivity |]. simpl.
        apply (ro_inteiros [2; 1] [1; 2]). apply perm_swap. }
  split; [exact H |].
  exact (proj1 (@ordem_nao_importa cpython) _ _ H).
Defined.

Lemma semente_de_hash_testemunha :
  mesmos_textos cpython cpython_outra_semente /\
  @comparar_json cpython
     (JDict [("a", JInt 1); ("b", JInt 2)]) (JDict [("a", JInt 5); ("b", JInt 6)]) <>
  @comparar_json cpython_outra_semente
     (JDict [("a", JInt 1); ("b", JInt 2)]) (JDict [("a", JInt 5); ("b", JInt 6)]) /\
  mesmos_registros
    (@comparar_json cpython
       (JDict [("a", JInt 1); ("b", JInt 2)]) (JDict [("a", JInt 5); ("b", JInt 6)]))
    (@comparar_json cpython_outra_semente
       (JDict [("a", JInt 1); ("b", JInt 2)]) (JDict [("a", JInt 5); ("b", JInt 6)])).
Proof.
  assert (H : mesmos_textos cpython cpython_outra_semente)
    by (repeat split; reflexivity).
  split; [exact H | split].
  - vm_compute. discriminate.
  - exact (proj2 (proj2 (semente_de_hash cpython cpython_outra_semente H)) _ _).
Defined.

(** * Order-insensitivity *)

(** ** The order of the numbers *)

Lemma Zmul_compara (p a b : Z) : 0 < p -> (a * p ?= b * p) = (a ?= b).
Proof.
  intros Hp. destruct (Z.compare_spec a b) as [-> | H | H].
  - apply Z.compare_refl.
  - apply Z.compare_lt_iff. nia.
  - apply Z.compare_gt_iff. nia.
Qed.

Lemma canonico_limites (m : positive) (e : Z) :
  canonical_mantissa 53 1024 m e = true ->
  Z.pos (digits2_pos m) <= 53 /\ -1074 <= e /\
  (e = -1074 \/ Z.pos (digits2_pos m) = 53).
Proof.
  unfold canonical_mantissa, fexp, emin. rewrite Z.eqb_eq. lia.
Qed.

Lemma finito_menor (m1 m2 : positive) (e1 e2 : Z) :
  canonical_mantissa 53 1024 m1 e1 = true ->
  canonical_mantissa 53 1024 m2 e2 = true ->
  e1 < e2 ->
  Z.pos m1 * 2 ^ (e1 + 1074) < Z.pos m2 * 2 ^ (e2 + 1074).
Proof.
  intros C1 C2 Hlt.
  destruct (canonico_limites _ _ C1) as (Hd1 & He1 & _).
  destruct (canonico_limites _ _ C2) as (_ & He2 & Hc2).
  assert (Hd2 : Z.pos (digits2_pos m2) = 53) by lia.
  pose proof (digits2_pos_limites m1) as L1.
  pose proof (digits2_pos_limites m2) as L2.
  rewrite Hd2 in L2. change (53 - 1) with 52 in L2.
  assert (H1 : Z.pos m1 < 2 ^ 53).
  { assert (2 ^ Z.pos (digits2_pos m1) <= 2 ^ 53)
      by (apply Z.pow_le_mono_r; lia).
    lia. }
  assert (HA : 0 < 2 ^ (e1 + 1074)) by (apply Z.pow_pos_nonneg; lia).
  assert (HB : 2 ^ (e2 + 1074) = 2 ^ (e2 - e1) * 2 ^ (e1 + 1074)).
  { rewrite <- Z.pow_add_r by lia. f_equal. lia. }
  assert (HK : 2 <= 2 ^ (e2 - e1)).
  { change 2 with (2 ^ 1) at 1. apply Z.pow_le_mono_r; lia. }
  rewrite HB.
  set (A := 2 ^ (e1 + 1074)) in *. set (K := 2 ^ (e2 - e1)) in *.
  assert (E53 : 2 ^ 53 = 2 * 2 ^ 52) by reflexivity.
  set (c := 2 ^ 52) in *.
  assert (S1 : Z.pos m1 * A < 2 * c * A) by nia.
  assert (S2 : 2 * c * A <= c * (K * A)) by nia.
  assert (S3 : c * (K * A) <= Z.pos m2 * (K * A)) by nia.
  lia.
Qed.

Lemma compara_finitos (m1 m2 : positive) (e1 e2 : Z) :
  canonical_mantissa 53 1024 m1 e1 = true ->
  canonical_mantissa 53 1024 m2 e2 = true ->
  match e1 ?= e2 with
  | Eq => Pos.compare_cont Eq m1 m2
  | Lt => Lt
  | Gt => Gt
  end = (Z.pos m1 * 2 ^ (e1 + 1074) ?= Z.pos m2 * 2 ^ (e2 + 1074)).
Proof.
  intros C1 C2. destruct (Z.compare_spec e1 e2) as [-> | Hlt | Hgt].
  - change (Pos.compare_cont Eq m1 m2) with (Z.pos m1 ?= Z.pos m2).
    symmetry. apply Zmul_compara.
    apply Z.pow_pos_nonneg; [lia |].
    destruct (canonico_limites _ _ C2) as (_ & He & _). lia.
  - symmetry. apply Z.compare_lt_iff. apply finito_menor; assumption.
  - symmetry. apply Z.compare_gt_iff. apply finito_menor; assumption.
Qed.

Lemma compara_lugar_antisym (a b : Z * Z) :
  compara_lugar b a = CompOpp (compara_lugar a b).
Proof.
  unfold compara_lugar. rewrite (Z.compare_antisym (fst a) (fst b)).
  destruct (fst a ?= fst b); simpl; try reflexivity.
  apply Z.compare_antisym.
Qed.

Lemma compara_lugar_Lt (a b : Z * Z) :
  compara_lugar a b = Lt <->
  fst a < fst b \/ (fst a = fst b /\ snd a < snd b).
Proof.
  unfold compara_lugar.
  destruct (Z.compare_spec (fst a) (fst b)) as [E | H | H].
  - rewrite Z.compare_lt_iff. lia.
  - split; [auto | reflexivity].
  - split; [discriminate | lia].
Qed.

Lemma compara_lugar_Eq (a b : Z * Z) :
  compara_lugar a b = Eq <-> fst a = fst b /\ snd a = snd b.
Proof.
  unfold compara_lugar.
  destruct (Z.compare_spec (fst a) (fst b)) as [E | H | H].
  - rewrite Z.compare_eq_iff. tauto.
  - split; [discriminate | lia].
  - split; [discriminate | lia].
Qed.

Lemma SFcompare_lugar (f g : float) :
  numero_bom (NFloat f) = true -> numero_bom (NFloat g) = true ->
  SFcompare f g = Some (compara_lugar (lugar (NFloat f)) (lugar (NFloat g))).
Proof.
  destruct f as [s | s | | s m e], g as [s' | s' | | s' m' e']; simpl;
    intros Hf Hg; try discriminate; unfold compara_lugar;
    cbn [lugar fst snd].
  - reflexivity.
  - destruct s'; reflexivity.
  - apply andb_true_iff in Hg. destruct Hg as [Cg _].
    destruct (canonico_limites _ _ Cg) as (_ & He & _).
    assert (0 < 2 ^ (e' + 1074)) by (apply Z.pow_pos_nonneg; lia).
    f_equal. simpl (0 ?= 0). cbv iota.
    destruct s'; symmetry;
      [apply Z.compare_gt_iff | apply Z.compare_lt_iff]; lia.
  - destruct s; reflexivity.
  - destruct s, s'; reflexivity.
  - destruct s; reflexivity.
  - apply andb_true_iff in Hf. destruct Hf as [Cf _].
    destruct (canonico_limites _ _ Cf) as (_ & He & _).
    assert (0 < 2 ^ (e + 1074)) by (apply Z.pow_pos_nonneg; lia).
    f_equal. simpl (0 ?= 0). cbv iota.
    destruct s; symmetry;
      [apply Z.compare_lt_iff | apply Z.compare_gt_iff]; lia.
  - destruct s'; reflexivity.
  - apply andb_true_iff in Hf. destruct Hf as [Cf _].
    apply andb_true_iff in Hg. destruct Hg as [Cg _].
    destruct (canonico_limites _ _ Cf) as (_ & He & _).
    destruct (canonico_limites _ _ Cg) as (_ & He' & _).
    assert (0 < 2 ^ (e + 1074)) by (apply Z.pow_pos_nonneg; lia).
    assert (0 < 2 ^ (e' + 1074)) by (apply Z.pow_pos_nonneg; lia).
    f_equal. simpl (0 ?= 0). cbv iota.
    destruct s, s'.
    + rewrite <- !Pos2Z.opp_pos, !Z.mul_opp_l, Z.compare_opp.
      rewrite <- (compara_finitos m' m e' e Cg Cf).
      rewrite (Z.compare_antisym e e').
      destruct (e ?= e') eqn:Ee; simpl; try reflexivity.
      change (Pos.compare_cont Eq m m') with (Pos.compare m m').
      change (Pos.compare_cont Eq m' m) with (Pos.compare m' m).
      rewrite (Pos.compare_antisym m m'). destruct (m ?= m')%positive;
        reflexivity.
    + symmetry. apply Z.compare_lt_iff. lia.
    + symmetry. apply Z.compare_gt_iff. lia.
    + apply compara_finitos; assumption.
Qed.

Lemma Z_SF_compare_lugar (z : Z) (f : float) :
  numero_bom (NFloat f) = true ->
  Z_SF_compare z f = Some (compara_lugar (lugar (NInt z)) (lugar (NFloat f))).
Proof.
  assert (Hc : 0 < 2 ^ 1074) by (apply Z.pow_pos_nonneg; lia).
  destruct f as [s | s | | s m e]; simpl; intros Hf; try discriminate;
    unfold compara_lugar; cbn [lugar fst snd]; f_equal.
  - simpl (0 ?= 0). cbv iota.
    rewrite <- (Zmul_compara (2 ^ 1074) z 0 Hc). reflexivity.
  - destruct s; reflexivity.
  - simpl (0 ?= 0). cbv iota.
    apply andb_true_iff in Hf. destruct Hf as [Cf _].
    destruct (canonico_limites _ _ Cf) as (_ & He & _).
    set (v := if s then Z.neg m else Z.pos m).
    destruct (Z.leb_spec 0 e) as [Hpos | Hneg].
    + rewrite <- (Zmul_compara (2 ^ 1074) z (v * 2 ^ e) Hc).
      rewrite <- Z.mul_assoc, <- Z.pow_add_r by lia. reflexivity.
    + assert (Hk : 0 < 2 ^ (e + 1074)) by (apply Z.pow_pos_nonneg; lia).
      rewrite <- (Zmul_compara (2 ^ (e + 1074)) (z * 2 ^ (- e)) v Hk).
      rewrite <- Z.mul_assoc, <- Z.pow_add_r by lia.
      replace (- e + (e + 1074)) with 1074 by lia. reflexivity.
Qed.

Lemma num_compare_lugar (x y : numero) :
  numero_bom x = true -> numero_bom y = true ->
  num_compare x y = Some (compara_lugar (lugar x) (lugar y)).
Proof.
  assert (Hc : 0 < 2 ^ 1074) by (apply Z.pow_pos_nonneg; lia).
  destruct x as [a | f], y as [b | g]; intros Hx Hy.
  - simpl. unfold compara_lugar. simpl. f_equal.
    symmetry. apply Zmul_compara. exact Hc.
  - apply Z_SF_compare_lugar. exact Hy.
  - cbn [num_compare]. rewrite (Z_SF_compare_lugar b f Hx). simpl.
    rewrite <- compara_lugar_antisym. reflexivity.
  - apply SFcompare_lugar; assumption.
Qed.

(** ** Arrays of numbers of several kinds *)

Lemma Forall2_In_l {A B : Type} (R : A -> B -> Prop) (l : list A) (l' : list B)
    (x : A) :
  Forall2 R l l' -> In x l -> exists y, In y l' /\ R x y.
Proof.
  induction 1 as [| a b l l' Hab _ IH]; intros Hx; [contradiction |].
  destruct Hx as [<- | Hx].
  - exists b. split; [left; reflexivity | exact Hab].
  - destruct (IH Hx) as (y & Hy & Hxy). exists y. split; [right |]; assumption.
Qed.

Section MixedNumbers.
Context {RT : Runtime}.
Variable l : list json.
Hypothesis Hempate : sem_empate_entre_tipos l.

(** An item of the array, with its sort key. *)
Local Abbreviation item_numerico :=
  (fun kx : chave_ord * json =>
     fst kx = chave_de_ordem (snd kx) /\
     (escalar (snd kx) = true /\ limpo (snd kx) = true) /\
     (e_numero (snd kx) = true /\ float_valido (snd kx) = true) /\
     In (snd kx) l).

Lemma chave_de_numero (x : json) :
  limpo x = true -> e_numero x = true -> float_valido x = true ->
  exists n, chave_de_ordem x = KNum n /\ numero_de x = Some n /\
            numero_bom n = true.
Proof.
  unfold limpo, e_numero, float_valido.
  destruct x as [| b | z | f | s | a | d]; simpl; intros Hl Hn Hv;
    try discriminate.
  - eexists. repeat split.
  - eexists. repeat split.
  - exists (NFloat f). repeat split. destruct f; try discriminate; exact Hv.
Qed.

Lemma lt_item_numerico (a b : chave_ord * json) :
  item_numerico a -> item_numerico b ->
  exists x y,
    numero_de (snd a) = Some x /\ numero_de (snd b) = Some y /\
    lt_decorado a b =
      Ok (match compara_lugar (lugar x) (lugar y) with
          | Lt => true
          | _ => false
          end).
Proof.
  intros (Ka & (_ & La) & (Na & Va) & _) (Kb & (_ & Lb) & (Nb & Vb) & _).
  destruct (chave_de_numero _ La Na Va) as (x & Kx & Hx & Bx).
  destruct (chave_de_numero _ Lb Nb Vb) as (y & Ky & Hy & By).
  exists x, y. repeat split; try assumption.
  unfold lt_decorado. rewrite Ka, Kb, Kx, Ky. simpl. unfold num_ltb.
  rewrite (num_compare_lugar x y Bx By). reflexivity.
Qed.

Lemma ltd_numerico_negtrans (a b c : chave_ord * json) :
  item_numerico a -> item_numerico b -> item_numerico c ->
  lt_true lt_decorado a b = true ->
  lt_true lt_decorado a c = true \/ lt_true lt_decorado c b = true.
Proof.
  intros Ha Hb Hc. unfold lt_true.
  destruct (lt_item_numerico a b Ha Hb) as (x & y & Hx & Hy & ->).
  destruct (lt_item_numerico a c Ha Hc) as (x' & z & Hx' & Hz & ->).
  destruct (lt_item_numerico c b Hc Hb) as (z' & y' & Hz' & Hy' & ->).
  assert (x' = x) by congruence. assert (y' = y) by congruence.
  assert (z' = z) by congruence. subst x' y' z'.
  destruct (compara_lugar (lugar x) (lugar y)) eqn:Exy; try discriminate.
  intros _. apply compara_lugar_Lt in Exy.
  destruct (compara_lugar (lugar x) (lugar z)) eqn:Exz; auto;
    destruct (compara_lugar (lugar z) (lugar y)) eqn:Ezy; auto; exfalso.
  - apply compara_lugar_Eq in Exz, Ezy. lia.
  - apply compara_lugar_Eq in Exz.
    rewrite compara_lugar_antisym in Ezy.
    destruct (compara_lugar (lugar y) (lugar z)) eqn:E; try discriminate.
    apply compara_lugar_Lt in E. lia.
  - apply compara_lugar_Eq in Ezy.
    rewrite compara_lugar_antisym in Exz.
    destruct (compara_lugar (lugar z) (lugar x)) eqn:E; try discriminate.
    apply compara_lugar_Lt in E. lia.
  - rewrite compara_lugar_antisym in Exz, Ezy.
    destruct (compara_lugar (lugar z) (lugar x)) eqn:E1; try discriminate.
    destruct (compara_lugar (lugar y) (lugar z)) eqn:E2; try discriminate.
    apply compara_lugar_Lt in E1, E2. lia.
Qed.

Lemma equivalentes_numericos (a b : chave_ord * json) (q : string) :
  item_numerico a -> item_numerico b ->
  equivalentes (lt_true lt_decorado) a b ->
  comparar_valores (snd a) (snd b) q = Ok [].
Proof.
  intros Ha Hb [E1 E2].
  assert (Heq : py_eqb (snd a) (snd b) = true).
  { unfold lt_true in E1, E2.
    destruct (lt_item_numerico a b Ha Hb) as (x & y & Hx & Hy & Eab).
    destruct (lt_item_numerico b a Hb Ha) as (y' & x' & Hy' & Hx' & Eba).
    assert (x' = x) by congruence. assert (y' = y) by congruence.
    subst x' y'. rewrite Eab in E1. rewrite Eba in E2.
    rewrite compara_lugar_antisym in E2.
    destruct Ha as (_ & (_ & La) & (Na & Va) & _).
    destruct Hb as (_ & (_ & Lb) & (Nb & Vb) & _).
    destruct (chave_de_numero _ La Na Va) as (x0 & _ & Hx0 & Bx).
    destruct (chave_de_numero _ Lb Nb Vb) as (y0 & _ & Hy0 & By).
    assert (x0 = x) by congruence. assert (y0 = y) by congruence.
    subst x0 y0.
    assert (Hc : num_compare x y = Some Eq).
    { rewrite (num_compare_lugar x y Bx By).
      destruct (compara_lugar (lugar x) (lugar y)); try discriminate;
        reflexivity. }
    destruct (snd a) as [| ? | ? | ? | ? | ? | ?];
      destruct (snd b) as [| ? | ? | ? | ? | ? | ?]; try discriminate;
      simpl in Hx, Hy; injection Hx as <-; injection Hy as <-;
      unfold py_eqb; cbn [numero_de]; rewrite Hc; reflexivity. }
  assert (Ht : obter_tipo (snd a) = obter_tipo (snd b)).
  { destruct Ha as (_ & _ & _ & Ia). destruct Hb as (_ & _ & _ & Ib).
    apply Hempate; assumption. }
  destruct Ha as (Ka & (Ea & La) & _ & _). destruct Hb as (Kb & (Eb & Lb) & _ & _).
  apply (equivalentes_sem_diferenca (obter_tipo (snd a)) a b q).
  - split; [exact Ka |]. repeat split; assumption.
  - split; [exact Kb |]. repeat split; try assumption. symmetry. exact Ht.
  - split; assumption.
Qed.

Lemma itens_numericos_sem_diferenca (l' : list json) :
  Forall (fun x => escalar x = true /\ limpo x = true) l ->
  Forall (fun x => e_numero x = true /\ float_valido x = true) l ->
  Permutation l l' ->
  Forall2 (fun x y => forall q, comparar_valores x y q = Ok [])
          (itens_de (ordenar_lista (JList l)))
          (itens_de (ordenar_lista (JList l'))).
Proof.
  intros Hl Hn Hp.
  assert (Hdec : forall m, Permutation l m ->
            Forall item_numerico (map (fun x => (chave_de_ordem x, x)) m)).
  { intros m Hm. apply Forall_forall. intros kx Hkx.
    apply in_map_iff in Hkx. destruct Hkx as (x & <- & Hx).
    apply (Permutation_in _ (Permutation_sym Hm)) in Hx.
    rewrite Forall_forall in Hl, Hn. simpl.
    split; [reflexivity | split; [apply Hl, Hx | split; [apply Hn, Hx | exact Hx]]]. }
  assert (Hesc : forall m, Permutation l m -> map ordenar m = m).
  { intros m Hm. apply map_ordenar_escalares.
    eapply Permutation_Forall; [exact Hm |].
    eapply Forall_impl; [| exact Hl]. intros x [H _]. exact H. }
  assert (Hsort : forall m, Permutation l m ->
            tenta_ordenar m =
            map snd (isort (lt_true lt_decorado)
                       (map (fun x => (chave_de_ordem x, x)) m))).
  { intros m Hm. unfold tenta_ordenar, sorted.
    change (fun a b : chave_ord * json => chave_lt (fst a) (fst b))
      with lt_decorado.
    rewrite (sortedM_isort_total lt_decorado item_numerico).
    - reflexivity.
    - intros a b Ha Hb.
      destruct (lt_item_numerico a b Ha Hb) as (x & y & _ & _ & ->). eauto.
    - apply Hdec, Hm. }
  rewrite !ordenar_lista_eq. simpl.
  rewrite (Hesc l (Permutation_refl _)), (Hesc l' Hp).
  rewrite (Hsort l (Permutation_refl _)), (Hsort l' Hp).
  apply Forall2_map.
  assert (Heq : Forall2 (equivalentes (lt_true lt_decorado))
            (isort (lt_true lt_decorado) (map (fun x => (chave_de_ordem x, x)) l))
            (isort (lt_true lt_decorado) (map (fun x => (chave_de_ordem x, x)) l'))).
  { apply (isort_perm_equivalentes (lt_true lt_decorado) item_numerico).
    - intros a b _ _. apply ltd_asym.
    - apply ltd_numerico_negtrans.
    - apply Hdec. reflexivity.
    - apply Permutation_map, Hp. }
  pose proof (Forall2_combina _ item_numerico item_numerico _ _ Heq
                (isort_Forall (lt_true lt_decorado) _ _ (Hdec _ (Permutation_refl _)))
                (isort_Forall (lt_true lt_decorado) _ _ (Hdec _ Hp))) as Hc.
  eapply Forall2_impl; [| exact Hc].
  intros a b (Ha & Hb & Hab) q.
  exact (equivalentes_numericos a b q Ha Hb Hab).
Qed.

End MixedNumbers.

(** ** Rearranged values *)

Section Rearranged.
Context {RT : Runtime}.

Lemma itens_rearranjados (l l' : list json) :
  rearranjavel l -> Permutation l l' ->
  Forall2 (fun x y => forall q, comparar_valores x y q = Ok [])
          (itens_de (ordenar_lista (JList l)))
          (itens_de (ordenar_lista (JList l'))).
Proof.
  intros [Hl [[t Ht] | [Hn He]]] Hp.
  - apply (itens_ordenados_sem_diferenca t); [| exact Hp].
    rewrite Forall_forall in *. intros x Hx.
    destruct (Hl x Hx) as [H1 H2]. repeat split; auto.
  - apply itens_numericos_sem_diferenca; assumption.
Qed.

Lemma coberto_de_vazio (v1 v2 : json) :
  (forall q, comparar_valores v1 v2 q = Ok []) -> coberto v1 v2.
Proof.
  intros H. specialize (H ""). unfold comparar_valores in H.
  apply comparar_valores_rec_vazio in H; [exact H | lia].
Qed.

Lemma coberto_reflexivo (v : json) : folhas limpo v = true -> coberto v v.
Proof.
  intros H. apply coberto_de_vazio. intros q.
  apply comparar_valores_refl. exact H.
Qed.

Lemma chaves_de_pares (d' d'' : list (string * json))
    (R : json -> json -> Prop) :
  Forall2 (fun kv kv' => fst kv = fst kv' /\ R (snd kv) (snd kv')) d' d'' ->
  chaves d' = chaves d''.
Proof.
  induction 1 as [| x y l l' [Hk _] _ IH]; simpl; [reflexivity |].
  rewrite Hk, IH. reflexivity.
Qed.

Lemma dict_get_ordenado (d : list (string * json)) (k : string) (a : json) :
  NoDup (chaves d) -> In (k, a) d ->
  dict_get (ordenar_chaves (map ordenar_campo d)) k = Ok (ordenar a).
Proof.
  intros Hnd Hin. apply dict_get_NoDup.
  - eapply Permutation_NoDup.
    + unfold chaves. apply Permutation_map. symmetry. apply ordenar_chaves_perm.
    + fold (chaves (map ordenar_campo d)). rewrite chaves_ordenar_campo.
      exact Hnd.
  - apply (Permutation_in _ (Permutation_sym (ordenar_chaves_perm _))).
    apply (in_map ordenar_campo) in Hin. exact Hin.
Qed.

Lemma permutado_coberto (n : nat) (v v' : json) :
  (altura v < n)%nat -> permutado v v' -> folhas limpo v = true ->
  coberto v v' /\ coberto (ordenar v) (ordenar v').
Proof.
  revert v v'. induction n as [| n IH]; intros v v' Hn H Hv; [lia |].
  inversion H as [u | l l' Hr Hp | d d' d'' Hnd Hp HF]; subst.
  - split; apply coberto_reflexivo; [| rewrite folhas_ordenar]; exact Hv.
  - assert (HF : Forall2 coberto (itens_de (ordenar_lista (JList l)))
                                 (itens_de (ordenar_lista (JList l')))).
    { eapply Forall2_impl; [| apply itens_rearranjados; eassumption].
      intros a b. apply coberto_de_vazio. }
    split; [constructor; exact HF |].
    change (ordenar (JList l)) with (ordenar_lista (JList l)).
    change (ordenar (JList l')) with (ordenar_lista (JList l')).
    pose proof (ordenar_idem (JList l)) as I1.
    pose proof (ordenar_idem (JList l')) as I2.
    change (ordenar (JList l)) with (ordenar_lista (JList l)) in I1.
    change (ordenar (JList l')) with (ordenar_lista (JList l')) in I2.
    rewrite ordenar_lista_eq in I1 at 1. rewrite ordenar_lista_eq in I2 at 1.
    rewrite (ordenar_lista_eq l) at 1. rewrite (ordenar_lista_eq l') at 1.
    constructor.
    change (ordenar_lista (JList (tenta_ordenar (map ordenar l))))
      with (ordenar (JList (tenta_ordenar (map ordenar l)))).
    change (ordenar_lista (JList (tenta_ordenar (map ordenar l'))))
      with (ordenar (JList (tenta_ordenar (map ordenar l')))).
    rewrite I1, I2. exact HF.
  - assert (Hk' : chaves d' = chaves d'') by (eapply chaves_de_pares; eauto).
    assert (Hnd'' : NoDup (chaves d'')).
    { rewrite <- Hk'. eapply Permutation_NoDup; [| exact Hnd].
      unfold chaves. apply Permutation_map. exact Hp. }
    assert (Hpar : forall k, In k (chaves d) ->
              exists a a'', In (k, a) d /\ In (k, a'') d'' /\
                            coberto a a'' /\ coberto (ordenar a) (ordenar a'')).
    { intros k Hk. destruct (dict_get_chaves _ _ Hk) as [a Ha].
      pose proof (dict_get_In _ _ _ Ha) as Hin.
      pose proof (Permutation_in _ Hp Hin) as Hin'.
      destruct (Forall2_In_l _ _ _ _ HF Hin') as ([k'' a''] & Hin'' & Hkk & Hperm).
      simpl in Hkk, Hperm. subst k''.
      exists a, a''. split; [exact Hin | split; [exact Hin'' |]].
      apply IH; [| exact Hperm |].
      - pose proof (altura_campo (k, a) d Hin). simpl in *. lia.
      - eapply folhas_campo; eauto. }
    split.
    + constructor. intros k Hk.
      destruct (Hpar k Hk) as (a & a'' & Hin & Hin'' & Hc & _).
      exists a, a''. repeat split; try assumption;
        apply dict_get_NoDup; assumption.
    + change (ordenar (JDict d)) with (ordenar_dic (JDict d)).
      change (ordenar (JDict d'')) with (ordenar_dic (JDict d'')).
      rewrite !ordenar_dic_eq. constructor. intros k Hk.
      assert (Hk0 : In k (chaves d)).
      { rewrite <- (chaves_ordenar_campo d).
        eapply Permutation_in; [| exact Hk].
        unfold chaves. apply Permutation_map. apply ordenar_chaves_perm. }
      destruct (Hpar k Hk0) as (a & a'' & Hin & Hin'' & _ & Hc).
      exists (ordenar a), (ordenar a''). repeat split; try assumption;
        apply dict_get_ordenado; assumption.
Qed.


End Rearranged.

